(** * Orc Siege voxel world (src/game.js): model and verified properties

    The development embeds the world subsystem of [class Game]: the sparse
    voxel store, procedural terrain and tree generation, the face-culling
    mesher, the chunk manager, the inventory, block selection, breaking
    and placement, the player physics step, the input handlers and the
    frame loop.

    Numbers.  Block and chunk coordinates, loop counters and inventory
    counts are integers ([Z]).  Continuous quantities (camera position,
    velocity, noise samples) are JavaScript doubles in the source; they are
    modelled by exact rationals ([Q]), so [Math.floor] is [Qfloor].  No
    statement below depends on a rounding error of double arithmetic.

    Keys.  The template strings [`${x},${y},${z}`] and [`${cx},${cz}`] used
    as map keys are modelled by the tuples of integers they print. *)

From Stdlib Require Import ZArith QArith Qround Lia Lqa.
From stdpp Require Import gmap list.

Local Open Scope Z_scope.

(** ** Constants (game.js lines 5-15) *)

Definition CHUNK_SIZE : Z := 16.
Definition CHUNK_HEIGHT : Z := 64.
Definition RENDER_DISTANCE : Z := 4.

Inductive BlockType := AIR | DIRT | GRASS | STONE | WOOD | LEAVES.

(** The numeric value of each member of [BLOCK_TYPES]. *)
Definition blockCode (t : BlockType) : Z :=
  match t with
  | AIR => 0 | DIRT => 1 | GRASS => 2 | STONE => 3 | WOOD => 4 | LEAVES => 5
  end.

Definition blockOfCode (c : Z) : option BlockType :=
  match c with
  | 0 => Some AIR | 1 => Some DIRT | 2 => Some GRASS
  | 3 => Some STONE | 4 => Some WOOD | 5 => Some LEAVES
  | _ => None
  end.

#[global] Instance BlockType_eq_dec : EqDecision BlockType.
Proof. solve_decision. Defined.

#[global] Instance BlockType_countable : Countable BlockType.
Proof.
  apply (inj_countable blockCode blockOfCode).
  intros []; reflexivity.
Defined.

(** ** Loops

    [for (let i = lo; i < hi; i++) body] threads the state through the
    body for [i = lo, lo+1, ..., hi-1]. *)

Definition forRange {S : Type} (lo hi : Z) (body : Z → S → S) (s : S) : S :=
  foldl (λ acc i, body i acc) s (seqZ lo (hi - lo)).

(** ** Vectors (THREE.Vector3) *)

Record Vec3 := mkVec3 { vx : Q; vy : Q; vz : Q }.

Definition Math_floor (x : Q) : Q := inject_Z (Qfloor x).

Definition Qltb (a b : Q) : bool := negb (Qle_bool b a).

(** ** VoxelStore (game.js lines 298-314) *)

Abbreviation BlockKey := (Z * Z * Z)%type.

(** One call of [setBlock], as the integer cell it addresses and the type
    it was given. *)
Abbreviation SetBlockCall := (Z * Z * Z * BlockType)%type.

(** [worldData] is the [Map] of the source.  [setBlockCalls] is a ghost
    history: every call of [setBlock] is appended to it, oldest first; no
    function reads it. *)
Record World := mkWorld {
  worldData : gmap BlockKey BlockType;
  setBlockCalls : list SetBlockCall
}.

Definition emptyWorld : World := mkWorld ∅ [].

Definition getBlockKey (x y z : Q) : BlockKey :=
  (Qfloor x, Qfloor y, Qfloor z).

(** [this.worldData.get(key) || BLOCK_TYPES.AIR]: a missing entry
    ([undefined]) and a stored [0] are both falsy. *)
Definition getBlock (wd : gmap BlockKey BlockType) (x y z : Q) : BlockType :=
  match wd !! getBlockKey x y z with
  | Some AIR => AIR
  | Some t => t
  | None => AIR
  end.

Definition setBlock (x y z : Q) (type : BlockType) (w : World) : World :=
  let key := getBlockKey (Math_floor x) (Math_floor y) (Math_floor z) in
  {| worldData :=
       if decide (type = AIR) then delete key (worldData w)
       else <[key := type]> (worldData w);
     setBlockCalls := setBlockCalls w ++ [(key, type)] |}.

(** A sequence of [setBlock] calls, each with its four arguments. *)
Definition runSetBlocks (calls : list (Q * Q * Q * BlockType)) (w : World) : World :=
  foldl (λ acc c, let '(x, y, z, t) := c in setBlock x y z t acc) w calls.

(** ** JavaScript [Map] with its insertion order (used for [this.chunks])

    [Map.prototype.forEach] visits the entries in insertion order, so the
    chunk table is an association list: [set] on a present key replaces the
    value in place, [set] on a new key appends, [delete] removes. *)

Fixpoint mapGet {K V : Type} `{EqDecision K} (k : K) (m : list (K * V)) : option V :=
  match m with
  | [] => None
  | (k', v) :: rest => if decide (k' = k) then Some v else mapGet k rest
  end.

Definition mapHas {K V : Type} `{EqDecision K} (k : K) (m : list (K * V)) : bool :=
  match mapGet k m with Some _ => true | None => false end.

Fixpoint mapSet {K V : Type} `{EqDecision K} (k : K) (v : V) (m : list (K * V)) : list (K * V) :=
  match m with
  | [] => [(k, v)]
  | (k', v') :: rest =>
      if decide (k' = k) then (k, v) :: rest else (k', v') :: mapSet k v rest
  end.

Fixpoint mapDelete {K V : Type} `{EqDecision K} (k : K) (m : list (K * V)) : list (K * V) :=
  match m with
  | [] => []
  | (k', v') :: rest =>
      if decide (k' = k) then mapDelete k rest else (k', v') :: mapDelete k rest
  end.

(** [map.forEach(callback)] where the callback may delete entries of the
    map it iterates ([getMap] reads that map from the state): an entry
    deleted before its turn is not visited. *)
Definition mapForEach {K V S : Type} `{EqDecision K}
    (getMap : S → list (K * V)) (callback : V → K → S → S) (s : S) : S :=
  foldl (λ acc e,
           match mapGet e.1 (getMap acc) with
           | Some v => callback v e.1 acc
           | None => acc
           end) s (getMap s).

(** ** Render objects

    A [THREE.InstancedMesh] is an object with an identity: [meshId] stands
    for the [id] that three.js gives every [Object3D] from a global
    counter.  [blocks], [meshChunkX], [meshChunkZ] and [meshBlockType] are
    the [userData] fields of lines 500-503.  The instance matrices (cell
    origin + 0.5 on each axis) are a function of [blocks]. *)

Record Mesh := mkMesh {
  meshId : nat;
  meshChunkX : Z;
  meshChunkZ : Z;
  blocks : list BlockKey;
  meshBlockType : BlockType
}.

Record Chunk := mkChunk {
  meshes : list Mesh;
  chunkX : Z;
  chunkZ : Z
}.

Abbreviation ChunkKey := (Z * Z)%type.

(** [scene.remove(mesh)] removes that object from the children. *)
Definition sceneRemove (m : Mesh) (scene : list Mesh) : list Mesh :=
  filter (λ o, meshId o ≠ meshId m) scene.

(** ** Player, inventory and the whole game state *)

Record SelectedBlock := mkSelectedBlock {
  position : Vec3;
  type : BlockType
}.

(** The part of a raycaster intersection that [placeBlock] reads. *)
Record Intersection := mkIntersection { faceNormal : Vec3 }.

(** [inventory[t]] is a number for the five keys of the constructor and
    [undefined] for any other key ([None]); [undefined] and the [NaN] that
    arithmetic on it gives behave alike in every test of the source. *)
Abbreviation Inventory := (BlockType → option Z).

Definition initialInventory : Inventory :=
  λ t, match t with AIR => None | _ => Some 0 end.

Definition slotToBlockType : list BlockType := [DIRT; GRASS; STONE; WOOD; LEAVES].

Record Game := mkGame {
  world : World;
  chunks : list (ChunkKey * Chunk);
  scene : list Mesh;
  nextObjectId : nat;
  (** number of [geometry.dispose()] calls made so far *)
  disposeCalls : nat;
  inventory : Inventory;
  selectedBlock : option SelectedBlock;
  selectedSlot : nat;
  cameraPosition : Vec3;
  velocity : Vec3;
  canJump : bool;
  isLocked : bool;
  moveForward : bool;
  moveBackward : bool;
  moveLeft : bool;
  moveRight : bool;
  isRunning : bool
}.

Definition playerHeight : Q := 1.8.
Definition playerWidth : Q := 0.3.
Definition gravity : Q := 30.
Definition jumpVelocity : Q := 10.
Definition walkSpeed : Q := 5.
Definition runSpeed : Q := 8.

Definition withWorld (w : World) (g : Game) : Game :=
  mkGame w (chunks g) (scene g) (nextObjectId g) (disposeCalls g)
    (inventory g) (selectedBlock g) (selectedSlot g) (cameraPosition g)
    (velocity g) (canJump g) (isLocked g) (moveForward g) (moveBackward g)
    (moveLeft g) (moveRight g) (isRunning g).

Definition withRender (c : list (ChunkKey * Chunk)) (sc : list Mesh)
    (next disposed : nat) (g : Game) : Game :=
  mkGame (world g) c sc next disposed
    (inventory g) (selectedBlock g) (selectedSlot g) (cameraPosition g)
    (velocity g) (canJump g) (isLocked g) (moveForward g) (moveBackward g)
    (moveLeft g) (moveRight g) (isRunning g).

Definition withInventory (inv : Inventory) (g : Game) : Game :=
  mkGame (world g) (chunks g) (scene g) (nextObjectId g) (disposeCalls g)
    inv (selectedBlock g) (selectedSlot g) (cameraPosition g)
    (velocity g) (canJump g) (isLocked g) (moveForward g) (moveBackward g)
    (moveLeft g) (moveRight g) (isRunning g).

Definition withPlayer (pos vel : Vec3) (jump : bool) (g : Game) : Game :=
  mkGame (world g) (chunks g) (scene g) (nextObjectId g) (disposeCalls g)
    (inventory g) (selectedBlock g) (selectedSlot g) pos
    vel jump (isLocked g) (moveForward g) (moveBackward g)
    (moveLeft g) (moveRight g) (isRunning g).

(** ** Noise field, terrain and trees (game.js lines 383-447)

    [noise2D] is the function returned by [createNoise2D()] of the
    simplex-noise package and [normalize] is [THREE.Vector3.normalize];
    neither is part of this repository: they are parameters of the
    development. *)

Section Model.

Variable noise2D : Q → Q → Q.
Variable normalize : Vec3 → Vec3.

Local Coercion inject_Z : Z >-> Q.

Definition generateHeight (x z : Z) : Z :=
  let scale1 := 0.015%Q in
  let scale2 := 0.04%Q in
  let height := 0%Q in
  let height := (height + noise2D (x * scale1) (z * scale1) * 4)%Q in
  let height := (height + noise2D (x * scale2) (z * scale2) * 2)%Q in
  Qfloor (height + 10).

(** [x % 7 === 0] uses the truncating remainder of JavaScript. *)
Definition shouldPlaceTree (x z : Z) : bool :=
  let treeNoise := noise2D (x * 0.3 + 100)%Q (z * 0.3 + 100)%Q in
  let spacing := noise2D (x * 0.1)%Q (z * 0.1)%Q in
  Qltb 0.6 treeNoise && Qltb 0.3 spacing
    && (Z.rem x 7 =? 0) && (Z.rem z 7 =? 0).

Definition trunkHeightAt (x z : Z) : Z :=
  4 + Qfloor (noise2D (x * 10)%Q (z * 10)%Q * 2 + 1).

Definition generateTree (x y z : Z) (w : World) : World :=
  let trunkHeight := trunkHeightAt x z in
  let w :=
    forRange 0 trunkHeight (λ i, setBlock x (y + i)%Z z WOOD) w in
  let leafStart := y + trunkHeight - 2 in
  forRange leafStart (y + trunkHeight + 2) (λ ly,
    let radius := if ly <? y + trunkHeight then 2 else 1 in
    forRange (- radius) (radius + 1) (λ lx,
      forRange (- radius) (radius + 1) (λ lz w,
        if (Z.abs lx =? radius) && (Z.abs lz =? radius) then w
        else if (lx =? 0) && (lz =? 0) && (ly <? y + trunkHeight) then w
        else setBlock (x + lx)%Z ly (z + lz)%Z LEAVES w))) w.

(** The type chosen at line 411-418 for layer [y] of a column of the
    given height. *)
Definition strataBlockType (height y : Z) : BlockType :=
  if y =? height then GRASS
  else if height - 3 <? y then DIRT
  else STONE.

Definition generateChunkData (chunkX chunkZ : Z) (w : World) : World :=
  let startX := chunkX * CHUNK_SIZE in
  let startZ := chunkZ * CHUNK_SIZE in
  forRange 0 CHUNK_SIZE (λ x,
    forRange 0 CHUNK_SIZE (λ z w,
      let worldX := startX + x in
      let worldZ := startZ + z in
      let height := generateHeight worldX worldZ in
      let w :=
        forRange 0 (height + 1) (λ y,
          let blockType := strataBlockType height y in
          setBlock worldX y worldZ blockType) w in
      if shouldPlaceTree worldX worldZ && (5 <? height)
      then generateTree worldX (height + 1) worldZ w
      else w)) w.

(** ** ChunkMesher (game.js lines 449-509) *)

(** [blocksByType] is a JavaScript object keyed by block type;
    [Object.entries] lists integer-like keys in ascending numeric order. *)
Definition objectEntries {A : Type} (o : gmap BlockType A) : list (BlockType * A) :=
  omap (λ t, (λ v, (t, v)) <$> o !! t) [AIR; DIRT; GRASS; STONE; WOOD; LEAVES].

Definition hasExposedFace (wd : gmap BlockKey BlockType) (worldX y worldZ : Z) : bool :=
  bool_decide (getBlock wd (worldX + 1)%Z y worldZ = AIR) ||
  bool_decide (getBlock wd (worldX - 1)%Z y worldZ = AIR) ||
  bool_decide (getBlock wd worldX (y + 1)%Z worldZ = AIR) ||
  bool_decide (getBlock wd worldX (y - 1)%Z worldZ = AIR) ||
  bool_decide (getBlock wd worldX y (worldZ + 1)%Z = AIR) ||
  bool_decide (getBlock wd worldX y (worldZ - 1)%Z = AIR).

(** Lines 453-480: the scan that fills [blocksByType]. *)
Definition collectBlocks (wd : gmap BlockKey BlockType) (chunkX chunkZ : Z)
    : gmap BlockType (list BlockKey) :=
  let startX := chunkX * CHUNK_SIZE in
  let startZ := chunkZ * CHUNK_SIZE in
  forRange 0 CHUNK_SIZE (λ x,
    forRange 0 CHUNK_SIZE (λ z,
      forRange 0 CHUNK_HEIGHT (λ y blocksByType,
        let worldX := startX + x in
        let worldZ := startZ + z in
        let blockType := getBlock wd worldX y worldZ in
        if decide (blockType = AIR) then blocksByType
        else if negb (hasExposedFace wd worldX y worldZ) then blocksByType
        else
          let blocksByType :=
            match blocksByType !! blockType with
            | None => <[blockType := []]> blocksByType
            | Some _ => blocksByType
            end in
          alter (λ l, l ++ [(worldX, y, worldZ)]) blockType blocksByType)))
    ∅.

(** Lines 482-508: one instanced mesh per entry; each [new
    THREE.InstancedMesh] takes the next object id. *)
Definition buildChunkMesh (wd : gmap BlockKey BlockType) (chunkX chunkZ : Z)
    (nextId : nat) : list Mesh * nat :=
  let blocksByType := collectBlocks wd chunkX chunkZ in
  foldl (λ acc e,
           let '(meshes, id) := acc in
           let '(type, blocks) := e in
           if (length blocks =? 0)%nat then acc
           else (meshes ++ [mkMesh id chunkX chunkZ blocks type], S id))
        ([], nextId) (objectEntries blocksByType).

(** ** ChunkManager (game.js lines 511-581) *)

(** [meshes.forEach(mesh => this.scene.add(mesh))] *)
Definition sceneAddAll (ms : list Mesh) (scene : list Mesh) : list Mesh :=
  scene ++ ms.

(** [chunk.meshes.forEach(mesh => { this.scene.remove(mesh);
    mesh.geometry.dispose(); })] *)
Definition releaseMeshes (ms : list Mesh) (scene : list Mesh) (disposed : nat)
    : list Mesh * nat :=
  foldl (λ acc m, (sceneRemove m acc.1, S acc.2)) (scene, disposed) ms.

Definition generateChunk (chunkX chunkZ : Z) (g : Game) : Game :=
  let key := (chunkX, chunkZ) in
  if mapHas key (chunks g) then g
  else
    let w := generateChunkData chunkX chunkZ (world g) in
    let '(meshes, next) :=
      buildChunkMesh (worldData w) chunkX chunkZ (nextObjectId g) in
    withRender (mapSet key (mkChunk meshes chunkX chunkZ) (chunks g))
               (sceneAddAll meshes (scene g)) next (disposeCalls g)
               (withWorld w g).

Definition rebuildChunk (chunkX chunkZ : Z) (g : Game) : Game :=
  let key := (chunkX, chunkZ) in
  let '(scene1, disposed) :=
    match mapGet key (chunks g) with
    | Some chunk => releaseMeshes (meshes chunk) (scene g) (disposeCalls g)
    | None => (scene g, disposeCalls g)
    end in
  let '(meshes, next) :=
    buildChunkMesh (worldData (world g)) chunkX chunkZ (nextObjectId g) in
  withRender (mapSet key (mkChunk meshes chunkX chunkZ) (chunks g))
             (sceneAddAll meshes scene1) next disposed g.

Definition removeChunk (chunkX chunkZ : Z) (g : Game) : Game :=
  let key := (chunkX, chunkZ) in
  match mapGet key (chunks g) with
  | Some chunk =>
      let '(scene1, disposed) :=
        releaseMeshes (meshes chunk) (scene g) (disposeCalls g) in
      withRender (mapDelete key (chunks g)) scene1 (nextObjectId g) disposed g
  | None => g
  end.

Definition playerChunkOf (g : Game) : ChunkKey :=
  (Qfloor (vx (cameraPosition g) / CHUNK_SIZE),
   Qfloor (vz (cameraPosition g) / CHUNK_SIZE)).

(** Lines 566-574 with the render distance [r] in place of
    [RENDER_DISTANCE]: the needed set and the state after the calls of
    [generateChunk]. *)
Definition loadNeeded (r playerChunkX playerChunkZ : Z) (g : Game)
    : gset ChunkKey * Game :=
  forRange (- r) (r + 1) (λ x,
    forRange (- r) (r + 1) (λ z acc,
      let chunkX := playerChunkX + x in
      let chunkZ := playerChunkZ + z in
      ({[ (chunkX, chunkZ) ]} ∪ acc.1, generateChunk chunkX chunkZ acc.2)))
    (∅, g).

Definition updateChunksWithin (r : Z) (g : Game) : Game :=
  let '(playerChunkX, playerChunkZ) := playerChunkOf g in
  let '(neededChunks, g) := loadNeeded r playerChunkX playerChunkZ g in
  mapForEach chunks
    (λ chunk key g,
       if negb (bool_decide (key ∈ neededChunks))
       then removeChunk (chunkX chunk) (chunkZ chunk) g
       else g) g.

Definition updateChunks (g : Game) : Game :=
  updateChunksWithin RENDER_DISTANCE g.

(** ** Inventory (game.js lines 203-223)

    The DOM refresh [updateInventoryUI] has no effect on the game state. *)

Definition getSelectedBlockType (g : Game) : option BlockType :=
  slotToBlockType !! selectedSlot g.

(** [this.inventory[this.getSelectedBlockType()]] *)
Definition getSelectedBlockCount (g : Game) : option Z :=
  getSelectedBlockType g ≫= inventory g.

Definition inventorySet (blockType : BlockType) (v : option Z) (inv : Inventory)
    : Inventory :=
  λ t, if decide (t = blockType) then v else inv t.

(** [this.inventory[blockType] += count] *)
Definition addToInventory (blockType : BlockType) (count : Z) (inv : Inventory)
    : Inventory :=
  inventorySet blockType ((λ c, c + count) <$> inv blockType) inv.

(** Returns the inventory and the boolean result. *)
Definition removeFromInventory (blockType : BlockType) (count : Z) (inv : Inventory)
    : Inventory * bool :=
  match inv blockType with
  | Some c =>
      if count <=? c
      then (inventorySet blockType (Some (c - count)) inv, true)
      else (inv, false)
  | None => (inv, false)
  end.

(** An operation on the inventory adds or removes a number of blocks of
    one type: a natural number, like the default 1 of both functions. *)
Inductive InventoryOp :=
  | OpAdd (blockType : BlockType) (count : N)
  | OpRemove (blockType : BlockType) (count : N).

Definition runInventoryOp (inv : Inventory) (op : InventoryOp) : Inventory :=
  match op with
  | OpAdd t n => addToInventory t (Z.of_N n) inv
  | OpRemove t n => (removeFromInventory t (Z.of_N n) inv).1
  end.

Definition runInventoryOps (ops : list InventoryOp) (inv : Inventory) : Inventory :=
  foldl runInventoryOp inv ops.

(** ** Breaking and placing blocks (game.js lines 316-373) *)

Definition vecAdd (a b : Vec3) : Vec3 :=
  mkVec3 (vx a + vx b) (vy a + vy b) (vz a + vz b).

Definition addScalar (a : Vec3) (s : Q) : Vec3 :=
  mkVec3 (vx a + s) (vy a + s) (vz a + s).

Definition subScalar (a : Vec3) (s : Q) : Vec3 :=
  mkVec3 (vx a - s) (vy a - s) (vz a - s).

Definition addScaledVector (a v : Vec3) (s : Q) : Vec3 :=
  mkVec3 (vx a + vx v * s) (vy a + vy v * s) (vz a + vz v * s).

Definition boxesIntersect (min1 max1 min2 max2 : Vec3) : bool :=
  (Qle_bool (vx min1) (vx max2) && Qle_bool (vx min2) (vx max1)) &&
  (Qle_bool (vy min1) (vy max2) && Qle_bool (vy min2) (vy max1)) &&
  (Qle_bool (vz min1) (vz max2) && Qle_bool (vz min2) (vz max1)).

Definition chunkOfPos (pos : Vec3) : ChunkKey :=
  (Qfloor (vx pos / CHUNK_SIZE), Qfloor (vz pos / CHUNK_SIZE)).

(** The sound played at lines 330-331 is outside the state. *)
Definition breakBlock (g : Game) : Game :=
  match selectedBlock g with
  | None => g
  | Some sel =>
      let pos := position sel in
      let blockType := type sel in
      let g := withWorld (setBlock (vx pos) (vy pos) (vz pos) AIR (world g)) g in
      let g := withInventory (addToInventory blockType 1 (inventory g)) g in
      let '(chunkX, chunkZ) := chunkOfPos pos in
      rebuildChunk chunkX chunkZ g
  end.

(** Lines 352-353: the player's bounding volume around the camera. *)
Definition playerMinAt (playerPos : Vec3) : Vec3 :=
  mkVec3 (vx playerPos - playerWidth)
         (vy playerPos - playerHeight)
         (vz playerPos - playerWidth).

Definition playerMaxAt (playerPos : Vec3) : Vec3 :=
  mkVec3 (vx playerPos + playerWidth)
         (vy playerPos + 0.2)
         (vz playerPos + playerWidth).

(** [intersects] is the result of the raycast of line 341.  When the
    selected slot has no block type ([undefined]), the count is
    [undefined] too: the test of line 338 lets the call go on ([undefined
    <= 0] is false) and [removeFromInventory] answers [false] at line
    359. *)
Definition placeBlock (intersects : list Intersection) (g : Game) : Game :=
  match selectedBlock g with
  | None => g
  | Some sel =>
      let blockType := getSelectedBlockType g in
      if match getSelectedBlockCount g with
         | Some c => c <=? 0
         | None => false
         end
      then g
      else
        match intersects with
        | [] => g
        | intersect :: _ =>
            let normal := faceNormal intersect in
            let pos := vecAdd (position sel) normal in
            let playerPos := cameraPosition g in
            let blockMin := subScalar pos 0.5 in
            let blockMax := addScalar pos 0.5 in
            let playerMin := playerMinAt playerPos in
            let playerMax := playerMaxAt playerPos in
            if boxesIntersect blockMin blockMax playerMin playerMax then g
            else
              match blockType with
              | None => g
              | Some blockType =>
                  let '(inv, removed) :=
                    removeFromInventory blockType 1 (inventory g) in
                  if removed then
                    let g := withInventory inv g in
                    let g :=
                      withWorld
                        (setBlock (vx pos) (vy pos) (vz pos) blockType (world g))
                        g in
                    let '(chunkX, chunkZ) := chunkOfPos pos in
                    rebuildChunk chunkX chunkZ g
                  else g
              end
        end
  end.

(** ** Collision and the physics step (game.js lines 617-691) *)

(** The [positions] array of lines 618-627: four corners at the camera
    height [y] and four at the feet, [playerHeight] below. *)
Definition cornerPositions (x y z : Q) : list (Q * Q * Q) :=
  [ (x - playerWidth, y, z - playerWidth);
    (x + playerWidth, y, z - playerWidth);
    (x - playerWidth, y, z + playerWidth);
    (x + playerWidth, y, z + playerWidth);
    (x - playerWidth, y - playerHeight, z - playerWidth);
    (x + playerWidth, y - playerHeight, z - playerWidth);
    (x - playerWidth, y - playerHeight, z + playerWidth);
    (x + playerWidth, y - playerHeight, z + playerWidth) ]%Q.

Definition cornerBlocked (wd : gmap BlockKey BlockType) (pos : Q * Q * Q) : bool :=
  negb (bool_decide
          (getBlock wd (Math_floor pos.1.1) (Math_floor pos.1.2) (Math_floor pos.2)
           = AIR)).

Definition checkCollision (wd : gmap BlockKey BlockType) (x y z : Q) : bool :=
  existsb (cornerBlocked wd) (cornerPositions x y z).

(** Line 640: the vertical velocity after gravity has been applied. *)
Definition velocityAfterGravity (delta : Q) (g : Game) : Q :=
  (vy (velocity g) - gravity * delta)%Q.

(** Lines 642-657; [worldDirection] is the vector that
    [camera.getWorldDirection] writes into [forward]. *)
Definition moveVector (worldDirection : Vec3) (g : Game) : Vec3 :=
  let forward := normalize (mkVec3 (vx worldDirection) 0 (vz worldDirection)) in
  let right := normalize (mkVec3 (- vz forward) 0 (vx forward)) in
  let speed := if isRunning g then runSpeed else walkSpeed in
  let moveVec := mkVec3 0 0 0 in
  let moveVec :=
    if moveForward g then addScaledVector moveVec forward speed else moveVec in
  let moveVec :=
    if moveBackward g then addScaledVector moveVec forward (- speed) else moveVec in
  let moveVec :=
    if moveRight g then addScaledVector moveVec right speed else moveVec in
  if moveLeft g then addScaledVector moveVec right (- speed) else moveVec.

(** Lines 659-674: the camera x and z after the two horizontal tests. *)
Definition resolveHorizontal (delta : Q) (worldDirection : Vec3) (g : Game) : Q * Q :=
  let wd := worldData (world g) in
  let moveVec := moveVector worldDirection g in
  let pos := cameraPosition g in
  let moveX := (vx moveVec * delta)%Q in
  let moveZ := (vz moveVec * delta)%Q in
  let newX := (vx pos + moveX)%Q in
  let newZ := (vz pos + moveZ)%Q in
  let camX := if negb (checkCollision wd newX (vy pos) (vz pos)) then newX else vx pos in
  let camZ := if negb (checkCollision wd camX (vy pos) newZ) then newZ else vz pos in
  (camX, camZ).

(** Line 666: [newY]. *)
Definition candidateY (delta : Q) (g : Game) : Q :=
  (vy (cameraPosition g) + velocityAfterGravity delta g * delta)%Q.

(** Line 681: [groundY]. *)
Definition groundYFor (newY : Q) : Q :=
  (Math_floor (newY - playerHeight) + 1 + playerHeight)%Q.

(** The [Space] case of [onKeyDown] (lines 263-268). *)
Definition onSpaceDown (g : Game) : Game :=
  if canJump g
  then withPlayer (cameraPosition g)
         (mkVec3 (vx (velocity g)) jumpVelocity (vz (velocity g))) false g
  else g.

Definition updatePlayer (delta : Q) (worldDirection : Vec3) (g : Game) : Game :=
  if negb (isLocked g) then g
  else
    let wd := worldData (world g) in
    let velY := velocityAfterGravity delta g in
    let pos := cameraPosition g in
    let '(camX, camZ) := resolveHorizontal delta worldDirection g in
    let newY := candidateY delta g in
    let '(camY, velY, jump) :=
      if negb (checkCollision wd camX newY camZ) then (newY, velY, canJump g)
      else
        let '(camY, jump) :=
          if Qltb velY 0 then (groundYFor newY, true)
          else (vy pos, canJump g) in
        (camY, 0%Q, jump) in
    if Qltb camY (-50)
    then withPlayer (mkVec3 0 20 0) (mkVec3 0 0 0) jump g
    else withPlayer (mkVec3 camX camY camZ)
                    (mkVec3 (vx (velocity g)) velY (vz (velocity g))) jump g.

(** ** Input events (game.js lines 197-201 and 246-296)

    The handlers change the fields of the game; the hotbar highlight of
    [selectSlot] is in the DOM, outside the state. *)

Definition withSelectedSlot (slot : nat) (g : Game) : Game :=
  mkGame (world g) (chunks g) (scene g) (nextObjectId g) (disposeCalls g)
    (inventory g) (selectedBlock g) slot (cameraPosition g)
    (velocity g) (canJump g) (isLocked g) (moveForward g) (moveBackward g)
    (moveLeft g) (moveRight g) (isRunning g).

Definition withSelectedBlock (sel : option SelectedBlock) (g : Game) : Game :=
  mkGame (world g) (chunks g) (scene g) (nextObjectId g) (disposeCalls g)
    (inventory g) sel (selectedSlot g) (cameraPosition g)
    (velocity g) (canJump g) (isLocked g) (moveForward g) (moveBackward g)
    (moveLeft g) (moveRight g) (isRunning g).

Definition withMovement (forward backward left right running : bool) (g : Game)
    : Game :=
  mkGame (world g) (chunks g) (scene g) (nextObjectId g) (disposeCalls g)
    (inventory g) (selectedBlock g) (selectedSlot g) (cameraPosition g)
    (velocity g) (canJump g) (isLocked g) forward backward left right running.

Definition selectSlot (index : nat) (g : Game) : Game :=
  withSelectedSlot index g.

(** [%] is the remainder of JavaScript; both dividends are positive. *)
Definition onMouseWheel (deltaY : Q) (g : Game) : Game :=
  if negb (isLocked g) then g
  else
    let slot :=
      if Qltb 0 deltaY
      then Z.rem (Z.of_nat (selectedSlot g) + 1) 5
      else Z.rem (Z.of_nat (selectedSlot g) - 1 + 5) 5 in
    let g := withSelectedSlot (Z.to_nat slot) g in
    selectSlot (selectedSlot g) g.

(** The values of [event.code] that the two key handlers name;
    [OtherKey] is any other string. *)
Inductive KeyCode :=
  | KeyW | KeyS | KeyA | KeyD | Space | ShiftLeft
  | Digit1 | Digit2 | Digit3 | Digit4 | Digit5
  | OtherKey.

Definition onKeyDown (code : KeyCode) (g : Game) : Game :=
  match code with
  | KeyW =>
      withMovement true (moveBackward g) (moveLeft g) (moveRight g) (isRunning g) g
  | KeyS =>
      withMovement (moveForward g) true (moveLeft g) (moveRight g) (isRunning g) g
  | KeyA =>
      withMovement (moveForward g) (moveBackward g) true (moveRight g) (isRunning g) g
  | KeyD =>
      withMovement (moveForward g) (moveBackward g) (moveLeft g) true (isRunning g) g
  | Space => onSpaceDown g
  | ShiftLeft =>
      withMovement (moveForward g) (moveBackward g) (moveLeft g) (moveRight g) true g
  | Digit1 => selectSlot 0 g
  | Digit2 => selectSlot 1 g
  | Digit3 => selectSlot 2 g
  | Digit4 => selectSlot 3 g
  | Digit5 => selectSlot 4 g
  | OtherKey => g
  end.

Definition onKeyUp (code : KeyCode) (g : Game) : Game :=
  match code with
  | KeyW =>
      withMovement false (moveBackward g) (moveLeft g) (moveRight g) (isRunning g) g
  | KeyS =>
      withMovement (moveForward g) false (moveLeft g) (moveRight g) (isRunning g) g
  | KeyA =>
      withMovement (moveForward g) (moveBackward g) false (moveRight g) (isRunning g) g
  | KeyD =>
      withMovement (moveForward g) (moveBackward g) (moveLeft g) false (isRunning g) g
  | ShiftLeft =>
      withMovement (moveForward g) (moveBackward g) (moveLeft g) (moveRight g) false g
  | _ => g
  end.

(** [intersects] is the raycast result that [placeBlock] obtains. *)
Definition onMouseDown (button : Z) (intersects : list Intersection) (g : Game)
    : Game :=
  if negb (isLocked g) then g
  else if button =? 0 then breakBlock g
  else if button =? 2 then placeBlock intersects g
  else g.

(** ** The meshes of the loaded chunks (game.js lines 375-381) *)

Definition getChunkMeshes (g : Game) : list Mesh :=
  foldl (λ acc e, foldl (λ acc mesh, acc ++ [mesh]) acc (meshes e.2))
        [] (chunks g).

(** ** The chunks of the first frame (game.js lines 551-560) *)

Definition generateInitialChunks (g : Game) : Game :=
  let playerChunkX := Qfloor (vx (cameraPosition g) / CHUNK_SIZE) in
  let playerChunkZ := Qfloor (vz (cameraPosition g) / CHUNK_SIZE) in
  forRange (- RENDER_DISTANCE) (RENDER_DISTANCE + 1) (λ x,
    forRange (- RENDER_DISTANCE) (RENDER_DISTANCE + 1) (λ z,
      generateChunk (playerChunkX + x) (playerChunkZ + z))) g.

(** ** The block aimed at (game.js lines 583-615)

    The part of a raycaster intersection that [updateSelection] reads:
    the index of the instance that was hit ([undefined] for an object that
    is not instanced) and the mesh.  Every mesh given to the raycaster
    comes from [getChunkMeshes], so [userData.blocks] is an array.  The
    visibility and position of the selection outline are outside the
    state. *)
Record RayHit := mkRayHit {
  instanceId : option nat;
  object : Mesh
}.

Definition updateSelection (intersects : list RayHit) (g : Game) : Game :=
  if negb (isLocked g) then g
  else
    match intersects with
    | intersect :: _ =>
        let mesh := object intersect in
        match instanceId intersect with
        | Some instanceId =>
            match (blocks mesh !! instanceId : option BlockKey) with
            | Some block =>
                let '(x, y, z) := block in
                withSelectedBlock
                  (Some (mkSelectedBlock (mkVec3 x y z) (meshBlockType mesh))) g
            | None => withSelectedBlock None g
            end
        | None => withSelectedBlock None g
        end
    | [] => withSelectedBlock None g
    end.

(** ** One frame (game.js lines 708-721)

    [time] is the clock reading of the frame and [prevTime] that of the
    frame before; [worldDirection] and [intersects] are what the camera
    and the raycaster answer during the frame.  The debug text and the
    rendering are outside the state. *)
Definition frameDelta (time prevTime : Q) : Q :=
  let elapsed := ((time - prevTime) / 1000)%Q in
  if Qle_bool elapsed 0.1 then elapsed else 0.1%Q.

Definition animate (time prevTime : Q) (worldDirection : Vec3)
    (intersects : list RayHit) (g : Game) : Game :=
  let delta := frameDelta time prevTime in
  let g := updatePlayer delta worldDirection g in
  let g := updateChunks g in
  updateSelection intersects g.

End Model.

(** * Predicates used by the statements *)

(** No entry of the world mapping holds [AIR]. *)
Definition noAirEntry (wd : gmap BlockKey BlockType) : Prop :=
  ∀ k, wd !! k ≠ Some AIR.

(** Every count of the inventory is at least 0. *)
Definition nonNegativeCounts (inv : Inventory) : Prop :=
  ∀ t c, inv t = Some c → 0 ≤ c.

(** The four corner points at the feet. *)
Definition feetCorners (x y z : Q) : list (Q * Q * Q) :=
  drop 4 (cornerPositions x y z).

(** Block [b] obstructs one of the given corner points: the point lies in
    the cell [b] and the cell is not [AIR]. *)
Definition obstructsAt (wd : gmap BlockKey BlockType)
    (corners : list (Q * Q * Q)) (b : BlockKey) : Prop :=
  ∃ pos, pos ∈ corners ∧ cornerBlocked wd pos = true ∧
         b = getBlockKey pos.1.1 pos.1.2 pos.2.

(** A camera at height [camY] stands exactly on block [b]: the feet,
    [playerHeight] below the camera, are on the top face of the cell. *)
Definition standsOn (camY : Q) (b : BlockKey) : Prop :=
  (camY == inject_Z (b.1.2 + 1) + playerHeight)%Q.

(** The cell with origin [pos] is the unit cube from [pos] to [pos + 1]
    on each axis (the mesher draws it centred at [pos + 0.5], and
    [checkCollision] finds it by flooring).  It overlaps the player's
    bounding volume when the two boxes share a point. *)
Definition cellOverlapsPlayer (pos : Vec3) (playerPos : Vec3) : bool :=
  boxesIntersect pos (addScalar pos 1) (playerMinAt playerPos) (playerMaxAt playerPos).

(** Every entry of the chunk table sits under the key of its own
    coordinates, as [generateChunk] and [rebuildChunk] store it. *)
Definition chunksWellFormed (m : list (ChunkKey * Chunk)) : Prop :=
  ∀ k c, mapGet k m = Some c → k = (chunkX c, chunkZ c).

(** ** The two phases of [updateChunks] as folds *)

(** The offsets visited by the two loops of lines 567-568. *)
Definition squareOffsets (r : Z) : list (Z * Z) :=
  x ← seqZ (- r) (r + 1 - - r); (λ z, (x, z)) <$> seqZ (- r) (r + 1 - - r).

(** The body of the two loops of lines 567-574, on the pair of the needed
    set and the game. *)
Definition loadStep (noise2D : Q → Q → Q) (cx cz : Z)
    (acc : gset ChunkKey * Game) (p : Z * Z) : gset ChunkKey * Game :=
  ({[ (cx + p.1, cz + p.2) ]} ∪ acc.1,
   generateChunk noise2D (cx + p.1) (cz + p.2) acc.2).

(** One turn of the callback of lines 576-580. *)
Definition unloadStep (needed : gset ChunkKey) (acc : Game) (e : ChunkKey * Chunk) : Game :=
  match mapGet e.1 (chunks acc) with
  | Some chunk =>
      if negb (bool_decide (e.1 ∈ needed))
      then removeChunk (chunkX chunk) (chunkZ chunk) acc
      else acc
  | None => acc
  end.

(** ** The calls of [setBlock] made by the generator

    The generator never reads the world: what it does to a world is to
    make a fixed list of [setBlock] calls, in order.  The lists below are
    written after the loops of [generateTree] and [generateChunkData]; the
    lemmas [generateTree_writes] and [generateChunkData_writes] show that
    they are the calls the code makes. *)

Definition applyCall (wd : gmap BlockKey BlockType) (c : SetBlockCall)
    : gmap BlockKey BlockType :=
  if decide (c.2 = AIR) then delete c.1 wd else <[c.1 := c.2]> wd.

Definition applyCalls (calls : list SetBlockCall) (w : World) : World :=
  mkWorld (foldl applyCall (worldData w) calls) (setBlockCalls w ++ calls).

(** [f] makes exactly the calls [calls], whatever the world. *)
Definition Writes (f : World → World) (calls : list SetBlockCall) : Prop :=
  ∀ w, f w = applyCalls calls w.

(** The calls made between world [w] and the later world [w']. *)
Definition newCalls (w w' : World) : list SetBlockCall :=
  drop (length (setBlockCalls w)) (setBlockCalls w').

Definition leafRadius (trunkTop ly : Z) : Z :=
  if ly <? trunkTop then 2 else 1.

Definition leafCallsAt (x y z trunkHeight ly lx lz : Z) : list SetBlockCall :=
  let radius := leafRadius (y + trunkHeight) ly in
  if (Z.abs lx =? radius) && (Z.abs lz =? radius) then []
  else if (lx =? 0) && (lz =? 0) && (ly <? y + trunkHeight) then []
  else [((x + lx, ly, z + lz), LEAVES)].

Definition treeCalls (noise2D : Q → Q → Q) (x y z : Z) : list SetBlockCall :=
  let trunkHeight := trunkHeightAt noise2D x z in
  ((λ i, ((x, y + i, z), WOOD)) <$> seqZ 0 (trunkHeight - 0)) ++
  (ly ← seqZ (y + trunkHeight - 2) (y + trunkHeight + 2 - (y + trunkHeight - 2));
   lx ← seqZ (- leafRadius (y + trunkHeight) ly)
             (leafRadius (y + trunkHeight) ly + 1 - - leafRadius (y + trunkHeight) ly);
   lz ← seqZ (- leafRadius (y + trunkHeight) ly)
             (leafRadius (y + trunkHeight) ly + 1 - - leafRadius (y + trunkHeight) ly);
   leafCallsAt x y z trunkHeight ly lx lz).

Definition strataCalls (worldX worldZ height : Z) : list SetBlockCall :=
  (λ y, ((worldX, y, worldZ), strataBlockType height y)) <$> seqZ 0 (height + 1 - 0).

Definition columnCalls (noise2D : Q → Q → Q) (worldX worldZ : Z) : list SetBlockCall :=
  let height := generateHeight noise2D worldX worldZ in
  strataCalls worldX worldZ height ++
  (if shouldPlaceTree noise2D worldX worldZ && (5 <? height)
   then treeCalls noise2D worldX (height + 1) worldZ
   else []).

Definition chunkCalls (noise2D : Q → Q → Q) (chunkX chunkZ : Z) : list SetBlockCall :=
  x ← seqZ 0 (CHUNK_SIZE - 0);
  z ← seqZ 0 (CHUNK_SIZE - 0);
  columnCalls noise2D (chunkX * CHUNK_SIZE + x) (chunkZ * CHUNK_SIZE + z).

(** Cell [k] is one of the [trunkHeight] cells stacked from the root
    [(x, y, z)]. *)
Definition trunkCell (x y z trunkHeight : Z) (k : BlockKey) : Prop :=
  ∃ i, 0 ≤ i < trunkHeight ∧ k = (x, y + i, z).

(** Cell [k] lies in a leaf layer [ly], from [y + trunkHeight - 2] up to
    but not including [y + trunkHeight + 2], at an offset [(lx, lz)]
    within the radius of the layer (2 below the trunk top [y +
    trunkHeight], 1 from there on), which is not one of the four corners
    and not the centre column within trunk height. *)
Definition leafCell (x y z trunkHeight : Z) (k : BlockKey) : Prop :=
  ∃ ly lx lz radius,
    y + trunkHeight - 2 ≤ ly < y + trunkHeight + 2 ∧
    (ly < y + trunkHeight → radius = 2) ∧
    (y + trunkHeight ≤ ly → radius = 1) ∧
    - radius ≤ lx ≤ radius ∧ - radius ≤ lz ≤ radius ∧
    ¬ (Z.abs lx = radius ∧ Z.abs lz = radius) ∧
    ¬ (lx = 0 ∧ lz = 0 ∧ ly < y + trunkHeight) ∧
    k = (x + lx, ly, z + lz).

(** ** The scan of the mesher

    The cells of a chunk in the order of the three loops of lines 455-457,
    and the body of the loops on one cell. *)

Definition chunkCells (chunkX chunkZ : Z) : list BlockKey :=
  x ← seqZ 0 (CHUNK_SIZE - 0);
  z ← seqZ 0 (CHUNK_SIZE - 0);
  (λ y, (chunkX * CHUNK_SIZE + x, y, chunkZ * CHUNK_SIZE + z))
    <$> seqZ 0 (CHUNK_HEIGHT - 0).

Definition meshStep (wd : gmap BlockKey BlockType)
    (blocksByType : gmap BlockType (list BlockKey)) (cell : BlockKey)
    : gmap BlockType (list BlockKey) :=
  let '(worldX, y, worldZ) := cell in
  let blockType := getBlock wd (inject_Z worldX) (inject_Z y) (inject_Z worldZ) in
  if decide (blockType = AIR) then blocksByType
  else if negb (hasExposedFace wd worldX y worldZ) then blocksByType
  else
    let blocksByType :=
      match blocksByType !! blockType with
      | None => <[blockType := []]> blocksByType
      | Some _ => blocksByType
      end in
    alter (λ l, l ++ [(worldX, y, worldZ)]) blockType blocksByType.

(** The cell is pushed on the list of type [t]. *)
Definition shownAs (wd : gmap BlockKey BlockType) (t : BlockType) (cell : BlockKey)
    : Prop :=
  getBlock wd (inject_Z cell.1.1) (inject_Z cell.1.2) (inject_Z cell.2) = t ∧
  t ≠ AIR ∧
  hasExposedFace wd cell.1.1 cell.1.2 cell.2 = true.

#[global] Instance shownAs_dec wd t cell : Decision (shownAs wd t cell).
Proof. unfold shownAs. apply _. Defined.

(** The key and the list of a batch. *)
Definition batchEntry (m : Mesh) : BlockType * list BlockKey :=
  (meshBlockType m, blocks m).

(** Lines 484-506 on one entry of [blocksByType]. *)
Definition meshOfEntry (chunkX chunkZ : Z) (acc : list Mesh * nat)
    (e : BlockType * list BlockKey) : list Mesh * nat :=
  let '(meshes, id) := acc in
  let '(type, blocks) := e in
  if (length blocks =? 0)%nat then acc
  else (meshes ++ [mkMesh id chunkX chunkZ blocks type], S id).

(** At least one of the six face-adjacent neighbours resolves to [AIR]. *)
Definition hasAirNeighbour (wd : gmap BlockKey BlockType) (x y z : Z) : Prop :=
  getBlock wd (inject_Z (x + 1)) (inject_Z y) (inject_Z z) = AIR ∨
  getBlock wd (inject_Z (x - 1)) (inject_Z y) (inject_Z z) = AIR ∨
  getBlock wd (inject_Z x) (inject_Z (y + 1)) (inject_Z z) = AIR ∨
  getBlock wd (inject_Z x) (inject_Z (y - 1)) (inject_Z z) = AIR ∨
  getBlock wd (inject_Z x) (inject_Z y) (inject_Z (z + 1)) = AIR ∨
  getBlock wd (inject_Z x) (inject_Z y) (inject_Z (z - 1)) = AIR.

(** How many times a cell is listed in the batches. *)
Definition occurrences (cell : BlockKey) (batches : list Mesh) : nat :=
  length (filter (λ c, c = cell) (batches ≫= blocks)).

(** * Predicates of the invariants and of the generator bounds *)

(** The noise field stays within [-1, 1], the range of simplex noise. *)
Definition noiseBounded (noise2D : Q → Q → Q) : Prop :=
  ∀ a b, (-1 <= noise2D a b ∧ noise2D a b <= 1)%Q.

(** The body of the two loops of lines 555-559 (and of the calls of
    [generateChunk] of lines 567-573), on the game. *)
Definition generateStep (noise2D : Q → Q → Q) (cx cz : Z) (acc : Game) (p : Z * Z)
    : Game :=
  generateChunk noise2D (cx + p.1) (cz + p.2) acc.

(** ** The render state

    The meshes of a chunk table, chunk by chunk in the order of the
    table: what [getChunkMeshes] collects. *)
Definition chunkMeshes (cs : list (ChunkKey * Chunk)) : list Mesh :=
  cs ≫= (λ e, meshes e.2).

(** The scene and the chunk table agree: the keys of the table are
    pairwise different (it is a [Map]), no two meshes of the scene share
    an id, the scene holds the meshes of the loaded chunks, each once, and
    nothing else, and every id in use is below the next id to be given.
    ([scene] lists the instanced meshes among the children of the
    three.js scene; the lights, the selection outline and the camera rig
    are added once at start-up and never removed.) *)
Definition renderOK (cs : list (ChunkKey * Chunk)) (sc : list Mesh) (next : nat)
    : Prop :=
  NoDup cs.*1 ∧
  NoDup (meshId <$> sc) ∧
  sc ≡ₚ chunkMeshes cs ∧
  ∀ m, m ∈ sc → (meshId m < next)%nat.

(** The same of a game, with the meshes that [getChunkMeshes] collects. *)
Definition renderConsistent (g : Game) : Prop :=
  NoDup (chunks g).*1 ∧
  NoDup (meshId <$> scene g) ∧
  scene g ≡ₚ getChunkMeshes g ∧
  ∀ m, m ∈ scene g → (meshId m < nextObjectId g)%nat.

(** Every mesh built so far is in the scene or was disposed of. *)
Definition meshesAccounted (g : Game) : Prop :=
  nextObjectId g = (disposeCalls g + length (scene g))%nat.

(** Between [g] and [g'], as many meshes were built as were disposed of
    or added to the scene. *)
Definition meshBalance (g g' : Game) : Prop :=
  (nextObjectId g' + disposeCalls g + length (scene g) =
   nextObjectId g + disposeCalls g' + length (scene g'))%nat.

(** An operation that keeps the render state consistent and balanced. *)
Definition rendersFrom (g g' : Game) : Prop :=
  renderConsistent g → renderConsistent g' ∧ meshBalance g g'.

(** ** Boxes

    Point [p] lies in the closed box from [lo] to [hi]. *)
Definition inBox (lo hi p : Vec3) : Prop :=
  (vx lo <= vx p ∧ vx p <= vx hi ∧
   vy lo <= vy p ∧ vy p <= vy hi ∧
   vz lo <= vz p ∧ vz p <= vz hi)%Q.

(** The larger of two numbers. *)
Definition Qlarger (a b : Q) : Q := if Qle_bool a b then b else a.

(** * Example data for the concrete instances *)

Definition flatNoise : Q → Q → Q := λ _ _, 0%Q.

Definition keepVector : Vec3 → Vec3 := λ v, v.

(** A noise field that is 1 everywhere: the ground is raised to height
    16 and a tree stands wherever both coordinates are multiples of 7. *)
Definition treeNoise : Q → Q → Q := λ _ _, 1%Q.

(** The state built by the constructor, before any chunk is generated,
    with the pointer locked. *)
Definition newGame : Game :=
  mkGame emptyWorld [] [] 0 0 initialInventory None 0
    (mkVec3 0 20 0) (mkVec3 0 0 0) false true false false false false false.

(** A game with one stone block at the origin cell and its chunk (0,0)
    loaded with the one mesh that shows it. *)
Definition stoneMesh : Mesh := mkMesh 0 0 0 [(0, 0, 0)] STONE.

Definition stoneChunk : Chunk := mkChunk [stoneMesh] 0 0.

Definition oneBlockGame : Game :=
  mkGame (mkWorld {[ (0, 0, 0) := STONE ]} [(0, 0, 0, STONE)])
    [((0, 0), stoneChunk)] [stoneMesh] 1 0 initialInventory None 0
    (mkVec3 0 20 0) (mkVec3 0 0 0) false true false false false false false.

(** A player in mid-air whose body overlaps a single floating block at
    cell (0,1,0): the feet are in cell (0,0,0) and the head in (0,2,0). *)
Definition headHitGame : Game :=
  mkGame (mkWorld {[ (0, 1, 0) := STONE ]} [(0, 1, 0, STONE)])
    [] [] 0 0 initialInventory None 0
    (mkVec3 0.5 2.25 0.5) (mkVec3 0 0 0) false true false false false false false.

(** A player just above a one-block floor at cell (0,0,0). *)
Definition landingGame : Game :=
  mkGame (mkWorld {[ (0, 0, 0) := STONE ]} [(0, 0, 0, STONE)])
    [] [] 0 0 initialInventory None 0
    (mkVec3 0.5 2.9 0.5) (mkVec3 0 0 0) false true false false false false false.

(** A 3 x 2 floor at height 17 with the player standing on it (feet at
    18.0), one Dirt block in the inventory, slot 0 (Dirt) selected and the
    floor block at cell (0,17,0) aimed at from above. *)
Definition floorWorld : World :=
  mkWorld {[ (-1, 17, 0) := STONE; (0, 17, 0) := STONE; (1, 17, 0) := STONE;
             (-1, 17, 1) := STONE; (0, 17, 1) := STONE; (1, 17, 1) := STONE ]} [].

Definition oneDirt : Inventory :=
  λ t, match t with AIR => None | DIRT => Some 1 | _ => Some 0 end.

Definition placementGame (camera : Vec3) : Game :=
  mkGame floorWorld [] [] 0 0 oneDirt
    (Some (mkSelectedBlock (mkVec3 0 17 0) STONE)) 0
    camera (mkVec3 0 0 0) true true false false false false false.

Definition hitFromAbove : list Intersection := [mkIntersection (mkVec3 0 1 0)].

(** Chunk (0,0) generated over [treeNoise] (ground height 16, a tree
    rooted at (0,17,0) with leaves from layer 22 on), where the player
    then put a Dirt block in place of the leaf block at (2,22,0). *)
Definition dirtInTreeGame : Game :=
  let g := generateChunk treeNoise 0 0 newGame in
  withWorld (setBlock 2 22 0 DIRT (world g)) g.

(** [oneBlockGame] with its one block aimed at. *)
Definition aimedGame : Game :=
  withSelectedBlock (Some (mkSelectedBlock (mkVec3 0 0 0) STONE)) oneBlockGame.

(** [oneBlockGame] without the pointer lock. *)
Definition pausedGame : Game :=
  mkGame (world oneBlockGame) (chunks oneBlockGame) (scene oneBlockGame) 1 0
    initialInventory None 0 (mkVec3 0 20 0) (mkVec3 0 0 0)
    false false false false false false false.

(** * VoxelStore *)

Lemma getBlockKey_floor (x y z : Q) :
  getBlockKey (Math_floor x) (Math_floor y) (Math_floor z) = getBlockKey x y z.
Proof. unfold getBlockKey, Math_floor. by rewrite !Qfloor_Z. Qed.

Lemma worldData_setBlock (x y z : Q) (t : BlockType) (w : World) :
  worldData (setBlock x y z t w) =
  if decide (t = AIR) then delete (getBlockKey x y z) (worldData w)
  else <[getBlockKey x y z := t]> (worldData w).
Proof. unfold setBlock. by rewrite getBlockKey_floor. Qed.

Lemma setBlock_noAirEntry (x y z : Q) (t : BlockType) (w : World) :
  noAirEntry (worldData w) → noAirEntry (worldData (setBlock x y z t w)).
Proof.
  intros Hw k. rewrite worldData_setBlock.
  destruct (decide (t = AIR)) as [->|Ht].
  - destruct (decide (getBlockKey x y z = k)) as [->|Hk].
    + by rewrite lookup_delete_eq.
    + rewrite lookup_delete_ne; [apply Hw | done].
  - destruct (decide (getBlockKey x y z = k)) as [->|Hk].
    + rewrite lookup_insert_eq. congruence.
    + rewrite lookup_insert_ne; [apply Hw | done].
Qed.

Lemma runSetBlocks_noAirEntry (calls : list (Q * Q * Q * BlockType)) (w : World) :
  noAirEntry (worldData w) → noAirEntry (worldData (runSetBlocks calls w)).
Proof.
  revert w. induction calls as [|[[[x y] z] t] calls IH]; intros w Hw; [done|].
  apply IH, setBlock_noAirEntry, Hw.
Qed.

Lemma emptyWorld_noAirEntry : noAirEntry (worldData emptyWorld).
Proof. intros k. simpl. by rewrite lookup_empty. Qed.

Lemma getBlock_no_entry (wd : gmap BlockKey BlockType) (x y z : Q) :
  wd !! getBlockKey x y z = None → getBlock wd x y z = AIR.
Proof. unfold getBlock. by intros ->. Qed.

(** C1.  Starting from a world mapping without an [AIR] entry (the empty
    [Map] of the constructor is one), after any sequence of [setBlock]
    calls no entry of the mapping holds [AIR]; a further [setBlock] with
    type [AIR] leaves no entry at the addressed cell; and [getBlock] on a
    coordinate that has no entry returns [AIR]. *)
Theorem C1_voxel_store_invariant
    (w0 : World) (calls : list (Q * Q * Q * BlockType)) :
  noAirEntry (worldData w0) →
  let w := runSetBlocks calls w0 in
  (∀ k, worldData w !! k ≠ Some AIR) ∧
  (∀ x y z, worldData (setBlock x y z AIR w) !! getBlockKey x y z = None) ∧
  (∀ x y z, worldData w !! getBlockKey x y z = None →
            getBlock (worldData w) x y z = AIR).
Proof.
  intros Hw0 w. split; [|split].
  - by apply runSetBlocks_noAirEntry.
  - intros x y z. rewrite worldData_setBlock. simpl. apply lookup_delete_eq.
  - intros x y z. apply getBlock_no_entry.
Qed.

Lemma C1_voxel_store_invariant_witness :
  noAirEntry (worldData emptyWorld) ∧
  (let w := runSetBlocks [(0.5, 3, -1.5, STONE); (0.5, 3, -1.5, AIR);
                          (2, 0, 2, GRASS)]%Q emptyWorld in
   (∀ k, worldData w !! k ≠ Some AIR) ∧
   (∀ x y z, worldData (setBlock x y z AIR w) !! getBlockKey x y z = None) ∧
   (∀ x y z, worldData w !! getBlockKey x y z = None →
             getBlock (worldData w) x y z = AIR)).
Proof.
  split.
  - exact emptyWorld_noAirEntry.
  - exact (C1_voxel_store_invariant emptyWorld _ emptyWorld_noAirEntry).
Defined.

(** * Inventory *)

Lemma inventorySet_eq (t : BlockType) (v : option Z) (inv : Inventory) :
  inventorySet t v inv t = v.
Proof. unfold inventorySet. by rewrite decide_True. Qed.

Lemma inventorySet_ne (t t' : BlockType) (v : option Z) (inv : Inventory) :
  t' ≠ t → inventorySet t v inv t' = inv t'.
Proof. intros Hne. unfold inventorySet. by rewrite decide_False. Qed.

Lemma addToInventory_nonNegative (t : BlockType) (n : Z) (inv : Inventory) :
  0 ≤ n → nonNegativeCounts inv → nonNegativeCounts (addToInventory t n inv).
Proof.
  intros Hn Hinv t' c. unfold addToInventory.
  destruct (decide (t' = t)) as [->|Hne].
  - rewrite inventorySet_eq. destruct (inv t) as [c0|] eqn:E; simpl; [|done].
    intros [= <-]. specialize (Hinv t c0 E). lia.
  - rewrite inventorySet_ne; [apply Hinv | done].
Qed.

Lemma removeFromInventory_nonNegative (t : BlockType) (n : Z) (inv : Inventory) :
  nonNegativeCounts inv → nonNegativeCounts (removeFromInventory t n inv).1.
Proof.
  intros Hinv. unfold removeFromInventory.
  destruct (inv t) as [c0|] eqn:E; [|done].
  destruct (n <=? c0) eqn:Hle; [|done]. simpl.
  intros t' c. destruct (decide (t' = t)) as [->|Hne].
  - rewrite inventorySet_eq. intros [= <-]. apply Z.leb_le in Hle. lia.
  - rewrite inventorySet_ne; [apply Hinv | done].
Qed.

Lemma runInventoryOps_nonNegative (ops : list InventoryOp) (inv : Inventory) :
  nonNegativeCounts inv → nonNegativeCounts (runInventoryOps ops inv).
Proof.
  revert inv. induction ops as [|op ops IH]; intros inv Hinv; [done|].
  apply IH. destruct op as [t n|t n]; simpl.
  - apply addToInventory_nonNegative; [lia|done].
  - by apply removeFromInventory_nonNegative.
Qed.

Lemma initialInventory_nonNegative : nonNegativeCounts initialInventory.
Proof. intros [] c; simpl; intros [= <-]; lia. Qed.

(** C6.  From an inventory whose counts are at least 0 (the constructor's
    is one), after any sequence of add and remove operations every count
    is still at least 0.  In the inventory so reached,
    [removeFromInventory t n] on a count below [n] returns [false] and the
    same inventory; on a count of at least [n] it returns [true], the
    count of [t] is lower by exactly [n] and no other count changes. *)
Theorem C6_inventory_invariant (inv0 : Inventory) (ops : list InventoryOp) :
  nonNegativeCounts inv0 →
  let inv := runInventoryOps ops inv0 in
  (∀ t c, inv t = Some c → 0 ≤ c) ∧
  (∀ t n c, inv t = Some c → c < n →
            removeFromInventory t n inv = (inv, false)) ∧
  (∀ t n c, inv t = Some c → n ≤ c →
            (removeFromInventory t n inv).2 = true ∧
            (removeFromInventory t n inv).1 t = Some (c - n) ∧
            ∀ t', t' ≠ t → (removeFromInventory t n inv).1 t' = inv t').
Proof.
  intros Hinv0 inv. split; [|split].
  - by apply runInventoryOps_nonNegative.
  - intros t n c Hc Hlt. unfold removeFromInventory. rewrite Hc.
    destruct (n <=? c) eqn:Hle; [|done]. apply Z.leb_le in Hle. lia.
  - intros t n c Hc Hle. unfold removeFromInventory. rewrite Hc.
    apply Z.leb_le in Hle. rewrite Hle. simpl. split; [done|]. split.
    + apply inventorySet_eq.
    + intros t' Hne. by apply inventorySet_ne.
Qed.

Lemma C6_inventory_invariant_witness :
  nonNegativeCounts initialInventory ∧
  (let inv := runInventoryOps [OpAdd GRASS 1; OpRemove GRASS 1; OpRemove GRASS 1;
                               OpAdd DIRT 2] initialInventory in
   (∀ t c, inv t = Some c → 0 ≤ c) ∧
   (∀ t n c, inv t = Some c → c < n →
             removeFromInventory t n inv = (inv, false)) ∧
   (∀ t n c, inv t = Some c → n ≤ c →
             (removeFromInventory t n inv).2 = true ∧
             (removeFromInventory t n inv).1 t = Some (c - n) ∧
             ∀ t', t' ≠ t → (removeFromInventory t n inv).1 t' = inv t')).
Proof.
  split; [exact initialInventory_nonNegative|].
  exact (C6_inventory_invariant initialInventory _ initialInventory_nonNegative).
Defined.

(** * The chunk table *)

Section MapLemmas.
Context {K V : Type} `{EqDecision K}.
Implicit Types (k : K) (v : V) (m : list (K * V)).

Lemma mapGet_mapSet_eq k v m : mapGet k (mapSet k v m) = Some v.
Proof.
  induction m as [|[k' v'] m IH]; simpl.
  - by rewrite decide_True.
  - destruct (decide (k' = k)) as [->|Hne]; simpl.
    + by rewrite decide_True.
    + by rewrite decide_False.
Qed.

Lemma mapGet_mapSet_ne k k' v m :
  k' ≠ k → mapGet k' (mapSet k v m) = mapGet k' m.
Proof.
  intros Hne. induction m as [|[k0 v0] m IH]; simpl.
  - by rewrite decide_False.
  - destruct (decide (k0 = k)) as [->|Hne0]; simpl.
    + rewrite !decide_False; done.
    + by rewrite IH.
Qed.

Lemma mapGet_mapDelete_eq k m : mapGet k (mapDelete k m) = None.
Proof.
  induction m as [|[k' v'] m IH]; simpl; [done|].
  destruct (decide (k' = k)) as [->|Hne]; simpl; [done|].
  by rewrite decide_False.
Qed.

Lemma mapGet_mapDelete_ne k k' m :
  k' ≠ k → mapGet k' (mapDelete k m) = mapGet k' m.
Proof.
  intros Hne. induction m as [|[k0 v0] m IH]; simpl; [done|].
  destruct (decide (k0 = k)) as [->|Hne0]; simpl.
  - by rewrite decide_False.
  - by rewrite IH.
Qed.

Lemma mapHas_true k m : mapHas k m = true ↔ is_Some (mapGet k m).
Proof.
  unfold mapHas. destruct (mapGet k m) as [v|]; split.
  - intros _. by exists v.
  - done.
  - done.
  - by intros [v Hv].
Qed.

Lemma mapHas_false k m : mapHas k m = false ↔ mapGet k m = None.
Proof. unfold mapHas. by destruct (mapGet k m). Qed.

Lemma mapGet_elem_of k v m : mapGet k m = Some v → (k, v) ∈ m.
Proof.
  induction m as [|[k' v'] m IH]; simpl; [done|].
  destruct (decide (k' = k)) as [->|Hne].
  - intros [= ->]. apply list_elem_of_here.
  - intros Hg. apply list_elem_of_further, IH, Hg.
Qed.

End MapLemmas.

(** * Releasing render batches *)

Lemma releaseMeshes_disposed (ms scene : list Mesh) (d : nat) :
  (releaseMeshes ms scene d).2 = (d + length ms)%nat.
Proof.
  unfold releaseMeshes. revert scene d.
  induction ms as [|m ms IH]; intros scene d; simpl; [lia|].
  rewrite IH. simpl. lia.
Qed.

Lemma releaseMeshes_scene (ms scene : list Mesh) (d : nat) (o : Mesh) :
  o ∈ (releaseMeshes ms scene d).1 ↔
  o ∈ scene ∧ ∀ m, m ∈ ms → meshId o ≠ meshId m.
Proof.
  unfold releaseMeshes. revert scene d.
  induction ms as [|m ms IH]; intros scene d; simpl.
  - split; [|by intros [? _]]. intros Ho. split; [done|].
    by intros m ?%elem_of_nil.
  - rewrite IH. simpl. unfold sceneRemove. rewrite list_elem_of_filter.
    split.
    + intros [[Hne Ho] Hms]. split; [done|].
      intros m' [->|Hin]%elem_of_cons; [done|]. by apply Hms.
    + intros [Ho Hms]. split; [split; [|done]|].
      * apply Hms, list_elem_of_here.
      * intros m' Hin. by apply Hms, list_elem_of_further.
Qed.

Lemma releaseMeshes_released (ms scene : list Mesh) (d : nat) (m : Mesh) :
  m ∈ ms → m ∉ (releaseMeshes ms scene d).1.
Proof. intros Hm [_ Hne]%releaseMeshes_scene. by apply (Hne m). Qed.

(** C9.  Unloading a loaded chunk removes its key from the loaded set
    and releases its render batches (none of its meshes is left in the
    scene, and the geometry is disposed once per mesh), while the world
    mapping stays the same map; the other chunks stay loaded with the same
    batches. *)
Theorem C9_unload_keeps_voxels (g : Game) (cx cz : Z) (chunk : Chunk) :
  mapGet (cx, cz) (chunks g) = Some chunk →
  let g' := removeChunk cx cz g in
  mapHas (cx, cz) (chunks g') = false ∧
  (∀ m, m ∈ meshes chunk → m ∉ scene g') ∧
  disposeCalls g' = (disposeCalls g + length (meshes chunk))%nat ∧
  worldData (world g') = worldData (world g) ∧
  (∀ k, k ≠ (cx, cz) → mapGet k (chunks g') = mapGet k (chunks g)).
Proof.
  intros Hget g'. subst g'. unfold removeChunk. rewrite Hget.
  destruct (releaseMeshes (meshes chunk) (scene g) (disposeCalls g))
    as [scene1 disposed] eqn:Hrel. simpl.
  split; [|split; [|split; [|split]]].
  - apply mapHas_false, mapGet_mapDelete_eq.
  - intros m Hm.
    replace scene1 with (releaseMeshes (meshes chunk) (scene g) (disposeCalls g)).1
      by (by rewrite Hrel).
    by apply releaseMeshes_released.
  - replace disposed with (releaseMeshes (meshes chunk) (scene g) (disposeCalls g)).2
      by (by rewrite Hrel).
    apply releaseMeshes_disposed.
  - done.
  - intros k Hk. by apply mapGet_mapDelete_ne.
Qed.

Lemma C9_unload_keeps_voxels_witness :
  mapGet (0, 0) (chunks oneBlockGame) = Some stoneChunk ∧
  (let g' := removeChunk 0 0 oneBlockGame in
   mapHas (0, 0) (chunks g') = false ∧
   (∀ m, m ∈ meshes stoneChunk → m ∉ scene g') ∧
   disposeCalls g' = (disposeCalls oneBlockGame + length (meshes stoneChunk))%nat ∧
   worldData (world g') = worldData (world oneBlockGame) ∧
   (∀ k, k ≠ (0, 0) → mapGet k (chunks g') = mapGet k (chunks oneBlockGame))).
Proof.
  split; [reflexivity|].
  exact (C9_unload_keeps_voxels oneBlockGame 0 0 stoneChunk eq_refl).
Defined.

(** * The physics step *)

Lemma Qltb_lt (a b : Q) : Qltb a b = true ↔ (a < b)%Q.
Proof.
  unfold Qltb. rewrite negb_true_iff, <- not_true_iff_false, Qle_bool_iff.
  split; [apply Qnot_le_lt | apply Qlt_not_le].
Qed.

Lemma feetCorner_cell_y (x y z : Q) (pos : Q * Q * Q) :
  pos ∈ feetCorners x y z → pos.1.2 = (y - playerHeight)%Q.
Proof.
  unfold feetCorners, cornerPositions. simpl.
  rewrite !elem_of_cons, elem_of_nil. intros [->|[->|[->|[->|[]]]]]; done.
Qed.

Section Physics.

Variable normalize : Vec3 → Vec3.

(** The step of lines 676-690 when the candidate vertical position
    collides and the velocity tested at line 679 is negative. *)
Lemma updatePlayer_landing (delta : Q) (worldDirection : Vec3) (g : Game) :
  isLocked g = true →
  (velocityAfterGravity delta g < 0)%Q →
  checkCollision (worldData (world g))
    (resolveHorizontal normalize delta worldDirection g).1
    (candidateY delta g)
    (resolveHorizontal normalize delta worldDirection g).2 = true →
  let g' := updatePlayer normalize delta worldDirection g in
  let groundY := groundYFor (candidateY delta g) in
  canJump g' = true ∧
  vy (velocity g') = 0%Q ∧
  vy (cameraPosition g') = (if Qltb groundY (-50) then 20%Q else groundY).
Proof.
  intros Hlock Hfall Hcol g' groundY. subst g' groundY.
  unfold updatePlayer. rewrite Hlock. cbn [negb].
  destruct (resolveHorizontal normalize delta worldDirection g) as [cx cz] eqn:Hres.
  cbn [fst snd] in *. rewrite Hcol. cbn [negb].
  apply Qltb_lt in Hfall. rewrite Hfall.
  by destruct (Qltb (groundYFor (candidateY delta g)) (-50)).
Qed.

(** C7 (amended).  In a physics step with the pointer locked, where the
    vertical velocity tested at line 679 (the velocity after the gravity
    of line 640) is negative and the candidate vertical position collides
    with a block, [canJump] becomes true and the vertical velocity becomes
    0; and for every block that obstructs one of the four feet corners,
    on which the player would not stand below the respawn threshold -50,
    the camera height becomes the top of that block plus [playerHeight]. *)
Theorem C7_landing_resolution (delta : Q) (worldDirection : Vec3) (g : Game) :
  isLocked g = true →
  (velocityAfterGravity delta g < 0)%Q →
  let camX := (resolveHorizontal normalize delta worldDirection g).1 in
  let camZ := (resolveHorizontal normalize delta worldDirection g).2 in
  let newY := candidateY delta g in
  checkCollision (worldData (world g)) camX newY camZ = true →
  let g' := updatePlayer normalize delta worldDirection g in
  canJump g' = true ∧
  vy (velocity g') = 0%Q ∧
  (∀ b, obstructsAt (worldData (world g)) (feetCorners camX newY camZ) b →
        (-50 <= inject_Z (b.1.2 + 1) + playerHeight)%Q →
        standsOn (vy (cameraPosition g')) b).
Proof.
  intros Hlock Hfall camX camZ newY Hcol g'.
  destruct (updatePlayer_landing delta worldDirection g Hlock Hfall Hcol)
    as (Hjump & Hvel & Hcam).
  split; [done|]. split; [done|].
  intros b (pos & Hpos & _ & ->) Hhigh. fold g' in Hcam. rewrite Hcam.
  assert (Hground : (groundYFor (candidateY delta g)
                     == inject_Z (Qfloor pos.1.2 + 1) + playerHeight)%Q).
  { unfold groundYFor, Math_floor. rewrite (feetCorner_cell_y _ _ _ _ Hpos).
    rewrite inject_Z_plus. reflexivity. }
  cbn [getBlockKey fst snd] in Hhigh. unfold standsOn. cbn [getBlockKey fst snd].
  destruct (Qltb (groundYFor (candidateY delta g)) (-50)) eqn:Hlow; [|done].
  apply Qltb_lt in Hlow. rewrite Hground in Hlow. lra.
Qed.

End Physics.

Lemma C7_landing_resolution_witness :
  isLocked landingGame = true ∧
  (velocityAfterGravity 0.1 landingGame < 0)%Q ∧
  checkCollision (worldData (world landingGame))
    (resolveHorizontal keepVector 0.1 (mkVec3 1 0 0) landingGame).1
    (candidateY 0.1 landingGame)
    (resolveHorizontal keepVector 0.1 (mkVec3 1 0 0) landingGame).2 = true ∧
  (let camX := (resolveHorizontal keepVector 0.1 (mkVec3 1 0 0) landingGame).1 in
   let camZ := (resolveHorizontal keepVector 0.1 (mkVec3 1 0 0) landingGame).2 in
   let newY := candidateY 0.1 landingGame in
   let g' := updatePlayer keepVector 0.1 (mkVec3 1 0 0) landingGame in
   canJump g' = true ∧
   vy (velocity g') = 0%Q ∧
   (∀ b, obstructsAt (worldData (world landingGame)) (feetCorners camX newY camZ) b →
         (-50 <= inject_Z (b.1.2 + 1) + playerHeight)%Q →
         standsOn (vy (cameraPosition g')) b)).
Proof.
  assert (H1 : isLocked landingGame = true) by reflexivity.
  assert (H2 : (velocityAfterGravity 0.1 landingGame < 0)%Q) by reflexivity.
  assert (H3 : checkCollision (worldData (world landingGame))
                 (resolveHorizontal keepVector 0.1 (mkVec3 1 0 0) landingGame).1
                 (candidateY 0.1 landingGame)
                 (resolveHorizontal keepVector 0.1 (mkVec3 1 0 0) landingGame).2
               = true) by (vm_compute; reflexivity).
  split; [exact H1|]. split; [exact H2|]. split; [exact H3|].
  exact (C7_landing_resolution keepVector 0.1 (mkVec3 1 0 0) landingGame H1 H2 H3).
Defined.

(** The floor block of [landingGame] obstructs a feet corner, and the
    step leaves the player standing on it. *)
Lemma landingGame_lands :
  let g' := updatePlayer keepVector 0.1 (mkVec3 1 0 0) landingGame in
  obstructsAt (worldData (world landingGame))
    (feetCorners (resolveHorizontal keepVector 0.1 (mkVec3 1 0 0) landingGame).1
                 (candidateY 0.1 landingGame)
                 (resolveHorizontal keepVector 0.1 (mkVec3 1 0 0) landingGame).2)
    (0, 0, 0) ∧
  standsOn (vy (cameraPosition g')) (0, 0, 0).
Proof.
  cbv zeta. split.
  - unfold obstructsAt, feetCorners, cornerPositions. cbn [drop]. eexists.
    split; [apply list_elem_of_here|]. split; vm_compute; reflexivity.
  - unfold standsOn. vm_compute. reflexivity.
Qed.

(** C7 as stated fails when only the head corners collide: the one
    obstructing block of [headHitGame] is cell (0,1,0), whose top is at
    height 2, and the step leaves the camera at 2.8, not at 2 + 1.8. *)
Lemma C7_head_collision_counterexample :
  let g := headHitGame in
  let camX := (resolveHorizontal keepVector 0.1 (mkVec3 1 0 0) g).1 in
  let camZ := (resolveHorizontal keepVector 0.1 (mkVec3 1 0 0) g).2 in
  let newY := candidateY 0.1 g in
  let g' := updatePlayer keepVector 0.1 (mkVec3 1 0 0) g in
  isLocked g = true ∧
  (velocityAfterGravity 0.1 g < 0)%Q ∧
  checkCollision (worldData (world g)) camX newY camZ = true ∧
  obstructsAt (worldData (world g)) (cornerPositions camX newY camZ) (0, 1, 0) ∧
  (∀ b, obstructsAt (worldData (world g)) (cornerPositions camX newY camZ) b →
        b = (0, 1, 0)) ∧
  (vy (cameraPosition g') == 2.8)%Q ∧
  ¬ standsOn (vy (cameraPosition g')) (0, 1, 0).
Proof.
  cbv zeta. split; [reflexivity|]. split; [reflexivity|].
  split; [vm_compute; reflexivity|]. split; [|split; [|split]].
  - unfold obstructsAt, cornerPositions. eexists.
    split; [apply list_elem_of_here|]. split; vm_compute; reflexivity.
  - intros b (pos & Hpos & Hblocked & ->).
    unfold cornerPositions in Hpos.
    rewrite !elem_of_cons, elem_of_nil in Hpos.
    destruct Hpos as [->|[->|[->|[->|[->|[->|[->|[->|[]]]]]]]]];
      vm_compute in Hblocked; try discriminate Hblocked; vm_compute; reflexivity.
  - vm_compute. reflexivity.
  - unfold standsOn. vm_compute. discriminate.
Qed.

(** * Placing a block *)

Lemma world_rebuildChunk (cx cz : Z) (g : Game) :
  world (rebuildChunk cx cz g) = world g.
Proof.
  unfold rebuildChunk.
  destruct (match mapGet (cx, cz) (chunks g) with
            | Some chunk => releaseMeshes (meshes chunk) (scene g) (disposeCalls g)
            | None => (scene g, disposeCalls g)
            end) as [scene1 disposed].
  by destruct (buildChunkMesh (worldData (world g)) cx cz (nextObjectId g)).
Qed.

Lemma inventory_rebuildChunk (cx cz : Z) (g : Game) :
  inventory (rebuildChunk cx cz g) = inventory g.
Proof.
  unfold rebuildChunk.
  destruct (match mapGet (cx, cz) (chunks g) with
            | Some chunk => releaseMeshes (meshes chunk) (scene g) (disposeCalls g)
            | None => (scene g, disposeCalls g)
            end) as [scene1 disposed].
  by destruct (buildChunkMesh (worldData (world g)) cx cz (nextObjectId g)).
Qed.

(** What the guard of lines 350-357 tests: the box from [pos - 0.5] to
    [pos + 0.5] around the origin of the target cell.  When it meets the
    player's volume nothing changes; when it does not and the count of the
    selected type is at least 1, the block is written at the target cell
    and the count drops by 1. *)
Lemma placeBlock_guard (g : Game) (sel : SelectedBlock) (blockType : BlockType)
    (c : Z) (hit : Intersection) (rest : list Intersection) :
  selectedBlock g = Some sel →
  getSelectedBlockType g = Some blockType →
  inventory g blockType = Some c → 1 ≤ c →
  let pos := vecAdd (position sel) (faceNormal hit) in
  let g' := placeBlock (hit :: rest) g in
  if boxesIntersect (subScalar pos 0.5) (addScalar pos 0.5)
       (playerMinAt (cameraPosition g)) (playerMaxAt (cameraPosition g))
  then g' = g
  else world g' = setBlock (vx pos) (vy pos) (vz pos) blockType (world g) ∧
       inventory g' blockType = Some (c - 1) ∧
       ∀ t, t ≠ blockType → inventory g' t = inventory g t.
Proof.
  intros Hsel Hty Hinv Hc pos g'. subst g' pos.
  unfold placeBlock, getSelectedBlockCount. rewrite Hsel, Hty. cbn [mbind option_bind].
  rewrite Hinv.
  assert ((c <=? 0) = false) as -> by (apply Z.leb_gt; lia).
  destruct (boxesIntersect _ _ _ _); [done|].
  unfold removeFromInventory. rewrite Hinv.
  assert ((1 <=? c) = true) as -> by (by apply Z.leb_le).
  destruct (chunkOfPos (vecAdd (position sel) (faceNormal hit))) as [cx cz].
  rewrite world_rebuildChunk, inventory_rebuildChunk. simpl.
  split; [done|]. split; [apply inventorySet_eq|].
  intros t Ht. by apply inventorySet_ne.
Qed.

(** C5 at two inputs the code can receive.  First: the player stands on
    the floor at (0.9, 19.8, 0.9), the target cell (0,18,0) overlaps the
    player's volume, and [placeBlock] still writes the block and takes it
    from the inventory; the player, free before, then collides at the
    place where they stand.  Second: the player stands at (-0.4, 19.8,
    0.5), the target cell does not overlap the player's volume, the
    inventory holds one block of the selected type, and [placeBlock]
    changes nothing. *)
Theorem C5_placement_guard_misplaced :
  let inside := placementGame (mkVec3 0.9 19.8 0.9) in
  let clear := placementGame (mkVec3 (-0.4) 19.8 0.5) in
  (cellOverlapsPlayer (mkVec3 0 18 0) (cameraPosition inside) = true ∧
   inventory inside DIRT = Some 1 ∧
   worldData (world inside) !! (0, 18, 0) = None ∧
   worldData (world (placeBlock hitFromAbove inside)) !! (0, 18, 0) = Some DIRT ∧
   inventory (placeBlock hitFromAbove inside) DIRT = Some 0 ∧
   checkCollision (worldData (world inside)) 0.9 19.8 0.9 = false ∧
   checkCollision (worldData (world (placeBlock hitFromAbove inside)))
     0.9 19.8 0.9 = true) ∧
  (cellOverlapsPlayer (mkVec3 0 18 0) (cameraPosition clear) = false ∧
   inventory clear DIRT = Some 1 ∧
   placeBlock hitFromAbove clear = clear).
Proof.
  cbv zeta. split.
  - repeat split; vm_compute; reflexivity.
  - repeat split; vm_compute; reflexivity.
Qed.

(** * Loops as folds over the list of their indices *)

Section Loops.
Context {S : Type}.

Lemma foldl_bind {A B : Type} (f : S → B → S) (k : A → list B) (l : list A) (s : S) :
  foldl f s (l ≫= k) = foldl (λ acc a, foldl f acc (k a)) s l.
Proof.
  revert s. induction l as [|a l IH]; intros s; simpl; [done|].
  by rewrite foldl_app, IH.
Qed.

Lemma foldl_fmap {A B : Type} (f : S → B → S) (h : A → B) (l : list A) (s : S) :
  foldl f s (h <$> l) = foldl (λ acc a, f acc (h a)) s l.
Proof. revert s. induction l as [|a l IH]; intros s; simpl; [done|]. by rewrite IH. Qed.

Lemma foldl_ext_in {A : Type} (f f' : S → A → S) (l : list A) (s : S) :
  (∀ acc a, a ∈ l → f acc a = f' acc a) → foldl f s l = foldl f' s l.
Proof.
  revert s. induction l as [|a l IH]; intros s Hf; simpl; [done|].
  rewrite Hf by apply list_elem_of_here.
  apply IH. intros acc b Hb. by apply Hf, list_elem_of_further.
Qed.

(** Two nested loops visit the pairs of indices in row order. *)
Lemma forRange_nested (lo hi : Z) (lo' hi' : Z → Z) (body : Z → Z → S → S) (s : S) :
  forRange lo hi (λ x, forRange (lo' x) (hi' x) (body x)) s =
  foldl (λ acc p, body p.1 p.2 acc) s
    (x ← seqZ lo (hi - lo); (λ z, (x, z)) <$> seqZ (lo' x) (hi' x - lo' x)).
Proof.
  unfold forRange. rewrite foldl_bind. apply foldl_ext_in.
  intros acc x _. by rewrite foldl_fmap.
Qed.

End Loops.


(** * Chunk reconciliation *)

Section Chunks.

Variable noise2D : Q → Q → Q.

Lemma chunks_generateChunk (cx cz : Z) (g : Game) :
  ∃ c, chunkX c = cx ∧ chunkZ c = cz ∧
       chunks (generateChunk noise2D cx cz g) =
       if mapHas (cx, cz) (chunks g) then chunks g
       else mapSet (cx, cz) c (chunks g).
Proof.
  unfold generateChunk. destruct (mapHas (cx, cz) (chunks g)).
  - by exists (mkChunk [] cx cz).
  - destruct (buildChunkMesh _ cx cz (nextObjectId g)) as [ms next].
    by exists (mkChunk ms cx cz).
Qed.

Lemma generateChunk_loaded (cx cz : Z) (g : Game) :
  is_Some (mapGet (cx, cz) (chunks (generateChunk noise2D cx cz g))).
Proof.
  destruct (chunks_generateChunk cx cz g) as (c & _ & _ & ->).
  destruct (mapHas (cx, cz) (chunks g)) eqn:Hhas.
  - by apply mapHas_true.
  - rewrite mapGet_mapSet_eq. by eexists.
Qed.

Lemma generateChunk_other (k : ChunkKey) (cx cz : Z) (g : Game) :
  k ≠ (cx, cz) →
  mapGet k (chunks (generateChunk noise2D cx cz g)) = mapGet k (chunks g).
Proof.
  intros Hk. destruct (chunks_generateChunk cx cz g) as (c & _ & _ & ->).
  destruct (mapHas (cx, cz) (chunks g)); [done|]. by apply mapGet_mapSet_ne.
Qed.

Lemma generateChunk_keeps (k : ChunkKey) (c : Chunk) (cx cz : Z) (g : Game) :
  mapGet k (chunks g) = Some c →
  mapGet k (chunks (generateChunk noise2D cx cz g)) = Some c.
Proof.
  intros Hget. destruct (decide (k = (cx, cz))) as [->|Hne].
  - destruct (chunks_generateChunk cx cz g) as (c' & _ & _ & ->).
    assert (mapHas (cx, cz) (chunks g) = true) as ->; [|done].
    apply mapHas_true. by eexists.
  - by rewrite generateChunk_other.
Qed.

Lemma generateChunk_wellFormed (cx cz : Z) (g : Game) :
  chunksWellFormed (chunks g) →
  chunksWellFormed (chunks (generateChunk noise2D cx cz g)).
Proof.
  intros Hwf k c. destruct (chunks_generateChunk cx cz g) as (c' & Hx & Hz & ->).
  destruct (mapHas (cx, cz) (chunks g)); [apply Hwf|].
  destruct (decide (k = (cx, cz))) as [->|Hne].
  - rewrite mapGet_mapSet_eq. intros [= <-]. by rewrite Hx, Hz.
  - rewrite mapGet_mapSet_ne by done. apply Hwf.
Qed.

Lemma scene_generateChunk (cx cz : Z) (g : Game) (m : Mesh) :
  m ∈ scene g → m ∈ scene (generateChunk noise2D cx cz g).
Proof.
  intros Hm. unfold generateChunk. destruct (mapHas (cx, cz) (chunks g)); [done|].
  destruct (buildChunkMesh _ cx cz (nextObjectId g)) as [ms next]. simpl.
  unfold sceneAddAll. apply elem_of_app. by left.
Qed.


Lemma elem_of_squareOffsets (r : Z) (p : Z * Z) :
  p ∈ squareOffsets r ↔ (- r ≤ p.1 ≤ r) ∧ (- r ≤ p.2 ≤ r).
Proof.
  unfold squareOffsets. rewrite list_elem_of_bind. split.
  - intros (x & Hp & Hx). apply list_elem_of_fmap in Hp as (z & -> & Hz).
    apply elem_of_seqZ in Hx, Hz. simpl. lia.
  - intros [Hx Hz]. exists p.1. split.
    + apply list_elem_of_fmap. exists p.2. split; [by destruct p|].
      apply elem_of_seqZ. lia.
    + apply elem_of_seqZ. lia.
Qed.


Lemma loadNeeded_foldl (r cx cz : Z) (g : Game) :
  loadNeeded noise2D r cx cz g = foldl (loadStep noise2D cx cz) (∅, g) (squareOffsets r).
Proof. unfold loadNeeded. by rewrite forRange_nested. Qed.

Lemma loadStep_foldl (cx cz : Z) (l : list (Z * Z)) (needed : gset ChunkKey) (g : Game) :
  let res := foldl (loadStep noise2D cx cz) (needed, g) l in
  (∀ k, k ∈ res.1 ↔ k ∈ needed ∨ ∃ p, p ∈ l ∧ k = (cx + p.1, cz + p.2)) ∧
  (∀ k, is_Some (mapGet k (chunks res.2)) ↔
        is_Some (mapGet k (chunks g)) ∨ ∃ p, p ∈ l ∧ k = (cx + p.1, cz + p.2)) ∧
  (∀ k c, mapGet k (chunks g) = Some c → mapGet k (chunks res.2) = Some c) ∧
  (chunksWellFormed (chunks g) → chunksWellFormed (chunks res.2)) ∧
  (∀ m, m ∈ scene g → m ∈ scene res.2).
Proof.
  revert needed g. induction l as [|p l IH]; intros needed g; simpl.
  - repeat split; try done; try (intros [?|(? & []%elem_of_nil & _)]; done);
      by left.
  - specialize (IH ({[ (cx + p.1, cz + p.2) ]} ∪ needed)
                   (generateChunk noise2D (cx + p.1) (cz + p.2) g)).
    simpl in IH. destruct IH as (IH1 & IH2 & IH3 & IH4 & IH5).
    unfold loadStep at 2 4 6 8 10. simpl.
    split; [|split; [|split; [|split]]].
    + intros k. rewrite IH1, elem_of_union, elem_of_singleton. split.
      * intros [[->|Hk]|(q & Hq & ->)].
        -- right. exists p. split; [apply list_elem_of_here|done].
        -- by left.
        -- right. exists q. split; [by apply list_elem_of_further|done].
      * intros [Hk|(q & [->|Hq]%elem_of_cons & ->)].
        -- left. by right.
        -- left. by left.
        -- right. by exists q.
    + intros k. rewrite IH2. split.
      * intros [Hk|(q & Hq & ->)].
        -- destruct (decide (k = (cx + p.1, cz + p.2))) as [->|Hne].
           ++ right. exists p. split; [apply list_elem_of_here|done].
           ++ rewrite generateChunk_other in Hk by done. by left.
        -- right. exists q. split; [by apply list_elem_of_further|done].
      * intros [[c Hk]|(q & [->|Hq]%elem_of_cons & ->)].
        -- left. exists c. by apply generateChunk_keeps.
        -- left. apply generateChunk_loaded.
        -- right. by exists q.
    + intros k c Hk. by apply IH3, generateChunk_keeps.
    + intros Hwf. by apply IH4, generateChunk_wellFormed.
    + intros m Hm. by apply IH5, scene_generateChunk.
Qed.


Lemma removeChunk_loaded (cx cz : Z) (g : Game) (chunk : Chunk) :
  mapGet (cx, cz) (chunks g) = Some chunk →
  removeChunk cx cz g =
  withRender (mapDelete (cx, cz) (chunks g))
    (releaseMeshes (meshes chunk) (scene g) (disposeCalls g)).1
    (nextObjectId g)
    (releaseMeshes (meshes chunk) (scene g) (disposeCalls g)).2 g.
Proof.
  intros Hget. unfold removeChunk. rewrite Hget.
  by destruct (releaseMeshes (meshes chunk) (scene g) (disposeCalls g)).
Qed.

Lemma mapDelete_wellFormed (k : ChunkKey) (m : list (ChunkKey * Chunk)) :
  chunksWellFormed m → chunksWellFormed (mapDelete k m).
Proof.
  intros Hwf k' c. destruct (decide (k' = k)) as [->|Hne].
  - by rewrite mapGet_mapDelete_eq.
  - rewrite mapGet_mapDelete_ne by done. apply Hwf.
Qed.

(** One turn of the callback of lines 576-580, on a well-formed table. *)
Lemma unloadStep_spec (needed : gset ChunkKey) (acc : Game) (e : ChunkKey * Chunk) :
  chunksWellFormed (chunks acc) →
  let acc1 := unloadStep needed acc e in
  chunksWellFormed (chunks acc1) ∧
  (∀ k, k ∈ needed → mapGet k (chunks acc1) = mapGet k (chunks acc)) ∧
  (∀ k, k ≠ e.1 → mapGet k (chunks acc1) = mapGet k (chunks acc)) ∧
  (∀ k, mapGet k (chunks acc) = None → mapGet k (chunks acc1) = None) ∧
  (e.1 ∉ needed → mapGet e.1 (chunks acc1) = None) ∧
  (∀ m, m ∈ scene acc1 → m ∈ scene acc) ∧
  (∀ c, e.1 ∉ needed → mapGet e.1 (chunks acc) = Some c →
        ∀ m, m ∈ meshes c → m ∉ scene acc1) ∧
  world acc1 = world acc.
Proof.
  intros Hwf acc1. subst acc1. unfold unloadStep.
  destruct (mapGet e.1 (chunks acc)) as [chunk|] eqn:Hget.
  2: { repeat split; try done; intros c _ [=]. }
  destruct (decide (e.1 ∈ needed)) as [Hin|Hout].
  { rewrite bool_decide_eq_true_2 by done. simpl.
    repeat split; try done; intros c Hc; done. }
  rewrite bool_decide_eq_false_2 by done. simpl.
  pose proof (Hwf _ _ Hget) as Hkey.
  assert (Hget' : mapGet (chunkX chunk, chunkZ chunk) (chunks acc) = Some chunk)
    by (by rewrite <- Hkey).
  rewrite (removeChunk_loaded _ _ _ _ Hget'). simpl. rewrite <- Hkey.
  split; [by apply mapDelete_wellFormed|].
  split; [|split; [|split; [|split; [|split; [|split]]]]].
  - intros k Hk. apply mapGet_mapDelete_ne. by intros ->.
  - intros k Hk. by apply mapGet_mapDelete_ne.
  - intros k Hk. destruct (decide (k = e.1)) as [->|Hne].
    + apply mapGet_mapDelete_eq.
    + by rewrite mapGet_mapDelete_ne.
  - intros _. apply mapGet_mapDelete_eq.
  - intros m Hm. by apply releaseMeshes_scene in Hm as [Hm _].
  - intros c _ [= <-] m Hm. by apply releaseMeshes_released.
  - done.
Qed.

Lemma unloadStep_foldl (needed : gset ChunkKey) (l : list (ChunkKey * Chunk)) (acc : Game) :
  chunksWellFormed (chunks acc) →
  let res := foldl (unloadStep needed) acc l in
  chunksWellFormed (chunks res) ∧
  (∀ k, k ∈ needed → mapGet k (chunks res) = mapGet k (chunks acc)) ∧
  (∀ k, mapGet k (chunks acc) = None → mapGet k (chunks res) = None) ∧
  (∀ k, k ∉ needed → k ∈ l.*1 → mapGet k (chunks res) = None) ∧
  (∀ m, m ∈ scene res → m ∈ scene acc) ∧
  (∀ k c, k ∉ needed → k ∈ l.*1 → mapGet k (chunks acc) = Some c →
          ∀ m, m ∈ meshes c → m ∉ scene res) ∧
  world res = world acc.
Proof.
  revert acc. induction l as [|e l IH]; intros acc Hwf; simpl.
  { split; [done|]. split; [done|]. split; [done|].
    split; [by intros k _ ?%elem_of_nil|]. split; [done|].
    split; [by intros k c _ ?%elem_of_nil|done]. }
  destruct (unloadStep_spec needed acc e Hwf)
    as (S1 & S2 & S3 & S4 & S5 & S6 & S7 & S8).
  destruct (IH _ S1) as (I1 & I2 & I3 & I4 & I5 & I6 & I7).
  split; [done|]. split; [|split; [|split; [|split; [|split]]]].
  - intros k Hk. by rewrite I2, S2.
  - intros k Hk. by apply I3, S4.
  - intros k Hk [->|Hin]%elem_of_cons.
    + by apply I3, S5.
    + by apply I4.
  - intros m Hm. by apply S6, I5.
  - intros k c Hk Hin Hget m Hm. destruct (decide (k = e.1)) as [->|Hne].
    + intros Hs%I5. by apply (S7 c Hk Hget m Hm).
    + apply elem_of_cons in Hin as [->|Hin]; [done|].
      apply (I6 k c); try done. by rewrite S3.
  - by rewrite I7.
Qed.

Lemma inSquare_iff (r cx cz x z : Z) :
  (∃ p, p ∈ squareOffsets r ∧ (x, z) = (cx + p.1, cz + p.2)) ↔
  Z.abs (x - cx) ≤ r ∧ Z.abs (z - cz) ≤ r.
Proof.
  split.
  - intros (p & Hp%elem_of_squareOffsets & [= -> ->]). lia.
  - intros Habs. exists (x - cx, z - cz). split.
    + apply elem_of_squareOffsets. simpl. lia.
    + simpl. f_equal; lia.
Qed.

Lemma mapGet_key_elem_of (k : ChunkKey) (c : Chunk) (m : list (ChunkKey * Chunk)) :
  mapGet k m = Some c → k ∈ m.*1.
Proof.
  intros Hget%mapGet_elem_of. apply list_elem_of_fmap. by exists (k, c).
Qed.

(** C3.  One run of chunk reconciliation around the player chunk
    [(cx, cz)] with render distance [r] ([updateChunks] is the run with
    [r = RENDER_DISTANCE]), from a chunk table whose entries sit under
    their own coordinates: afterwards a chunk is loaded exactly when it
    lies in the square [|x - cx| ≤ r], [|z - cz| ≤ r]; and every chunk that
    was loaded before and lies outside the square is unloaded, with none
    of its meshes left in the scene. *)
Theorem C3_reconciliation (r : Z) (g : Game) :
  chunksWellFormed (chunks g) →
  let cx := (playerChunkOf g).1 in
  let cz := (playerChunkOf g).2 in
  let g' := updateChunksWithin noise2D r g in
  updateChunks noise2D g = updateChunksWithin noise2D RENDER_DISTANCE g ∧
  (∀ x z, mapHas (x, z) (chunks g') = true ↔
          Z.abs (x - cx) ≤ r ∧ Z.abs (z - cz) ≤ r) ∧
  (∀ x z c, mapGet (x, z) (chunks g) = Some c →
            ¬ (Z.abs (x - cx) ≤ r ∧ Z.abs (z - cz) ≤ r) →
            mapHas (x, z) (chunks g') = false ∧
            ∀ m, m ∈ meshes c → m ∉ scene g').
Proof.
  intros Hwf cx cz g'. split; [reflexivity|].
  subst g' cx cz. unfold updateChunksWithin.
  destruct (playerChunkOf g) as [cx cz]. cbn [fst snd].
  rewrite loadNeeded_foldl.
  pose proof (loadStep_foldl cx cz (squareOffsets r) ∅ g) as Hload.
  destruct (foldl (loadStep noise2D cx cz) (∅, g) (squareOffsets r)) as [needed g1].
  cbn [fst snd] in Hload. destruct Hload as (L1 & L2 & L3 & L4 & _).
  unfold mapForEach.
  change (foldl _ g1 (chunks g1)) with (foldl (unloadStep needed) g1 (chunks g1)).
  destruct (unloadStep_foldl needed (chunks g1) g1 (L4 Hwf))
    as (_ & U2 & U3 & U4 & _ & U6 & _).
  assert (Hneeded : ∀ x z, (x, z) ∈ needed ↔
                           Z.abs (x - cx) ≤ r ∧ Z.abs (z - cz) ≤ r).
  { intros x z. rewrite L1, <- inSquare_iff. split; [|by right].
    by intros [?%not_elem_of_empty|?]. }
  split.
  - intros x z. rewrite <- Hneeded, mapHas_true. split.
    + intros Hsome. destruct (decide ((x, z) ∈ needed)) as [|Hout]; [done|].
      exfalso. destruct (mapGet (x, z) (chunks g1)) as [c|] eqn:Hg1.
      * apply mapGet_key_elem_of in Hg1. rewrite (U4 _ Hout Hg1) in Hsome.
        by destruct Hsome.
      * rewrite (U3 _ Hg1) in Hsome. by destruct Hsome.
    + intros Hin. rewrite (U2 _ Hin). apply L2. right. by apply L1 in Hin as [?%not_elem_of_empty|?].
  - intros x z c Hget Hout. rewrite <- Hneeded in Hout.
    pose proof (L3 _ _ Hget) as Hg1. split.
    + apply mapHas_false, U4; [done|]. by apply mapGet_key_elem_of in Hg1.
    + apply (U6 (x, z) c); [done| |done]. by apply mapGet_key_elem_of in Hg1.
Qed.

End Chunks.

Lemma oneBlockGame_wellFormed : chunksWellFormed (chunks oneBlockGame).
Proof.
  intros k c. simpl. destruct (decide ((0, 0) = k)) as [<-|Hne].
  - by intros [= <-].
  - discriminate.
Qed.

Lemma C3_reconciliation_witness :
  chunksWellFormed (chunks oneBlockGame) ∧
  (let cx := (playerChunkOf oneBlockGame).1 in
   let cz := (playerChunkOf oneBlockGame).2 in
   let g' := updateChunksWithin flatNoise 1 oneBlockGame in
   updateChunks flatNoise oneBlockGame =
     updateChunksWithin flatNoise RENDER_DISTANCE oneBlockGame ∧
   (∀ x z, mapHas (x, z) (chunks g') = true ↔
           Z.abs (x - cx) ≤ 1 ∧ Z.abs (z - cz) ≤ 1) ∧
   (∀ x z c, mapGet (x, z) (chunks oneBlockGame) = Some c →
             ¬ (Z.abs (x - cx) ≤ 1 ∧ Z.abs (z - cz) ≤ 1) →
             mapHas (x, z) (chunks g') = false ∧
             ∀ m, m ∈ meshes c → m ∉ scene g')).
Proof.
  split; [exact oneBlockGame_wellFormed|].
  exact (C3_reconciliation flatNoise 1 oneBlockGame oneBlockGame_wellFormed).
Defined.

(** * The generator as a list of [setBlock] calls *)

Lemma applyCalls_nil (w : World) : applyCalls [] w = w.
Proof. unfold applyCalls. destruct w. simpl. by rewrite app_nil_r. Qed.

Lemma applyCalls_app (l1 l2 : list SetBlockCall) (w : World) :
  applyCalls (l1 ++ l2) w = applyCalls l2 (applyCalls l1 w).
Proof. unfold applyCalls. simpl. by rewrite foldl_app, app_assoc. Qed.

Lemma writes_setBlock (x y z : Z) (t : BlockType) :
  Writes (setBlock (inject_Z x) (inject_Z y) (inject_Z z) t) [((x, y, z), t)].
Proof.
  intros w. unfold setBlock. rewrite getBlockKey_floor.
  unfold getBlockKey. rewrite !Qfloor_Z. reflexivity.
Qed.

Lemma writes_foldl {A : Type} (body : A → World → World)
    (calls : A → list SetBlockCall) (l : list A) :
  (∀ a, a ∈ l → Writes (body a) (calls a)) →
  Writes (λ w, foldl (λ acc a, body a acc) w l) (l ≫= calls).
Proof.
  induction l as [|a l IH]; intros Hbody w; simpl.
  - by rewrite applyCalls_nil.
  - rewrite applyCalls_app, <- (Hbody a) by apply list_elem_of_here.
    apply IH. intros b Hb. by apply Hbody, list_elem_of_further.
Qed.

Lemma writes_forRange (lo hi : Z) (body : Z → World → World)
    (calls : Z → list SetBlockCall) :
  (∀ i, lo ≤ i < hi → Writes (body i) (calls i)) →
  Writes (forRange lo hi body) (seqZ lo (hi - lo) ≫= calls).
Proof.
  intros Hbody. unfold forRange. apply writes_foldl.
  intros i Hi%elem_of_seqZ. apply Hbody. lia.
Qed.

Lemma newCalls_applyCalls (calls : list SetBlockCall) (w : World) :
  newCalls w (applyCalls calls w) = calls.
Proof. unfold newCalls, applyCalls. simpl. by rewrite drop_app_length. Qed.

Lemma bind_singleton {A B : Type} (f : A → B) (l : list A) :
  l ≫= (λ a, [f a]) = f <$> l.
Proof. induction l as [|a l IH]; csimpl; [done|]. by rewrite IH. Qed.

Section Generator.

Variable noise2D : Q → Q → Q.

Lemma trunk_writes (x y z trunkHeight : Z) :
  Writes (forRange 0 trunkHeight
            (λ i, setBlock (inject_Z x) (inject_Z (y + i)) (inject_Z z) WOOD))
         ((λ i, ((x, y + i, z), WOOD)) <$> seqZ 0 (trunkHeight - 0)).
Proof.
  rewrite <- bind_singleton. apply writes_forRange.
  intros i _. apply writes_setBlock.
Qed.

Lemma leaves_writes (x y z trunkHeight lo hi : Z) :
  Writes
    (forRange lo hi (λ ly,
       let radius := if ly <? y + trunkHeight then 2 else 1 in
       forRange (- radius) (radius + 1) (λ lx,
         forRange (- radius) (radius + 1) (λ lz w,
           if (Z.abs lx =? radius) && (Z.abs lz =? radius) then w
           else if (lx =? 0) && (lz =? 0) && (ly <? y + trunkHeight) then w
           else setBlock (inject_Z (x + lx)) (inject_Z ly) (inject_Z (z + lz))
                  LEAVES w))))
    (ly ← seqZ lo (hi - lo);
     lx ← seqZ (- leafRadius (y + trunkHeight) ly)
               (leafRadius (y + trunkHeight) ly + 1 - - leafRadius (y + trunkHeight) ly);
     lz ← seqZ (- leafRadius (y + trunkHeight) ly)
               (leafRadius (y + trunkHeight) ly + 1 - - leafRadius (y + trunkHeight) ly);
     leafCallsAt x y z trunkHeight ly lx lz).
Proof.
  apply writes_forRange. intros ly _. cbv zeta.
  fold (leafRadius (y + trunkHeight) ly).
  apply writes_forRange. intros lx _.
  apply writes_forRange. intros lz _ w. unfold leafCallsAt. cbv zeta.
  destruct (_ && _); [by rewrite applyCalls_nil|].
  destruct (_ && _); [by rewrite applyCalls_nil|].
  apply writes_setBlock.
Qed.

Lemma generateTree_writes (x y z : Z) :
  Writes (generateTree noise2D x y z) (treeCalls noise2D x y z).
Proof.
  intros w. unfold generateTree, treeCalls. cbv zeta.
  by rewrite trunk_writes, leaves_writes, applyCalls_app.
Qed.

Lemma strata_writes (worldX worldZ height : Z) :
  Writes (forRange 0 (height + 1)
            (λ y, setBlock (inject_Z worldX) (inject_Z y) (inject_Z worldZ)
                    (strataBlockType height y)))
         (strataCalls worldX worldZ height).
Proof.
  unfold strataCalls. rewrite <- bind_singleton. apply writes_forRange.
  intros y _. apply writes_setBlock.
Qed.

Lemma generateChunkData_writes (chunkX chunkZ : Z) :
  Writes (generateChunkData noise2D chunkX chunkZ) (chunkCalls noise2D chunkX chunkZ).
Proof.
  unfold generateChunkData, chunkCalls.
  apply writes_forRange. intros x _.
  apply writes_forRange. intros z _. unfold columnCalls.
  cbv zeta.
  set (worldX := chunkX * CHUNK_SIZE + x).
  set (worldZ := chunkZ * CHUNK_SIZE + z).
  set (height := generateHeight noise2D worldX worldZ).
  intros w. destruct (_ && _).
  - rewrite applyCalls_app, <- (strata_writes worldX worldZ height w).
    apply generateTree_writes.
  - rewrite app_nil_r. apply strata_writes.
Qed.

End Generator.

(** * What a list of calls leaves in the world mapping *)

Lemma lookup_applyCall (wd : gmap BlockKey BlockType) (c : SetBlockCall) (k : BlockKey) :
  applyCall wd c !! k =
  if decide (c.1 = k) then (if decide (c.2 = AIR) then None else Some c.2)
  else wd !! k.
Proof.
  unfold applyCall. destruct (decide (c.1 = k)) as [<-|Hne].
  - destruct (decide (c.2 = AIR)).
    + apply lookup_delete_eq.
    + apply lookup_insert_eq.
  - destruct (decide (c.2 = AIR)).
    + by apply lookup_delete_ne.
    + by apply lookup_insert_ne.
Qed.

Lemma foldl_applyCall_snoc (wd : gmap BlockKey BlockType) (l : list SetBlockCall)
    (c : SetBlockCall) :
  foldl applyCall wd (l ++ [c]) = applyCall (foldl applyCall wd l) c.
Proof. by rewrite foldl_app. Qed.

(** A cell that no call addresses keeps its entry. *)
Lemma applyCalls_lookup_unwritten (calls : list SetBlockCall)
    (wd : gmap BlockKey BlockType) (k : BlockKey) :
  (∀ ty, (k, ty) ∉ calls) → foldl applyCall wd calls !! k = wd !! k.
Proof.
  induction calls as [|c l IH] using rev_ind; intros Hk; [done|].
  rewrite foldl_applyCall_snoc, lookup_applyCall.
  destruct (decide (c.1 = k)) as [<-|Hne].
  - exfalso. apply (Hk c.2). apply elem_of_app. right.
    destruct c. apply list_elem_of_here.
  - apply IH. intros ty Hin. apply (Hk ty), elem_of_app. by left.
Qed.

(** A cell that some call addresses ends with an entry that does not
    depend on the world the calls started from. *)
Lemma applyCalls_lookup_written (calls : list SetBlockCall)
    (wd wd' : gmap BlockKey BlockType) (k : BlockKey) (ty : BlockType) :
  (k, ty) ∈ calls →
  foldl applyCall wd calls !! k = foldl applyCall wd' calls !! k.
Proof.
  induction calls as [|c l IH] using rev_ind; intros Hk.
  - by apply elem_of_nil in Hk.
  - rewrite !foldl_applyCall_snoc, !lookup_applyCall.
    destruct (decide (c.1 = k)) as [<-|Hne]; [done|].
    apply IH. apply elem_of_app in Hk as [Hk|Hk]; [done|].
    apply list_elem_of_singleton in Hk. by subst c.
Qed.

(** When every call that addresses a cell gives it the same type, not
    [AIR], the cell ends with that type. *)
Lemma applyCalls_lookup_consistent (calls : list SetBlockCall)
    (wd : gmap BlockKey BlockType) (k : BlockKey) (ty : BlockType) :
  (k, ty) ∈ calls → ty ≠ AIR →
  (∀ ty', (k, ty') ∈ calls → ty' = ty) →
  foldl applyCall wd calls !! k = Some ty.
Proof.
  induction calls as [|c l IH] using rev_ind; intros Hk Hty Hsame.
  - by apply elem_of_nil in Hk.
  - rewrite foldl_applyCall_snoc, lookup_applyCall.
    destruct (decide (c.1 = k)) as [<-|Hne].
    + assert (c.2 = ty) as ->.
      { apply Hsame, elem_of_app. right. destruct c. apply list_elem_of_here. }
      by rewrite decide_False.
    + apply IH; [|done|].
      * apply elem_of_app in Hk as [Hk|Hk]; [done|].
        apply list_elem_of_singleton in Hk. by subst c.
      * intros ty' Hin. apply Hsame, elem_of_app. by left.
Qed.

(** When no call gives [AIR], a cell that some call addresses ends with
    the type of one of its calls. *)
Lemma applyCalls_lookup_some (calls : list SetBlockCall)
    (wd : gmap BlockKey BlockType) (k : BlockKey) (ty : BlockType) :
  (k, ty) ∈ calls → (∀ c, c ∈ calls → c.2 ≠ AIR) →
  ∃ ty', (k, ty') ∈ calls ∧ foldl applyCall wd calls !! k = Some ty'.
Proof.
  induction calls as [|c l IH] using rev_ind; intros Hk Hair.
  - by apply elem_of_nil in Hk.
  - rewrite foldl_applyCall_snoc, lookup_applyCall.
    destruct (decide (c.1 = k)) as [<-|Hne].
    + exists c.2. split.
      * apply elem_of_app. right. destruct c. apply list_elem_of_here.
      * rewrite decide_False; [done|]. apply Hair, elem_of_app. right.
        apply list_elem_of_here.
    + destruct IH as (ty' & Hin & Hl).
      * apply elem_of_app in Hk as [Hk|Hk]; [done|].
        apply list_elem_of_singleton in Hk. by subst c.
      * intros c' Hc'. apply Hair, elem_of_app. by left.
      * exists ty'. split; [|done]. apply elem_of_app. by left.
Qed.

(** * Tree shape *)

Lemma leafRadius_spec (top ly radius : Z) :
  leafRadius top ly = radius ↔
  (ly < top → radius = 2) ∧ (top ≤ ly → radius = 1).
Proof.
  unfold leafRadius. destruct (ly <? top) eqn:E.
  - apply Z.ltb_lt in E. split; [intros <-; split; [done|lia] | intros [H _]; symmetry; auto].
  - apply Z.ltb_ge in E. split; [intros <-; split; [lia|done] | intros [_ H]; symmetry; auto].
Qed.

Lemma elem_of_leafCallsAt (x y z t ly lx lz : Z) (c : SetBlockCall) :
  c ∈ leafCallsAt x y z t ly lx lz ↔
  ¬ (Z.abs lx = leafRadius (y + t) ly ∧ Z.abs lz = leafRadius (y + t) ly) ∧
  ¬ (lx = 0 ∧ lz = 0 ∧ ly < y + t) ∧
  c = ((x + lx, ly, z + lz), LEAVES).
Proof.
  unfold leafCallsAt. cbv zeta.
  destruct ((Z.abs lx =? _) && (Z.abs lz =? _)) eqn:Hcorner.
  { apply andb_true_iff in Hcorner as [H1%Z.eqb_eq H2%Z.eqb_eq].
    split; [by intros ?%elem_of_nil | intros [Hn _]; by destruct Hn]. }
  destruct ((lx =? 0) && (lz =? 0) && (ly <? y + t)) eqn:Hcentre.
  { apply andb_true_iff in Hcentre as [[H1%Z.eqb_eq H2%Z.eqb_eq]%andb_true_iff H3%Z.ltb_lt].
    split; [by intros ?%elem_of_nil | intros [_ [Hn _]]; by destruct Hn]. }
  rewrite list_elem_of_singleton. split; [|by intros (_ & _ & ->)].
  intros ->. split; [|split; [|done]].
  - intros [H1%Z.eqb_eq H2%Z.eqb_eq]. by rewrite H1, H2 in Hcorner.
  - intros (H1%Z.eqb_eq & H2%Z.eqb_eq & H3%Z.ltb_lt).
    by rewrite H1, H2, H3 in Hcentre.
Qed.

Section Trees.

Variable noise2D : Q → Q → Q.

Lemma elem_of_treeCalls (x y z : Z) (k : BlockKey) (ty : BlockType) :
  (k, ty) ∈ treeCalls noise2D x y z ↔
  (ty = WOOD ∧ trunkCell x y z (trunkHeightAt noise2D x z) k) ∨
  (ty = LEAVES ∧ leafCell x y z (trunkHeightAt noise2D x z) k).
Proof.
  unfold treeCalls. cbv zeta. set (t := trunkHeightAt noise2D x z).
  rewrite elem_of_app, list_elem_of_fmap. split.
  - intros [(i & [= -> ->] & Hi%elem_of_seqZ)|Hleaf].
    + left. split; [done|]. exists i. split; [lia|done].
    + right. apply list_elem_of_bind in Hleaf as (ly & Hleaf & Hly%elem_of_seqZ).
      apply list_elem_of_bind in Hleaf as (lx & Hleaf & Hlx%elem_of_seqZ).
      apply list_elem_of_bind in Hleaf as (lz & Hleaf & Hlz%elem_of_seqZ).
      apply elem_of_leafCallsAt in Hleaf as (Hcorner & Hcentre & [= -> ->]).
      split; [done|]. exists ly, lx, lz, (leafRadius (y + t) ly).
      pose proof (proj1 (leafRadius_spec (y + t) ly _) eq_refl) as [Hr2 Hr1].
      repeat split; try done; lia.
  - intros [[-> (i & Hi & ->)]|[-> (ly & lx & lz & radius & Hly & Hr2 & Hr1 & Hlx & Hlz & Hcorner & Hcentre & ->)]].
    + left. exists i. split; [done|]. apply elem_of_seqZ. lia.
    + right. assert (Hrad : leafRadius (y + t) ly = radius) by (by apply leafRadius_spec).
      apply list_elem_of_bind. exists ly. split; [|apply elem_of_seqZ; lia].
      apply list_elem_of_bind. exists lx. split; [|apply elem_of_seqZ; lia].
      apply list_elem_of_bind. exists lz. split; [|apply elem_of_seqZ; lia].
      apply elem_of_leafCallsAt. by rewrite Hrad.
Qed.

Lemma trunkCell_not_leafCell (x y z t : Z) (k : BlockKey) :
  trunkCell x y z t k → ¬ leafCell x y z t k.
Proof.
  intros (i & Hi & ->) (ly & lx & lz & radius & _ & _ & _ & _ & _ & _ & Hcentre & [= Hx Hy Hz]).
  apply Hcentre. lia.
Qed.

(** C8.  [generateTree] at root [(x, y, z)], with [trunkHeight = 4 +
    floor(noise2D(x * 10, z * 10) * 2 + 1)], makes exactly these
    [setBlock] calls: [WOOD] at the [trunkHeight] cells stacked from the
    root, and [LEAVES] at every cell of the leaf layers [ly], for
    [y + trunkHeight - 2 ≤ ly < y + trunkHeight + 2], with radius 2 below
    the trunk top [y + trunkHeight] and radius 1 from there on, at every
    offset of [-radius, radius]² except the four corners and except the
    centre column within trunk height.  Afterwards the trunk cells hold
    [WOOD], the leaf cells hold [LEAVES] and every other cell is as
    before. *)
Theorem C8_tree_shape (x y z : Z) (w : World) :
  let trunkHeight :=
    4 + Qfloor (noise2D (inject_Z x * 10) (inject_Z z * 10) * 2 + 1) in
  let w' := generateTree noise2D x y z w in
  let calls := newCalls w w' in
  setBlockCalls w' = setBlockCalls w ++ calls ∧
  (∀ k ty, (k, ty) ∈ calls ↔
           (ty = WOOD ∧ trunkCell x y z trunkHeight k) ∨
           (ty = LEAVES ∧ leafCell x y z trunkHeight k)) ∧
  (∀ k, trunkCell x y z trunkHeight k → worldData w' !! k = Some WOOD) ∧
  (∀ k, leafCell x y z trunkHeight k → worldData w' !! k = Some LEAVES) ∧
  (∀ k, ¬ trunkCell x y z trunkHeight k → ¬ leafCell x y z trunkHeight k →
        worldData w' !! k = worldData w !! k).
Proof.
  intros t w' calls. subst w' calls.
  change t with (trunkHeightAt noise2D x z). clear t.
  rewrite !(generateTree_writes noise2D x y z w), newCalls_applyCalls. simpl.
  split; [done|]. split; [apply elem_of_treeCalls|].
  split; [|split].
  - intros k Hk. apply applyCalls_lookup_consistent; [|done|].
    + apply elem_of_treeCalls. by left.
    + intros ty' [[-> _]|[_ Hleaf]]%elem_of_treeCalls; [done|].
      by apply trunkCell_not_leafCell in Hk.
  - intros k Hk. apply applyCalls_lookup_consistent; [|done|].
    + apply elem_of_treeCalls. by right.
    + intros ty' [[_ Htrunk]|[-> _]]%elem_of_treeCalls; [|done].
      by apply trunkCell_not_leafCell in Htrunk.
  - intros k Htrunk Hleaf. apply applyCalls_lookup_unwritten.
    intros ty [[_ ?]|[_ ?]]%elem_of_treeCalls; done.
Qed.

End Trees.

(** * Terrain strata *)

Lemma strataBlockType_cases (height y : Z) :
  (y = height → strataBlockType height y = GRASS) ∧
  (height - 3 < y < height → strataBlockType height y = DIRT) ∧
  (y ≤ height - 3 → strataBlockType height y = STONE).
Proof.
  unfold strataBlockType. split; [|split].
  - intros ->. by rewrite Z.eqb_refl.
  - intros Hy. destruct (y =? height) eqn:E; [apply Z.eqb_eq in E; lia|].
    destruct (height - 3 <? y) eqn:E'; [done|]. apply Z.ltb_ge in E'. lia.
  - intros Hy. destruct (y =? height) eqn:E; [apply Z.eqb_eq in E; lia|].
    destruct (height - 3 <? y) eqn:E'; [|done]. apply Z.ltb_lt in E'. lia.
Qed.

Lemma strataBlockType_strata (height y : Z) :
  strataBlockType height y = GRASS ∨ strataBlockType height y = DIRT ∨
  strataBlockType height y = STONE.
Proof.
  unfold strataBlockType. destruct (y =? height); [by left|].
  destruct (height - 3 <? y); [right; by left | right; by right].
Qed.

Lemma elem_of_strataCalls (worldX worldZ height : Z) (k : BlockKey) (ty : BlockType) :
  (k, ty) ∈ strataCalls worldX worldZ height ↔
  ∃ y, 0 ≤ y ≤ height ∧ k = (worldX, y, worldZ) ∧ ty = strataBlockType height y.
Proof.
  unfold strataCalls. rewrite list_elem_of_fmap. split.
  - intros (y & [= -> ->] & Hy%elem_of_seqZ). exists y. split; [lia|done].
  - intros (y & Hy & -> & ->). exists y. split; [done|]. apply elem_of_seqZ. lia.
Qed.

Section Terrain.

Variable noise2D : Q → Q → Q.

Lemma treeCalls_types (x y z : Z) (k : BlockKey) (ty : BlockType) :
  (k, ty) ∈ treeCalls noise2D x y z → ty = WOOD ∨ ty = LEAVES.
Proof. intros [[-> _]|[-> _]]%elem_of_treeCalls; [by left|by right]. Qed.

Lemma elem_of_columnCalls (worldX worldZ : Z) (c : SetBlockCall) :
  c ∈ columnCalls noise2D worldX worldZ ↔
  c ∈ strataCalls worldX worldZ (generateHeight noise2D worldX worldZ) ∨
  (shouldPlaceTree noise2D worldX worldZ
     && (5 <? generateHeight noise2D worldX worldZ) = true ∧
   c ∈ treeCalls noise2D worldX (generateHeight noise2D worldX worldZ + 1) worldZ).
Proof.
  unfold columnCalls. cbv zeta. rewrite elem_of_app.
  destruct (_ && _).
  - split; (intros [?|?]; [by left|right]); [done|by destruct H].
  - split; (intros [?|?]; [by left|]).
    + by apply elem_of_nil in H.
    + by destruct H.
Qed.

Lemma elem_of_chunkCalls (chunkX chunkZ : Z) (c : SetBlockCall) :
  c ∈ chunkCalls noise2D chunkX chunkZ ↔
  ∃ x z, 0 ≤ x < CHUNK_SIZE ∧ 0 ≤ z < CHUNK_SIZE ∧
         c ∈ columnCalls noise2D (chunkX * CHUNK_SIZE + x) (chunkZ * CHUNK_SIZE + z).
Proof.
  unfold chunkCalls. rewrite list_elem_of_bind. split.
  - intros (x & Hc & Hx%elem_of_seqZ).
    apply list_elem_of_bind in Hc as (z & Hc & Hz%elem_of_seqZ).
    exists x, z. split; [lia|]. split; [lia|done].
  - intros (x & z & Hx & Hz & Hc). exists x. split; [|apply elem_of_seqZ; lia].
    apply list_elem_of_bind. exists z. split; [done|]. apply elem_of_seqZ. lia.
Qed.

Lemma chunkCalls_not_air (chunkX chunkZ : Z) (c : SetBlockCall) :
  c ∈ chunkCalls noise2D chunkX chunkZ → c.2 ≠ AIR.
Proof.
  intros (x & z & _ & _ & Hc)%elem_of_chunkCalls. destruct c as [k ty]. simpl.
  apply elem_of_columnCalls in Hc as [Hc|[_ Hc]].
  - apply elem_of_strataCalls in Hc as (y & _ & _ & ->).
    destruct (strataBlockType_strata (generateHeight noise2D
      (chunkX * CHUNK_SIZE + x) (chunkZ * CHUNK_SIZE + z)) y) as [->|[->| ->]]; done.
  - apply treeCalls_types in Hc as [-> | ->]; done.
Qed.

(** The strata calls of the chunk are those of the column of the cell. *)
Lemma chunkCalls_strata (chunkX chunkZ x y z : Z) (ty : BlockType) :
  ((x, y, z), ty) ∈ chunkCalls noise2D chunkX chunkZ →
  ty = GRASS ∨ ty = DIRT ∨ ty = STONE →
  0 ≤ y ≤ generateHeight noise2D x z ∧
  ty = strataBlockType (generateHeight noise2D x z) y.
Proof.
  intros (x0 & z0 & _ & _ & Hc)%elem_of_chunkCalls Hty.
  apply elem_of_columnCalls in Hc as [Hc|[_ Hc]].
  - apply elem_of_strataCalls in Hc as (y' & Hy' & [= -> -> ->] & ->). done.
  - apply treeCalls_types in Hc as [-> | ->]; by destruct Hty as [?|[?|?]].
Qed.

Lemma chunkCalls_column (chunkX chunkZ x y z : Z) :
  chunkX * CHUNK_SIZE ≤ x < chunkX * CHUNK_SIZE + CHUNK_SIZE →
  chunkZ * CHUNK_SIZE ≤ z < chunkZ * CHUNK_SIZE + CHUNK_SIZE →
  0 ≤ y ≤ generateHeight noise2D x z →
  ((x, y, z), strataBlockType (generateHeight noise2D x z) y)
    ∈ chunkCalls noise2D chunkX chunkZ.
Proof.
  intros Hx Hz Hy. apply elem_of_chunkCalls.
  exists (x - chunkX * CHUNK_SIZE), (z - chunkZ * CHUNK_SIZE).
  split; [lia|]. split; [lia|].
  replace (chunkX * CHUNK_SIZE + (x - chunkX * CHUNK_SIZE)) with x by lia.
  replace (chunkZ * CHUNK_SIZE + (z - chunkZ * CHUNK_SIZE)) with z by lia.
  apply elem_of_columnCalls. left. apply elem_of_strataCalls. by exists y.
Qed.

(** C4.  For every column [(x, z)] of the footprint of chunk [(chunkX,
    chunkZ)], with [height = generateHeight x z]: [generateChunkData]
    calls [setBlock] on every cell [(x, y, z)] with [0 ≤ y ≤ height], with
    type [GRASS] when [y = height], [DIRT] when [height - 3 < y < height]
    and [STONE] otherwise; and every call that gives a cell of the column
    one of these three types is such a call: none is above [height] (nor
    below 0).  A cell of the strata that no tree call of this generation
    addresses holds its strata type afterwards. *)
Theorem C4_terrain_strata (chunkX chunkZ : Z) (w : World) :
  let w' := generateChunkData noise2D chunkX chunkZ w in
  let calls := newCalls w w' in
  setBlockCalls w' = setBlockCalls w ++ calls ∧
  ∀ x z,
    chunkX * CHUNK_SIZE ≤ x < chunkX * CHUNK_SIZE + CHUNK_SIZE →
    chunkZ * CHUNK_SIZE ≤ z < chunkZ * CHUNK_SIZE + CHUNK_SIZE →
    let height := generateHeight noise2D x z in
    (∀ y, 0 ≤ y ≤ height →
          ∃ ty, ((x, y, z), ty) ∈ calls ∧
                (y = height → ty = GRASS) ∧
                (height - 3 < y < height → ty = DIRT) ∧
                (y ≤ height - 3 → ty = STONE) ∧
                ((∀ ty', ((x, y, z), ty') ∈ calls → ty' ≠ WOOD ∧ ty' ≠ LEAVES) →
                 worldData w' !! (x, y, z) = Some ty)) ∧
    (∀ y ty, ((x, y, z), ty) ∈ calls →
             ty = GRASS ∨ ty = DIRT ∨ ty = STONE →
             0 ≤ y ≤ height ∧
             (y = height → ty = GRASS) ∧
             (height - 3 < y < height → ty = DIRT) ∧
             (y ≤ height - 3 → ty = STONE)).
Proof.
  intros w' calls. subst w' calls.
  rewrite !(generateChunkData_writes noise2D chunkX chunkZ w), newCalls_applyCalls.
  split; [done|]. intros x z Hx Hz height. split.
  - intros y Hy. exists (strataBlockType height y).
    destruct (strataBlockType_cases height y) as (Hg & Hd & Hs).
    split; [by apply chunkCalls_column|]. split; [done|]. split; [done|].
    split; [done|]. intros Hno.
    apply (applyCalls_lookup_consistent (chunkCalls noise2D chunkX chunkZ)); [by apply chunkCalls_column| |].
    + by destruct (strataBlockType_strata height y) as [->|[->| ->]].
    + intros ty' Hin. destruct (Hno ty' Hin) as [Hw Hl].
      apply (chunkCalls_strata chunkX chunkZ x y z ty' Hin).
      pose proof (chunkCalls_not_air _ _ _ Hin) as Hair. simpl in Hair.
      destruct ty'; auto; done.
  - intros y ty Hin Hty.
    destruct (chunkCalls_strata chunkX chunkZ x y z ty Hin Hty) as [Hy ->].
    split; [done|]. apply strataBlockType_cases.
Qed.

End Terrain.

(** * Reloading a chunk *)

Lemma getBlock_cell (wd : gmap BlockKey BlockType) (x y z : Z) :
  getBlock wd (inject_Z x) (inject_Z y) (inject_Z z) =
  match wd !! (x, y, z) with
  | Some t => t
  | None => AIR
  end.
Proof.
  unfold getBlock, getBlockKey. rewrite !Qfloor_Z.
  by destruct (wd !! (x, y, z)) as [[]|].
Qed.

Section Reload.

Variable noise2D : Q → Q → Q.

Lemma generateChunk_skip (cx cz : Z) (g : Game) :
  mapHas (cx, cz) (chunks g) = true → generateChunk noise2D cx cz g = g.
Proof. intros Hhas. unfold generateChunk. by rewrite Hhas. Qed.

Lemma world_generateChunk_fresh (cx cz : Z) (g : Game) :
  mapHas (cx, cz) (chunks g) = false →
  world (generateChunk noise2D cx cz g) = generateChunkData noise2D cx cz (world g).
Proof.
  intros Hhas. unfold generateChunk. rewrite Hhas.
  by destruct (buildChunkMesh _ cx cz (nextObjectId g)).
Qed.

(** C10 (amended).  [generateChunk] returns at once when the chunk key
    is loaded, and only then: on an unloaded key it runs
    [generateChunkData] on the world as it is.  So after [removeChunk],
    which keeps the world, a reload runs the generator over the retained
    voxel data.  It calls [setBlock] on every strata cell of the chunk
    with the strata type of the cell; whatever the cell held before
    (nothing, for a block the player broke), it then holds a block, the
    same that generation gives in an empty world, and its strata type
    unless a tree call of this generation addresses the cell.  A cell that
    no call of the generation addresses keeps its entry; for a cell of the
    footprint outside the strata range these are the cells without a tree
    call. *)
Theorem C10_reload_regenerates (cx cz : Z) (g : Game) (chunk : Chunk) :
  mapGet (cx, cz) (chunks g) = Some chunk →
  let unloaded := removeChunk cx cz g in
  let reloaded := generateChunk noise2D cx cz unloaded in
  let calls := newCalls (world g) (world reloaded) in
  generateChunk noise2D cx cz g = g ∧
  (∀ g0, mapHas (cx, cz) (chunks g0) = false →
         world (generateChunk noise2D cx cz g0) =
         generateChunkData noise2D cx cz (world g0)) ∧
  world unloaded = world g ∧
  world reloaded = generateChunkData noise2D cx cz (world g) ∧
  mapHas (cx, cz) (chunks reloaded) = true ∧
  (∀ x y z,
     cx * CHUNK_SIZE ≤ x < cx * CHUNK_SIZE + CHUNK_SIZE →
     cz * CHUNK_SIZE ≤ z < cz * CHUNK_SIZE + CHUNK_SIZE →
     let height := generateHeight noise2D x z in
     (0 ≤ y ≤ height →
      ((x, y, z), strataBlockType height y) ∈ calls ∧
      getBlock (worldData (world reloaded))
        (inject_Z x) (inject_Z y) (inject_Z z) ≠ AIR ∧
      worldData (world reloaded) !! (x, y, z) =
        worldData (generateChunkData noise2D cx cz emptyWorld) !! (x, y, z) ∧
      ((∀ ty, ((x, y, z), ty) ∈ calls → ty ≠ WOOD ∧ ty ≠ LEAVES) →
       getBlock (worldData (world reloaded))
         (inject_Z x) (inject_Z y) (inject_Z z) = strataBlockType height y)) ∧
     (¬ 0 ≤ y ≤ height →
      (∀ ty, ((x, y, z), ty) ∈ calls → ty ≠ WOOD ∧ ty ≠ LEAVES) →
      worldData (world reloaded) !! (x, y, z) = worldData (world g) !! (x, y, z))) ∧
  (∀ k, (∀ ty, (k, ty) ∉ calls) →
        worldData (world reloaded) !! k = worldData (world g) !! k).
Proof.
  intros Hget unloaded reloaded calls.
  assert (Hworld1 : world unloaded = world g).
  { subst unloaded. by rewrite (removeChunk_loaded _ _ _ _ Hget). }
  assert (Hhas1 : mapHas (cx, cz) (chunks unloaded) = false).
  { subst unloaded. rewrite (removeChunk_loaded _ _ _ _ Hget). simpl.
    apply mapHas_false, mapGet_mapDelete_eq. }
  assert (Hworld2 : world reloaded = applyCalls (chunkCalls noise2D cx cz) (world g)).
  { subst reloaded. rewrite world_generateChunk_fresh by done.
    rewrite Hworld1. apply generateChunkData_writes. }
  assert (Hcalls : calls = chunkCalls noise2D cx cz).
  { subst calls. rewrite Hworld2. apply newCalls_applyCalls. }
  split. { apply generateChunk_skip, mapHas_true. by eexists. }
  split. { intros g0. apply world_generateChunk_fresh. }
  split; [done|].
  split. { rewrite Hworld2. symmetry. apply generateChunkData_writes. }
  split. { apply mapHas_true. subst reloaded. apply generateChunk_loaded. }
  rewrite Hcalls, Hworld2. clear Hcalls Hworld2. split.
  - intros x y z Hx Hz height. split.
    + intros Hy.
      pose proof (chunkCalls_column noise2D cx cz x y z Hx Hz Hy) as Hin.
      fold height in Hin. split; [done|].
      destruct (applyCalls_lookup_some (chunkCalls noise2D cx cz)
                  (worldData (world g)) _ _ Hin (chunkCalls_not_air noise2D cx cz))
        as (ty' & Hin' & Hlook).
      split; [|split].
      * rewrite getBlock_cell. unfold applyCalls. cbn [worldData]. rewrite Hlook.
        apply (chunkCalls_not_air noise2D cx cz _ Hin').
      * rewrite (generateChunkData_writes noise2D cx cz emptyWorld).
        by apply (applyCalls_lookup_written _ _ _ _ _ Hin).
      * intros Hno. rewrite getBlock_cell. unfold applyCalls. cbn [worldData].
        rewrite Hlook. destruct (Hno ty' Hin') as [Hw Hl].
        apply (chunkCalls_strata noise2D cx cz x y z ty' Hin').
        pose proof (chunkCalls_not_air noise2D cx cz _ Hin') as Hair.
        simpl in Hair. destruct ty'; auto; done.
    + intros Hy Hno. apply applyCalls_lookup_unwritten. intros ty Hin.
      destruct (Hno ty Hin) as [Hw Hl].
      pose proof (chunkCalls_not_air noise2D cx cz _ Hin) as Hair. simpl in Hair.
      destruct (chunkCalls_strata noise2D cx cz x y z ty Hin) as [Hy' _]; [|done].
      destruct ty; auto; done.
  - intros k Hk. by apply applyCalls_lookup_unwritten.
Qed.

End Reload.

Lemma C10_reload_regenerates_witness :
  mapGet (0, 0) (chunks oneBlockGame) = Some stoneChunk ∧
  (let unloaded := removeChunk 0 0 oneBlockGame in
   let reloaded := generateChunk flatNoise 0 0 unloaded in
   let calls := newCalls (world oneBlockGame) (world reloaded) in
   generateChunk flatNoise 0 0 oneBlockGame = oneBlockGame ∧
   (∀ g0, mapHas (0, 0) (chunks g0) = false →
          world (generateChunk flatNoise 0 0 g0) =
          generateChunkData flatNoise 0 0 (world g0)) ∧
   world unloaded = world oneBlockGame ∧
   world reloaded = generateChunkData flatNoise 0 0 (world oneBlockGame) ∧
   mapHas (0, 0) (chunks reloaded) = true ∧
   (∀ x y z,
      0 * CHUNK_SIZE ≤ x < 0 * CHUNK_SIZE + CHUNK_SIZE →
      0 * CHUNK_SIZE ≤ z < 0 * CHUNK_SIZE + CHUNK_SIZE →
      let height := generateHeight flatNoise x z in
      (0 ≤ y ≤ height →
       ((x, y, z), strataBlockType height y) ∈ calls ∧
       getBlock (worldData (world reloaded))
         (inject_Z x) (inject_Z y) (inject_Z z) ≠ AIR ∧
       worldData (world reloaded) !! (x, y, z) =
         worldData (generateChunkData flatNoise 0 0 emptyWorld) !! (x, y, z) ∧
       ((∀ ty, ((x, y, z), ty) ∈ calls → ty ≠ WOOD ∧ ty ≠ LEAVES) →
        getBlock (worldData (world reloaded))
          (inject_Z x) (inject_Z y) (inject_Z z) = strataBlockType height y)) ∧
      (¬ 0 ≤ y ≤ height →
       (∀ ty, ((x, y, z), ty) ∈ calls → ty ≠ WOOD ∧ ty ≠ LEAVES) →
       worldData (world reloaded) !! (x, y, z) =
       worldData (world oneBlockGame) !! (x, y, z))) ∧
   (∀ k, (∀ ty, (k, ty) ∉ calls) →
         worldData (world reloaded) !! k = worldData (world oneBlockGame) !! k)).
Proof.
  split; [reflexivity|].
  exact (C10_reload_regenerates flatNoise 0 0 oneBlockGame stoneChunk eq_refl).
Defined.

(** * The mesher *)

Section Mesher.

Variable wd : gmap BlockKey BlockType.

Lemma collectBlocks_foldl (chunkX chunkZ : Z) :
  collectBlocks wd chunkX chunkZ = foldl (meshStep wd) ∅ (chunkCells chunkX chunkZ).
Proof.
  unfold collectBlocks, chunkCells, forRange. rewrite foldl_bind.
  apply foldl_ext_in. intros acc x _. rewrite foldl_bind.
  apply foldl_ext_in. intros acc' z _. by rewrite foldl_fmap.
Qed.

Lemma lookup_meshStep (bbt : gmap BlockType (list BlockKey)) (c : BlockKey)
    (t : BlockType) :
  meshStep wd bbt c !! t =
  if decide (shownAs wd t c) then Some (default [] (bbt !! t) ++ [c])
  else bbt !! t.
Proof.
  destruct c as [[x y] z]. unfold meshStep.
  set (ty := getBlock wd (inject_Z x) (inject_Z y) (inject_Z z)).
  destruct (decide (ty = AIR)) as [Hair|Hair].
  { rewrite decide_False; [done|]. intros (Hty & Hne & _). cbn in Hty.
    apply Hne. by rewrite <- Hty. }
  destruct (hasExposedFace wd x y z) eqn:Hexp; cbn [negb].
  2: { rewrite decide_False; [done|]. intros (_ & _ & Hs). cbn in Hs. congruence. }
  destruct (decide (ty = t)) as [<-|Hne].
  - rewrite decide_True by done. rewrite lookup_alter_eq.
    destruct (bbt !! ty) as [old|] eqn:Hold.
    + by rewrite Hold.
    + by rewrite lookup_insert_eq.
  - rewrite decide_False by (by intros (? & _)).
    rewrite lookup_alter_ne by done.
    destruct (bbt !! ty); [done|]. by rewrite lookup_insert_ne.
Qed.

Lemma lookup_collect (l : list BlockKey) (bbt : gmap BlockType (list BlockKey))
    (t : BlockType) :
  foldl (meshStep wd) bbt l !! t =
  if decide (filter (shownAs wd t) l = []) then bbt !! t
  else Some (default [] (bbt !! t) ++ filter (shownAs wd t) l).
Proof.
  revert bbt. induction l as [|c l IH]; intros bbt; [done|].
  cbn [foldl]. rewrite IH, lookup_meshStep, filter_cons.
  destruct (decide (shownAs wd t c)) as [Hs|Hs].
  - rewrite (decide_False (P := _ :: _ = [])) by done. cbn [default].
    destruct (decide (filter (shownAs wd t) l = [])) as [->|_]; [done|].
    unfold id. by rewrite <- app_assoc.
  - done.
Qed.

Lemma lookup_collectBlocks (chunkX chunkZ : Z) (t : BlockType) :
  collectBlocks wd chunkX chunkZ !! t =
  if decide (filter (shownAs wd t) (chunkCells chunkX chunkZ) = []) then None
  else Some (filter (shownAs wd t) (chunkCells chunkX chunkZ)).
Proof. rewrite collectBlocks_foldl, lookup_collect. by rewrite lookup_empty. Qed.

Lemma meshOfEntry_foldl (chunkX chunkZ : Z) (es : list (BlockType * list BlockKey))
    (ms : list Mesh) (id : nat) :
  batchEntry <$> (foldl (meshOfEntry chunkX chunkZ) (ms, id) es).1 =
  (batchEntry <$> ms) ++ filter (λ e, e.2 ≠ []) es.
Proof.
  revert ms id. induction es as [|[t b] es IH]; intros ms id.
  - simpl. by rewrite app_nil_r.
  - cbn [foldl meshOfEntry]. destruct b as [|c b]; cbn [length Nat.eqb].
    + rewrite IH. by rewrite filter_cons_False by (by intros ?).
    + rewrite IH, fmap_app, <- app_assoc. by rewrite filter_cons_True.
Qed.

Lemma buildChunkMesh_entries (chunkX chunkZ : Z) (nextId : nat) :
  batchEntry <$> (buildChunkMesh wd chunkX chunkZ nextId).1 =
  filter (λ e, e.2 ≠ []) (objectEntries (collectBlocks wd chunkX chunkZ)).
Proof.
  unfold buildChunkMesh. cbv zeta.
  change (foldl _ ([], nextId) ?es) with (foldl (meshOfEntry chunkX chunkZ) ([], nextId) es).
  by rewrite meshOfEntry_foldl.
Qed.

End Mesher.

Lemma elem_of_chunkCells (chunkX chunkZ x y z : Z) :
  (x, y, z) ∈ chunkCells chunkX chunkZ ↔
  chunkX * CHUNK_SIZE ≤ x < chunkX * CHUNK_SIZE + CHUNK_SIZE ∧
  chunkZ * CHUNK_SIZE ≤ z < chunkZ * CHUNK_SIZE + CHUNK_SIZE ∧
  0 ≤ y < CHUNK_HEIGHT.
Proof.
  unfold chunkCells. rewrite list_elem_of_bind. split.
  - intros (a & Hc & Ha%elem_of_seqZ).
    apply list_elem_of_bind in Hc as (b & Hc & Hb%elem_of_seqZ).
    apply list_elem_of_fmap in Hc as (c & [= -> -> ->] & Hc%elem_of_seqZ). lia.
  - intros (Hx & Hz & Hy). exists (x - chunkX * CHUNK_SIZE).
    split; [|apply elem_of_seqZ; lia].
    apply list_elem_of_bind. exists (z - chunkZ * CHUNK_SIZE).
    split; [|apply elem_of_seqZ; lia].
    apply list_elem_of_fmap. exists y. split; [|apply elem_of_seqZ; lia].
    f_equal; [f_equal|]; lia.
Qed.

Lemma NoDup_chunkCells (chunkX chunkZ : Z) : NoDup (chunkCells chunkX chunkZ).
Proof.
  unfold chunkCells. apply NoDup_bind; [| |apply NoDup_seqZ].
  - intros x1 x2 c _ _ H1 H2.
    apply list_elem_of_bind in H1 as (z1 & H1 & _).
    apply list_elem_of_bind in H2 as (z2 & H2 & _).
    apply list_elem_of_fmap in H1 as (y1 & -> & _).
    apply list_elem_of_fmap in H2 as (y2 & [= Hx _ _] & _). lia.
  - intros x _. apply NoDup_bind; [| |apply NoDup_seqZ].
    + intros z1 z2 c _ _ H1 H2.
      apply list_elem_of_fmap in H1 as (y1 & -> & _).
      apply list_elem_of_fmap in H2 as (y2 & [= _ Hz] & _). lia.
    + intros z _. apply NoDup_fmap_2_strong; [|apply NoDup_seqZ].
      by intros y1 y2 _ _ [= ->].
Qed.

Lemma filter_eq_not_elem_of {A : Type} `{EqDecision A} (l : list A) (a : A) :
  a ∉ l → filter (λ c, c = a) l = [].
Proof.
  induction l as [|b l IH]; [done|]. intros Hnot.
  rewrite filter_cons_False.
  - apply IH. intros Hin. by apply Hnot, list_elem_of_further.
  - intros ->. apply Hnot, list_elem_of_here.
Qed.

Lemma filter_eq_NoDup {A : Type} `{EqDecision A} (l : list A) (a : A) :
  NoDup l → a ∈ l → length (filter (λ c, c = a) l) = 1%nat.
Proof.
  induction 1 as [|b l Hb Hl IH]; [by intros ?%elem_of_nil|].
  intros [->|Hin]%elem_of_cons.
  - rewrite filter_cons_True by done. simpl. f_equal.
    by rewrite filter_eq_not_elem_of.
  - rewrite filter_cons_False by (intros ->; done). by apply IH.
Qed.

Lemma filter_eq_filter {A : Type} `{EqDecision A} (P : A → Prop)
    `{∀ x, Decision (P x)} (l : list A) (a : A) :
  filter (λ c, c = a) (filter P l) =
  if decide (P a) then filter (λ c, c = a) l else [].
Proof.
  induction l as [|b l IH]; [rewrite !filter_nil; destruct (decide _); reflexivity|].
  destruct (decide (P b)) as [Hb|Hb].
  - rewrite (filter_cons_True P) by done.
    destruct (decide (b = a)) as [->|Hne].
    + rewrite !filter_cons_True by done. rewrite IH. by rewrite !decide_True.
    + rewrite !(filter_cons_False (λ c, c = a)) by done. apply IH.
  - rewrite (filter_cons_False P) by done. rewrite IH.
    destruct (decide (P a)) as [Ha|Ha]; [|done].
    rewrite filter_cons_False; [done|]. by intros ->.
Qed.

Lemma hasExposedFace_true (wd : gmap BlockKey BlockType) (x y z : Z) :
  hasExposedFace wd x y z = true ↔ hasAirNeighbour wd x y z.
Proof.
  unfold hasExposedFace, hasAirNeighbour.
  rewrite !orb_true_iff, !bool_decide_eq_true. tauto.
Qed.

Lemma elem_of_objectEntries {A : Type} (o : gmap BlockType A) (t : BlockType) (v : A) :
  (t, v) ∈ objectEntries o ↔ o !! t = Some v.
Proof.
  unfold objectEntries. rewrite list_elem_of_omap. split.
  - intros (t' & _ & Heq). destruct (o !! t') as [v'|] eqn:E; [|done].
    simpl in Heq. by injection Heq as -> ->.
  - intros Hv. exists t. split.
    + destruct t; repeat constructor.
    + by rewrite Hv.
Qed.

Section MesherCorrect.

Variable wd : gmap BlockKey BlockType.
Variables chunkX chunkZ : Z.

Lemma batch_entry (nextId : nat) (t : BlockType) (b : list BlockKey) :
  (∃ m, m ∈ (buildChunkMesh wd chunkX chunkZ nextId).1 ∧
        meshBlockType m = t ∧ blocks m = b) ↔
  b ≠ [] ∧ b = filter (shownAs wd t) (chunkCells chunkX chunkZ).
Proof.
  assert (Hentry : (t, b) ∈ batchEntry <$> (buildChunkMesh wd chunkX chunkZ nextId).1 ↔
                   b ≠ [] ∧ b = filter (shownAs wd t) (chunkCells chunkX chunkZ)).
  { rewrite buildChunkMesh_entries, list_elem_of_filter, elem_of_objectEntries.
    rewrite lookup_collectBlocks. cbn [snd].
    destruct (decide (filter (shownAs wd t) (chunkCells chunkX chunkZ) = []))
      as [Hnil|Hnil].
    - split; [by intros [_ ?]|]. intros [Hb ->]. done.
    - split; [intros [Hb [= <-]]; done|]. intros [Hb ->]. done. }
  rewrite <- Hentry, list_elem_of_fmap. unfold batchEntry. split.
  - intros (m & Hm & <- & <-). by exists m.
  - intros (m & [= -> ->] & Hm). by exists m.
Qed.

Lemma occurrences_entries (c : BlockKey) (ts : list BlockType) :
  length (filter (λ c', c' = c)
            (filter (λ e : BlockType * list BlockKey, e.2 ≠ [])
               (omap (λ t, (λ v, (t, v)) <$> collectBlocks wd chunkX chunkZ !! t) ts)
             ≫= snd)) =
  sum_list ((λ t, length (filter (λ c', c' = c)
                            (filter (shownAs wd t) (chunkCells chunkX chunkZ))))
              <$> ts).
Proof.
  induction ts as [|t ts IH]; [done|].
  cbn [omap list_omap fmap list_fmap sum_list sum_list_with].
  rewrite lookup_collectBlocks.
  destruct (decide (filter (shownAs wd t) (chunkCells chunkX chunkZ) = []))
    as [Hnil|Hnil].
  - cbn [fmap option_fmap option_map]. unfold id.
    rewrite Hnil, filter_nil. cbn [length]. by rewrite Nat.add_0_l.
  - cbn [fmap option_fmap option_map]. unfold id.
    rewrite filter_cons_True by done. rewrite bind_cons, filter_app, length_app.
    cbn [snd]. f_equal. apply IH.
Qed.

Lemma occurrences_shown (nextId : nat) (c : BlockKey) (ty : BlockType) :
  c ∈ chunkCells chunkX chunkZ → shownAs wd ty c →
  occurrences c (buildChunkMesh wd chunkX chunkZ nextId).1 = 1%nat.
Proof.
  intros Hc Hs. unfold occurrences.
  replace ((buildChunkMesh wd chunkX chunkZ nextId).1 ≫= blocks)
    with ((batchEntry <$> (buildChunkMesh wd chunkX chunkZ nextId).1) ≫= snd)
    by (by rewrite list_fmap_bind).
  rewrite buildChunkMesh_entries. unfold objectEntries.
  rewrite occurrences_entries.
  assert (Hone : ∀ t,
    length (filter (λ c', c' = c)
              (filter (shownAs wd t) (chunkCells chunkX chunkZ))) =
    if decide (t = ty) then 1%nat else 0%nat).
  { intros t. rewrite filter_eq_filter.
    destruct (decide (t = ty)) as [->|Hne].
    - rewrite decide_True by done.
      apply filter_eq_NoDup; [apply NoDup_chunkCells|done].
    - rewrite decide_False; [done|]. intros (Ht & _). apply Hne.
      destruct Hs as (Hty & _). congruence. }
  cbn [fmap list_fmap]. rewrite !Hone.
  destruct Hs as (_ & Hair & _). by destruct ty.
Qed.

(** C2.  For every voxel of the footprint and height range of a chunk
    whose type is not [AIR]: it is listed in a batch of [buildChunkMesh]
    if and only if at least one of its six face-adjacent neighbours
    resolves to [AIR]; when it is, it is listed exactly once over all the
    batches and every batch that lists it has the block type of the voxel;
    when all six neighbours are not [AIR], no batch lists it. *)
Theorem C2_face_culling (nextId : nat) (x y z : Z) :
  let batches := (buildChunkMesh wd chunkX chunkZ nextId).1 in
  let ty := getBlock wd (inject_Z x) (inject_Z y) (inject_Z z) in
  chunkX * CHUNK_SIZE ≤ x < chunkX * CHUNK_SIZE + CHUNK_SIZE →
  chunkZ * CHUNK_SIZE ≤ z < chunkZ * CHUNK_SIZE + CHUNK_SIZE →
  0 ≤ y < CHUNK_HEIGHT →
  ty ≠ AIR →
  ((∃ m, m ∈ batches ∧ (x, y, z) ∈ blocks m) ↔ hasAirNeighbour wd x y z) ∧
  (hasAirNeighbour wd x y z →
   occurrences (x, y, z) batches = 1%nat ∧
   (∃ m, m ∈ batches ∧ (x, y, z) ∈ blocks m ∧ meshBlockType m = ty) ∧
   ∀ m, m ∈ batches → (x, y, z) ∈ blocks m → meshBlockType m = ty) ∧
  (¬ hasAirNeighbour wd x y z →
   ∀ m, m ∈ batches → (x, y, z) ∉ blocks m).
Proof.
  intros batches ty Hx Hz Hy Hty.
  assert (Hcell : (x, y, z) ∈ chunkCells chunkX chunkZ)
    by (by apply elem_of_chunkCells).
  assert (Hlisted : ∀ m, m ∈ batches → (x, y, z) ∈ blocks m →
                         meshBlockType m = ty ∧ hasAirNeighbour wd x y z).
  { intros m Hm Hin.
    assert (Hb : blocks m ≠ [] ∧
                 blocks m = filter (shownAs wd (meshBlockType m))
                              (chunkCells chunkX chunkZ)).
    { apply (batch_entry nextId). by exists m. }
    destruct Hb as [_ Hb]. rewrite Hb in Hin.
    apply list_elem_of_filter in Hin as [(Ht & _ & Hexp) _].
    split; [by symmetry|]. by apply hasExposedFace_true. }
  assert (Hshown : hasAirNeighbour wd x y z → shownAs wd ty (x, y, z)).
  { intros Hexp. split; [done|]. split; [done|]. by apply hasExposedFace_true. }
  assert (Hbatch : hasAirNeighbour wd x y z →
                   ∃ m, m ∈ batches ∧ (x, y, z) ∈ blocks m ∧ meshBlockType m = ty).
  { intros Hexp%Hshown.
    assert (Hin : (x, y, z) ∈ filter (shownAs wd ty) (chunkCells chunkX chunkZ))
      by (by apply list_elem_of_filter).
    destruct (proj2 (batch_entry nextId ty
                (filter (shownAs wd ty) (chunkCells chunkX chunkZ))))
      as (m & Hm & Hmt & Hmb).
    { split; [|done]. intros Hnil. rewrite Hnil in Hin.
      by apply elem_of_nil in Hin. }
    exists m. split; [done|]. split; [by rewrite Hmb|done]. }
  split; [|split].
  - split.
    + intros (m & Hm & Hin). by apply (Hlisted m).
    + intros (m & Hm & Hin & _)%Hbatch. by exists m.
  - intros Hexp. split; [|split].
    + by apply (occurrences_shown nextId _ ty), Hshown.
    + by apply Hbatch.
    + intros m Hm Hin. by apply (Hlisted m).
  - intros Hnot m Hm Hin. apply Hnot. by apply (Hlisted m).
Qed.

End MesherCorrect.

Lemma C2_face_culling_witness :
  (0 * CHUNK_SIZE ≤ 0 < 0 * CHUNK_SIZE + CHUNK_SIZE) ∧
  (0 ≤ 0 < CHUNK_HEIGHT) ∧
  getBlock (worldData (world oneBlockGame))
    (inject_Z 0) (inject_Z 0) (inject_Z 0) ≠ AIR ∧
  (let wd := worldData (world oneBlockGame) in
   let batches := (buildChunkMesh wd 0 0 7).1 in
   let ty := getBlock wd (inject_Z 0) (inject_Z 0) (inject_Z 0) in
   ((∃ m, m ∈ batches ∧ (0, 0, 0) ∈ blocks m) ↔ hasAirNeighbour wd 0 0 0) ∧
   (hasAirNeighbour wd 0 0 0 →
    occurrences (0, 0, 0) batches = 1%nat ∧
    (∃ m, m ∈ batches ∧ (0, 0, 0) ∈ blocks m ∧ meshBlockType m = ty) ∧
    ∀ m, m ∈ batches → (0, 0, 0) ∈ blocks m → meshBlockType m = ty) ∧
   (¬ hasAirNeighbour wd 0 0 0 →
    ∀ m, m ∈ batches → (0, 0, 0) ∉ blocks m)).
Proof.
  assert (Hxz : 0 * CHUNK_SIZE ≤ 0 < 0 * CHUNK_SIZE + CHUNK_SIZE)
    by (vm_compute; split; [discriminate|reflexivity]).
  assert (Hy : 0 ≤ 0 < CHUNK_HEIGHT)
    by (vm_compute; split; [discriminate|reflexivity]).
  assert (Hty : getBlock (worldData (world oneBlockGame))
                  (inject_Z 0) (inject_Z 0) (inject_Z 0) ≠ AIR)
    by (vm_compute; discriminate).
  split; [exact Hxz|]. split; [exact Hy|]. split; [exact Hty|].
  exact (C2_face_culling (worldData (world oneBlockGame)) 0 0 7 0 0 0
           Hxz Hxz Hy Hty).
Defined.

(** * Well-formedness of the chunk table is an invariant *)

Lemma mapSet_wellFormed (cx cz : Z) (ms : list Mesh) (m : list (ChunkKey * Chunk)) :
  chunksWellFormed m → chunksWellFormed (mapSet (cx, cz) (mkChunk ms cx cz) m).
Proof.
  intros Hwf k c. destruct (decide (k = (cx, cz))) as [->|Hne].
  - rewrite mapGet_mapSet_eq. by intros [= <-].
  - rewrite mapGet_mapSet_ne by done. apply Hwf.
Qed.

Lemma newGame_wellFormed : chunksWellFormed (chunks newGame).
Proof. by intros k c. Qed.

Lemma rebuildChunk_wellFormed (cx cz : Z) (g : Game) :
  chunksWellFormed (chunks g) → chunksWellFormed (chunks (rebuildChunk cx cz g)).
Proof.
  intros Hwf. unfold rebuildChunk.
  destruct (match mapGet (cx, cz) (chunks g) with
            | Some chunk => releaseMeshes (meshes chunk) (scene g) (disposeCalls g)
            | None => (scene g, disposeCalls g)
            end) as [scene1 disposed].
  destruct (buildChunkMesh (worldData (world g)) cx cz (nextObjectId g)) as [ms next].
  by apply mapSet_wellFormed.
Qed.

Lemma removeChunk_wellFormed (cx cz : Z) (g : Game) :
  chunksWellFormed (chunks g) → chunksWellFormed (chunks (removeChunk cx cz g)).
Proof.
  intros Hwf. unfold removeChunk.
  destruct (mapGet (cx, cz) (chunks g)) as [chunk|]; [|done].
  destruct (releaseMeshes (meshes chunk) (scene g) (disposeCalls g)).
  by apply mapDelete_wellFormed.
Qed.

Lemma breakBlock_wellFormed (g : Game) :
  chunksWellFormed (chunks g) → chunksWellFormed (chunks (breakBlock g)).
Proof.
  intros Hwf. unfold breakBlock. destruct (selectedBlock g) as [sel|]; [|done].
  destruct (chunkOfPos (position sel)) as [cx cz]. by apply rebuildChunk_wellFormed.
Qed.

Lemma placeBlock_wellFormed (intersects : list Intersection) (g : Game) :
  chunksWellFormed (chunks g) →
  chunksWellFormed (chunks (placeBlock intersects g)).
Proof.
  intros Hwf. unfold placeBlock.
  destruct (selectedBlock g) as [sel|]; [|done].
  destruct (match getSelectedBlockCount g with
            | Some c => c <=? 0
            | None => false
            end); [done|].
  destruct intersects as [|hit rest]; [done|].
  destruct (boxesIntersect _ _ _ _); [done|].
  destruct (getSelectedBlockType g) as [blockType|]; [|done].
  destruct (removeFromInventory blockType 1 (inventory g)) as [inv [|]]; [|done].
  destruct (chunkOfPos _) as [cx cz]. by apply rebuildChunk_wellFormed.
Qed.

Section ChunkInvariant.

Variable noise2D : Q → Q → Q.

Lemma updateChunksWithin_wellFormed (r : Z) (g : Game) :
  chunksWellFormed (chunks g) →
  chunksWellFormed (chunks (updateChunksWithin noise2D r g)).
Proof.
  intros Hwf. unfold updateChunksWithin.
  destruct (playerChunkOf g) as [cx cz]. rewrite loadNeeded_foldl.
  pose proof (loadStep_foldl noise2D cx cz (squareOffsets r) ∅ g) as Hload.
  destruct (foldl (loadStep noise2D cx cz) (∅, g) (squareOffsets r)) as [needed g1].
  cbn [fst snd] in Hload. destruct Hload as (_ & _ & _ & L4 & _).
  unfold mapForEach.
  change (foldl _ g1 (chunks g1)) with (foldl (unloadStep needed) g1 (chunks g1)).
  by destruct (unloadStep_foldl needed (chunks g1) g1 (L4 Hwf)) as (U1 & _).
Qed.

End ChunkInvariant.

(** * The model on concrete inputs *)

Example generateHeight_flat : generateHeight flatNoise 3 (-7) = 10.
Proof. reflexivity. Qed.

Example strata_flat :
  let wd := worldData (generateChunkData flatNoise 0 0 emptyWorld) in
  (getBlock wd 5 11 5, getBlock wd 5 10 5, getBlock wd 5 9 5,
   getBlock wd 5 8 5, getBlock wd 5 7 5, getBlock wd 5 0 5, getBlock wd 16 3 5)
  = (AIR, GRASS, DIRT, DIRT, STONE, STONE, AIR).
Proof. vm_compute. reflexivity. Qed.

Example generateChunkData_flat_calls :
  length (setBlockCalls (generateChunkData flatNoise 0 0 emptyWorld)) = 2816%nat.
Proof. vm_compute. reflexivity. Qed.

Example generateTree_flat :
  let w := generateTree flatNoise 0 11 0 emptyWorld in
  trunkHeightAt flatNoise 0 0 = 5 ∧
  length (setBlockCalls w) = 55%nat ∧
  (getBlock (worldData w) 0 15 0, getBlock (worldData w) 0 16 0,
   getBlock (worldData w) 2 14 2, getBlock (worldData w) 2 14 1,
   getBlock (worldData w) 1 16 1, getBlock (worldData w) 1 17 0,
   getBlock (worldData w) 0 18 0)
  = (WOOD, LEAVES, AIR, LEAVES, AIR, LEAVES, AIR).
Proof. vm_compute. repeat split; reflexivity. Qed.

Example tree_on_raised_ground :
  let w := generateChunkData treeNoise 0 0 emptyWorld in
  generateHeight treeNoise 0 0 = 16 ∧
  shouldPlaceTree treeNoise 0 7 = true ∧
  shouldPlaceTree treeNoise 1 7 = false ∧
  trunkHeightAt treeNoise 0 7 = 7 ∧
  (getBlock (worldData w) 0 16 7, getBlock (worldData w) 0 17 7,
   getBlock (worldData w) 0 23 7, getBlock (worldData w) 0 24 7,
   getBlock (worldData w) (-2) 22 7)
  = (GRASS, WOOD, WOOD, LEAVES, LEAVES).
Proof. vm_compute. repeat split; reflexivity. Qed.

Example buildChunkMesh_flat :
  (λ m, (meshId m, meshBlockType m, length (blocks m))) <$>
    (buildChunkMesh (worldData (generateChunkData flatNoise 0 0 emptyWorld)) 0 0 7).1
  = [(7%nat, DIRT, 120%nat); (8%nat, GRASS, 256%nat); (9%nat, STONE, 676%nat)].
Proof. vm_compute. reflexivity. Qed.

Example updateChunksWithin_moves :
  let far := withPlayer (mkVec3 40 20 0) (mkVec3 0 0 0) false oneBlockGame in
  let g := updateChunksWithin flatNoise 1 far in
  playerChunkOf far = (2, 0) ∧
  (chunks g).*1 = [(1, -1); (1, 0); (1, 1); (2, -1); (2, 0); (2, 1);
                   (3, -1); (3, 0); (3, 1)] ∧
  length (scene g) = 27%nat ∧ disposeCalls g = 1%nat.
Proof. vm_compute. repeat split; reflexivity. Qed.

Example breakBlock_grass :
  let g := generateChunk flatNoise 0 0 newGame in
  let g := mkGame (world g) (chunks g) (scene g) (nextObjectId g) (disposeCalls g)
             (inventory g) (Some (mkSelectedBlock (mkVec3 0 10 0) GRASS)) 1
             (cameraPosition g) (velocity g) (canJump g) (isLocked g)
             false false false false false in
  let g' := breakBlock g in
  inventory g' GRASS = Some 1 ∧
  worldData (world g') !! (0, 10, 0) = None ∧
  worldData (world g) !! (0, 10, 0) = Some GRASS ∧
  disposeCalls g' = 3%nat.
Proof. vm_compute. repeat split; reflexivity. Qed.

Example free_fall_step :
  let g := updatePlayer keepVector 0.1 (mkVec3 1 0 0) newGame in
  (Qeq_bool (vy (cameraPosition g)) 19.7, Qeq_bool (vy (velocity g)) (-3), canJump g)
  = (true, true, false).
Proof. vm_compute. reflexivity. Qed.

Example landing_step :
  let g := updatePlayer keepVector 0.1 (mkVec3 1 0 0) landingGame in
  (Qeq_bool (vy (cameraPosition g)) 2.8, Qeq_bool (vy (velocity g)) 0, canJump g)
  = (true, true, true).
Proof. vm_compute. reflexivity. Qed.

(** C10 as stated fails for a block the player placed where the
    generator puts the leaves of a tree: cell (2,22,0) is above its column
    of height 16, holds the player's Dirt block before the unload, and
    holds the regenerated leaves after the reload. *)
Lemma C10_placed_block_in_tree_counterexample :
  let g := dirtInTreeGame in
  let reloaded := generateChunk treeNoise 0 0 (removeChunk 0 0 g) in
  mapHas (0, 0) (chunks g) = true ∧
  generateHeight treeNoise 2 0 = 16 ∧
  worldData (world g) !! (2, 22, 0) = Some DIRT ∧
  worldData (world reloaded) !! (2, 22, 0) = Some LEAVES.
Proof. vm_compute. repeat split; reflexivity. Qed.

Example addToInventory_negative_count :
  addToInventory DIRT (-1) initialInventory DIRT = Some (-1).
Proof. reflexivity. Qed.

(** * Further properties of the voxel store *)

Lemma worldData_setBlock_applyCall (x y z : Q) (t : BlockType) (w : World) :
  worldData (setBlock x y z t w) = applyCall (worldData w) (getBlockKey x y z, t).
Proof. by rewrite worldData_setBlock. Qed.

(** X1.  Reading a cell after a write: [getBlock] after [setBlock x y z
    t] returns [t] at every point of the cell that was written ([AIR]
    when [t] is [AIR]), and what it returned before at every other
    point. *)
Theorem X1_getBlock_after_setBlock
    (x y z x' y' z' : Q) (t : BlockType) (w : World) :
  getBlock (worldData (setBlock x y z t w)) x' y' z' =
  if decide (getBlockKey x' y' z' = getBlockKey x y z) then t
  else getBlock (worldData w) x' y' z'.
Proof.
  unfold getBlock. rewrite worldData_setBlock_applyCall, lookup_applyCall.
  cbn [fst snd].
  destruct (decide (getBlockKey x' y' z' = getBlockKey x y z)) as [->|Hne].
  - rewrite decide_True by done. destruct (decide (t = AIR)) as [->|Ht]; [done|].
    by destruct t.
  - by rewrite decide_False.
Qed.

Lemma setBlock_overwrites (x y z x' y' z' : Q) (t t' : BlockType) (w : World) :
  getBlockKey x' y' z' = getBlockKey x y z →
  worldData (setBlock x' y' z' t' (setBlock x y z t w)) =
  worldData (setBlock x' y' z' t' w).
Proof.
  intros Hkey. apply map_eq. intros k.
  rewrite !worldData_setBlock_applyCall, !lookup_applyCall. cbn [fst snd].
  rewrite Hkey. by destruct (decide (getBlockKey x y z = k)).
Qed.

(** X2.  How two writes compose: a write to a cell makes an earlier write
    to the same cell invisible in the world mapping, and writes to two
    different cells give the same mapping in either order. *)
Theorem X2_setBlock_composition (w : World) :
  (∀ x y z x' y' z' t t',
     getBlockKey x' y' z' = getBlockKey x y z →
     worldData (setBlock x' y' z' t' (setBlock x y z t w)) =
     worldData (setBlock x' y' z' t' w)) ∧
  (∀ x y z x' y' z' t t',
     getBlockKey x' y' z' ≠ getBlockKey x y z →
     worldData (setBlock x' y' z' t' (setBlock x y z t w)) =
     worldData (setBlock x y z t (setBlock x' y' z' t' w))).
Proof.
  split.
  - intros x y z x' y' z' t t'. apply setBlock_overwrites.
  - intros x y z x' y' z' t t' Hkey. apply map_eq. intros k.
    rewrite !worldData_setBlock_applyCall, !lookup_applyCall. cbn [fst snd].
    destruct (decide (getBlockKey x' y' z' = k)) as [Heq'|Hne'];
      destruct (decide (getBlockKey x y z = k)) as [Heq|Hne]; try done.
    destruct Hkey. by rewrite Heq, Heq'.
Qed.

Lemma Qfloor_cell (x : Q) (i : Z) :
  Qfloor x = i ↔ (inject_Z i <= x ∧ x < inject_Z i + 1)%Q.
Proof.
  split.
  - intros <-. split; [apply Qfloor_le|].
    pose proof (Qlt_floor x) as Hlt. by rewrite inject_Z_plus in Hlt.
  - intros [Hlo Hhi].
    assert (i ≤ Qfloor x).
    { rewrite <- (Qfloor_Z i). by apply Qfloor_resp_le. }
    assert (Qfloor x < i + 1).
    { rewrite Zlt_Qlt, inject_Z_plus.
      eapply Qle_lt_trans; [apply Qfloor_le|exact Hhi]. }
    lia.
Qed.

(** X3.  The cell of a point: a point is addressed under the key
    [(i, j, k)] exactly when it lies in the unit cube from [(i, j, k)] to
    [(i + 1, j + 1, k + 1)], lower faces included and upper faces
    excluded, also for negative coordinates; and [getBlock] at a point is
    [getBlock] at the integer origin of its cell. *)
Theorem X3_cell_of_point (x y z : Q) (i j k : Z) :
  (getBlockKey x y z = (i, j, k) ↔
   (inject_Z i <= x ∧ x < inject_Z i + 1)%Q ∧
   (inject_Z j <= y ∧ y < inject_Z j + 1)%Q ∧
   (inject_Z k <= z ∧ z < inject_Z k + 1)%Q) ∧
  (∀ wd, getBlock wd x y z =
         getBlock wd (Math_floor x) (Math_floor y) (Math_floor z)).
Proof.
  split.
  - rewrite <- !Qfloor_cell. unfold getBlockKey. split.
    + by intros [= -> -> ->].
    + by intros (-> & -> & ->).
  - intros wd. unfold getBlock. by rewrite getBlockKey_floor.
Qed.

(** * Further properties of the generator *)

Lemma getBlock_applyCall_keeps (wd : gmap BlockKey BlockType) (c : SetBlockCall)
    (x y z : Q) :
  c.2 ≠ AIR → getBlock wd x y z ≠ AIR → getBlock (applyCall wd c) x y z ≠ AIR.
Proof.
  intros Hc. unfold getBlock. rewrite lookup_applyCall.
  destruct (decide (c.1 = getBlockKey x y z)); [|done].
  rewrite decide_False by done. intros _. by destruct (c.2).
Qed.

Lemma getBlock_applyCalls_keeps (calls : list SetBlockCall)
    (wd : gmap BlockKey BlockType) (x y z : Q) :
  (∀ c, c ∈ calls → c.2 ≠ AIR) →
  getBlock wd x y z ≠ AIR → getBlock (foldl applyCall wd calls) x y z ≠ AIR.
Proof.
  revert wd. induction calls as [|c calls IH]; intros wd Hcalls Hwd; [done|].
  cbn [foldl]. apply IH.
  - intros c' Hc'. by apply Hcalls, list_elem_of_further.
  - apply getBlock_applyCall_keeps; [|done]. apply Hcalls, list_elem_of_here.
Qed.

Lemma noAirEntry_applyCalls (calls : list SetBlockCall)
    (wd : gmap BlockKey BlockType) :
  noAirEntry wd → noAirEntry (foldl applyCall wd calls).
Proof.
  revert wd. induction calls as [|c calls IH]; intros wd Hwd; [done|].
  cbn [foldl]. apply IH. intros k. rewrite lookup_applyCall.
  destruct (decide (c.1 = k)); [|apply Hwd].
  destruct (decide (c.2 = AIR)); [done|]. congruence.
Qed.

Lemma world_removeChunk (cx cz : Z) (g : Game) :
  world (removeChunk cx cz g) = world g.
Proof.
  unfold removeChunk. destruct (mapGet (cx, cz) (chunks g)) as [chunk|]; [|done].
  by destruct (releaseMeshes (meshes chunk) (scene g) (disposeCalls g)).
Qed.

Lemma world_unloadStep (needed : gset ChunkKey) (acc : Game) (e : ChunkKey * Chunk) :
  world (unloadStep needed acc e) = world acc.
Proof.
  unfold unloadStep. destruct (mapGet e.1 (chunks acc)) as [chunk|]; [|done].
  destruct (negb _); [apply world_removeChunk|done].
Qed.

Lemma world_unloadStep_foldl (needed : gset ChunkKey) (l : list (ChunkKey * Chunk))
    (acc : Game) :
  world (foldl (unloadStep needed) acc l) = world acc.
Proof.
  revert acc. induction l as [|e l IH]; intros acc; [done|].
  cbn [foldl]. by rewrite IH, world_unloadStep.
Qed.

Lemma Qfloor_bounds (q : Q) (a b : Z) :
  (inject_Z a <= q)%Q → (q <= inject_Z b)%Q → a ≤ Qfloor q ≤ b.
Proof.
  intros Ha Hb. split.
  - rewrite <- (Qfloor_Z a). by apply Qfloor_resp_le.
  - rewrite <- (Qfloor_Z b). by apply Qfloor_resp_le.
Qed.

Section GeneratorMore.

Variable noise2D : Q → Q → Q.

(** X4.  The generator never removes a block: none of the [setBlock]
    calls of [generateChunkData] has type [AIR], so a point that held a
    block before still holds one afterwards (its type may have changed),
    and a world mapping without [AIR] entries stays one. *)
Theorem X4_generation_keeps_blocks (chunkX chunkZ : Z) (w : World) :
  let w' := generateChunkData noise2D chunkX chunkZ w in
  (∀ c, c ∈ newCalls w w' → c.2 ≠ AIR) ∧
  (∀ x y z, getBlock (worldData w) x y z ≠ AIR →
            getBlock (worldData w') x y z ≠ AIR) ∧
  (noAirEntry (worldData w) → noAirEntry (worldData w')).
Proof.
  intros w'. subst w'.
  rewrite !(generateChunkData_writes noise2D chunkX chunkZ w), newCalls_applyCalls.
  split; [apply chunkCalls_not_air|]. split.
  - intros x y z. apply getBlock_applyCalls_keeps, chunkCalls_not_air.
  - apply noAirEntry_applyCalls.
Qed.

Lemma chunkCalls_footprint (chunkX chunkZ x y z : Z) (ty : BlockType) :
  ((x, y, z), ty) ∈ chunkCalls noise2D chunkX chunkZ →
  chunkX * CHUNK_SIZE - 2 ≤ x < chunkX * CHUNK_SIZE + CHUNK_SIZE + 2 ∧
  chunkZ * CHUNK_SIZE - 2 ≤ z < chunkZ * CHUNK_SIZE + CHUNK_SIZE + 2.
Proof.
  intros (x0 & z0 & Hx0 & Hz0 & Hc)%elem_of_chunkCalls.
  apply elem_of_columnCalls in Hc as [Hc|[_ Hc]].
  - apply elem_of_strataCalls in Hc as (y' & _ & [= -> -> ->] & _). lia.
  - apply elem_of_treeCalls in Hc as [[_ (i & _ & [= -> -> ->])]|[_ Hleaf]]; [lia|].
    destruct Hleaf as (ly & lx & lz & radius & _ & Hr2 & Hr1 & Hlx & Hlz & _ & _
                       & [= -> -> ->]).
    assert (radius ≤ 2) by (destruct (Z.lt_ge_cases ly
      (generateHeight noise2D (chunkX * CHUNK_SIZE + x0) (chunkZ * CHUNK_SIZE + z0)
       + 1 + trunkHeightAt noise2D (chunkX * CHUNK_SIZE + x0)
               (chunkZ * CHUNK_SIZE + z0))); [rewrite Hr2|rewrite Hr1]; lia).
    lia.
Qed.

(** X5.  Where generation writes: every [setBlock] call of
    [generateChunkData] for chunk [(chunkX, chunkZ)] addresses a column of
    the 16 x 16 footprint of the chunk or one at most 2 columns outside of
    it (the canopy of a tree near the border); every cell further out
    keeps its entry. *)
Theorem X5_generation_footprint (chunkX chunkZ : Z) (w : World) :
  let w' := generateChunkData noise2D chunkX chunkZ w in
  (∀ x y z ty, ((x, y, z), ty) ∈ newCalls w w' →
     chunkX * CHUNK_SIZE - 2 ≤ x < chunkX * CHUNK_SIZE + CHUNK_SIZE + 2 ∧
     chunkZ * CHUNK_SIZE - 2 ≤ z < chunkZ * CHUNK_SIZE + CHUNK_SIZE + 2) ∧
  (∀ x y z,
     ¬ (chunkX * CHUNK_SIZE - 2 ≤ x < chunkX * CHUNK_SIZE + CHUNK_SIZE + 2 ∧
        chunkZ * CHUNK_SIZE - 2 ≤ z < chunkZ * CHUNK_SIZE + CHUNK_SIZE + 2) →
     worldData w' !! (x, y, z) = worldData w !! (x, y, z)).
Proof.
  intros w'. subst w'.
  rewrite !(generateChunkData_writes noise2D chunkX chunkZ w), newCalls_applyCalls.
  split; [apply chunkCalls_footprint|].
  intros x y z Hout. apply applyCalls_lookup_unwritten.
  intros ty Hin. by apply Hout, (chunkCalls_footprint _ _ _ y _ ty).
Qed.

(** X6.  Generating a chunk twice gives the same world mapping as
    generating it once: the generator reads nothing from the world, and
    the last write to a cell decides its entry. *)
Theorem X6_generation_idempotent (chunkX chunkZ : Z) (w : World) :
  worldData (generateChunkData noise2D chunkX chunkZ
               (generateChunkData noise2D chunkX chunkZ w)) =
  worldData (generateChunkData noise2D chunkX chunkZ w).
Proof.
  rewrite (generateChunkData_writes noise2D chunkX chunkZ
             (generateChunkData noise2D chunkX chunkZ w)).
  rewrite (generateChunkData_writes noise2D chunkX chunkZ w).
  set (calls := chunkCalls noise2D chunkX chunkZ).
  unfold applyCalls. cbn [worldData]. apply map_eq. intros k.
  destruct (decide (k ∈ calls.*1)) as [Hin|Hout].
  - apply list_elem_of_fmap in Hin as ([k' ty] & -> & Hin).
    by apply (applyCalls_lookup_written calls _ _ _ ty).
  - apply applyCalls_lookup_unwritten. intros ty Hin. apply Hout.
    apply list_elem_of_fmap. by exists (k, ty).
Qed.

Lemma generateHeight_bounded (x z : Z) :
  noiseBounded noise2D → 4 ≤ generateHeight noise2D x z ≤ 16.
Proof.
  intros Hn. unfold generateHeight. cbv zeta.
  set (q1 := noise2D _ _). set (q2 := noise2D _ _).
  pose proof (Hn (inject_Z x * 0.015)%Q (inject_Z z * 0.015)%Q) as H1.
  pose proof (Hn (inject_Z x * 0.04)%Q (inject_Z z * 0.04)%Q) as H2.
  fold q1 in H1. fold q2 in H2.
  apply Qfloor_bounds.
  - change (inject_Z 4) with 4%Q. lra.
  - change (inject_Z 16) with 16%Q. lra.
Qed.

Lemma trunkHeightAt_bounded (x z : Z) :
  noiseBounded noise2D → 3 ≤ trunkHeightAt noise2D x z ≤ 7.
Proof.
  intros Hn. unfold trunkHeightAt.
  set (q := noise2D _ _).
  pose proof (Hn (inject_Z x * 10)%Q (inject_Z z * 10)%Q) as H1. fold q in H1.
  assert (-1 ≤ Qfloor (q * 2 + 1) ≤ 3); [|lia].
  apply Qfloor_bounds.
  - change (inject_Z (-1)) with (-1)%Q. lra.
  - change (inject_Z 3) with 3%Q. lra.
Qed.

(** X7.  With a noise field in [-1, 1] (the range of simplex noise):
    every column is between 4 and 16 high, every trunk between 3 and 7,
    and every [setBlock] call of [generateChunkData] addresses a layer
    from 0 to 25, inside the height range [0, CHUNK_HEIGHT) that the
    mesher scans. *)
Theorem X7_generated_heights (chunkX chunkZ : Z) (w : World) :
  noiseBounded noise2D →
  (∀ x z, 4 ≤ generateHeight noise2D x z ≤ 16) ∧
  (∀ x z, 3 ≤ trunkHeightAt noise2D x z ≤ 7) ∧
  (∀ x y z ty,
     ((x, y, z), ty) ∈ newCalls w (generateChunkData noise2D chunkX chunkZ w) →
     0 ≤ y ≤ 25 ∧ y < CHUNK_HEIGHT).
Proof.
  intros Hn.
  split; [intros x z; by apply generateHeight_bounded|].
  split; [intros x z; by apply trunkHeightAt_bounded|].
  rewrite (generateChunkData_writes noise2D chunkX chunkZ w), newCalls_applyCalls.
  intros x y z ty (x0 & z0 & _ & _ & Hc)%elem_of_chunkCalls.
  set (worldX := chunkX * CHUNK_SIZE + x0) in *.
  set (worldZ := chunkZ * CHUNK_SIZE + z0) in *.
  pose proof (generateHeight_bounded worldX worldZ Hn) as Hh.
  pose proof (trunkHeightAt_bounded worldX worldZ Hn) as Ht.
  unfold CHUNK_HEIGHT.
  apply elem_of_columnCalls in Hc as [Hc|[Htree Hc]].
  - apply elem_of_strataCalls in Hc as (y' & Hy' & [= -> -> ->] & _). lia.
  - apply andb_true_iff in Htree as [_ Hhigh%Z.ltb_lt].
    apply elem_of_treeCalls in Hc as [[_ (i & Hi & [= -> -> ->])]|[_ Hleaf]]; [lia|].
    destruct Hleaf as (ly & lx & lz & radius & Hly & _ & _ & _ & _ & _ & _
                       & [= -> -> ->]).
    lia.
Qed.

Lemma shouldPlaceTree_grid (x z : Z) :
  shouldPlaceTree noise2D x z = true → (7 | x) ∧ (7 | z).
Proof.
  unfold shouldPlaceTree. cbv zeta.
  intros [[_ Hx%Z.eqb_eq]%andb_true_iff Hz%Z.eqb_eq]%andb_true_iff.
  split; by apply Z.rem_divide.
Qed.

Lemma treeCalls_column (x y z : Z) (k : BlockKey) (ty : BlockType) :
  (k, ty) ∈ treeCalls noise2D x y z →
  x - 2 ≤ k.1.1 ≤ x + 2 ∧ z - 2 ≤ k.2 ≤ z + 2.
Proof.
  intros [[_ (i & _ & ->)]|[_ Hleaf]]%elem_of_treeCalls; [simpl; lia|].
  destruct Hleaf as (ly & lx & lz & radius & _ & Hr2 & Hr1 & Hlx & Hlz & _ & _ & ->).
  assert (radius ≤ 2) by (destruct (Z.lt_ge_cases ly
    (y + trunkHeightAt noise2D x z)); [rewrite Hr2|rewrite Hr1]; lia).
  simpl. lia.
Qed.

(** X8.  Trees stand on a grid: [shouldPlaceTree] holds only on columns
    whose two coordinates are multiples of 7, so two different tree
    columns are at least 7 apart along one axis, and no cell is written by
    the [generateTree] calls of both (whatever their root heights): trunks
    and canopies of different trees never touch the same cell. *)
Theorem X8_trees_apart (x z x' z' : Z) :
  shouldPlaceTree noise2D x z = true →
  shouldPlaceTree noise2D x' z' = true →
  (x, z) ≠ (x', z') →
  (Z.rem x 7 = 0 ∧ Z.rem z 7 = 0) ∧
  (7 ≤ Z.abs (x - x') ∨ 7 ≤ Z.abs (z - z')) ∧
  (∀ y y' w w' k ty ty',
     (k, ty) ∈ newCalls w (generateTree noise2D x y z w) →
     (k, ty') ∈ newCalls w' (generateTree noise2D x' y' z' w') → False).
Proof.
  intros H1 H2 Hne.
  destruct (shouldPlaceTree_grid _ _ H1) as [[a Ha] [b Hb]].
  destruct (shouldPlaceTree_grid _ _ H2) as [[a' Ha'] [b' Hb']].
  assert (Hfar : 7 ≤ Z.abs (x - x') ∨ 7 ≤ Z.abs (z - z')).
  { destruct (decide (x = x')) as [->|Hx].
    - right. assert (z ≠ z') by congruence. lia.
    - left. lia. }
  split; [|split; [done|]].
  - split; apply Z.rem_divide; try done; [by exists a|by exists b].
  - intros y y' w w' k ty ty'.
    rewrite (generateTree_writes noise2D x y z w), newCalls_applyCalls.
    rewrite (generateTree_writes noise2D x' y' z' w'), newCalls_applyCalls.
    intros Hk%treeCalls_column Hk'%treeCalls_column. lia.
Qed.

End GeneratorMore.

Lemma flatNoise_bounded : noiseBounded flatNoise.
Proof. intros a b. unfold flatNoise. split; discriminate. Qed.

Lemma X7_generated_heights_witness :
  noiseBounded flatNoise ∧
  (∀ x z, 4 ≤ generateHeight flatNoise x z ≤ 16) ∧
  (∀ x z, 3 ≤ trunkHeightAt flatNoise x z ≤ 7) ∧
  (∀ x y z ty,
     ((x, y, z), ty) ∈ newCalls emptyWorld (generateChunkData flatNoise 0 0 emptyWorld) →
     0 ≤ y ≤ 25 ∧ y < CHUNK_HEIGHT).
Proof.
  split; [exact flatNoise_bounded|].
  exact (X7_generated_heights flatNoise 0 0 emptyWorld flatNoise_bounded).
Defined.

Lemma X8_trees_apart_witness :
  shouldPlaceTree treeNoise 0 0 = true ∧
  shouldPlaceTree treeNoise 0 7 = true ∧
  (0, 0) ≠ (0, 7) ∧
  (Z.rem 0 7 = 0 ∧ Z.rem 0 7 = 0) ∧
  (7 ≤ Z.abs (0 - 0) ∨ 7 ≤ Z.abs (0 - 7)) ∧
  (∀ y y' w w' k ty ty',
     (k, ty) ∈ newCalls w (generateTree treeNoise 0 y 0 w) →
     (k, ty') ∈ newCalls w' (generateTree treeNoise 0 y' 7 w') → False).
Proof.
  assert (H1 : shouldPlaceTree treeNoise 0 0 = true) by reflexivity.
  assert (H2 : shouldPlaceTree treeNoise 0 7 = true) by reflexivity.
  assert (H3 : (0, 0) ≠ (0, 7)) by discriminate.
  split; [exact H1|]. split; [exact H2|]. split; [exact H3|].
  exact (X8_trees_apart treeNoise 0 0 0 7 H1 H2 H3).
Defined.

(** * Further properties of the chunk manager *)

Lemma mapHas_key_elem_of {K V : Type} `{EqDecision K} (k : K) (m : list (K * V)) :
  mapHas k m = true ↔ k ∈ m.*1.
Proof.
  unfold mapHas. induction m as [|[k' v'] m IH]; simpl.
  - split; [done|]. by intros ?%elem_of_nil.
  - destruct (decide (k' = k)) as [->|Hne].
    + split; [|done]. intros _. apply list_elem_of_here.
    + rewrite IH. split.
      * intros Hin. by apply list_elem_of_further.
      * intros [->|Hin]%elem_of_cons; done.
Qed.

Lemma cameraPosition_removeChunk (cx cz : Z) (g : Game) :
  cameraPosition (removeChunk cx cz g) = cameraPosition g.
Proof.
  unfold removeChunk. destruct (mapGet (cx, cz) (chunks g)) as [chunk|]; [|done].
  by destruct (releaseMeshes (meshes chunk) (scene g) (disposeCalls g)).
Qed.

Lemma cameraPosition_unloadStep_foldl (needed : gset ChunkKey)
    (l : list (ChunkKey * Chunk)) (acc : Game) :
  cameraPosition (foldl (unloadStep needed) acc l) = cameraPosition acc.
Proof.
  revert acc. induction l as [|e l IH]; intros acc; [done|].
  cbn [foldl]. rewrite IH. unfold unloadStep.
  destruct (mapGet e.1 (chunks acc)) as [chunk|]; [|done].
  destruct (negb _); [apply cameraPosition_removeChunk|done].
Qed.

(** A pass of the callback of lines 576-580 over entries whose keys are
    all needed removes nothing. *)
Lemma unloadStep_foldl_needed (needed : gset ChunkKey) (l : list (ChunkKey * Chunk))
    (acc : Game) :
  (∀ e, e ∈ l → e.1 ∈ needed) → foldl (unloadStep needed) acc l = acc.
Proof.
  induction l as [|e l IH]; intros Hl; [done|].
  cbn [foldl].
  assert (unloadStep needed acc e = acc) as ->.
  { unfold unloadStep. destruct (mapGet e.1 (chunks acc)); [|done].
    rewrite bool_decide_eq_true_2; [done|]. apply Hl, list_elem_of_here. }
  apply IH. intros e' He'. by apply Hl, list_elem_of_further.
Qed.

Section ChunksMore.

Variable noise2D : Q → Q → Q.

Lemma cameraPosition_generateChunk (cx cz : Z) (g : Game) :
  cameraPosition (generateChunk noise2D cx cz g) = cameraPosition g.
Proof.
  unfold generateChunk. destruct (mapHas (cx, cz) (chunks g)); [done|].
  by destruct (buildChunkMesh _ cx cz (nextObjectId g)).
Qed.

Lemma loadStep_foldl_snd (cx cz : Z) (l : list (Z * Z)) (needed : gset ChunkKey)
    (g : Game) :
  (foldl (loadStep noise2D cx cz) (needed, g) l).2 = foldl (generateStep noise2D cx cz) g l.
Proof.
  revert needed g. induction l as [|p l IH]; intros needed g; [done|].
  cbn [foldl]. unfold loadStep at 2. cbn [fst snd]. apply IH.
Qed.

Lemma generateInitialChunks_foldl (g : Game) :
  generateInitialChunks noise2D g =
  foldl (generateStep noise2D (playerChunkOf g).1 (playerChunkOf g).2) g
        (squareOffsets RENDER_DISTANCE).
Proof.
  unfold generateInitialChunks, squareOffsets. cbv zeta.
  generalize RENDER_DISTANCE. intros r. by rewrite forRange_nested.
Qed.

Lemma generateInitialChunks_loadNeeded (g : Game) :
  generateInitialChunks noise2D g =
  (loadNeeded noise2D RENDER_DISTANCE (playerChunkOf g).1 (playerChunkOf g).2 g).2.
Proof.
  rewrite generateInitialChunks_foldl, loadNeeded_foldl.
  generalize RENDER_DISTANCE. intros r. by rewrite loadStep_foldl_snd.
Qed.

Lemma cameraPosition_generateStep_foldl (cx cz : Z) (l : list (Z * Z)) (g : Game) :
  cameraPosition (foldl (generateStep noise2D cx cz) g l) = cameraPosition g.
Proof.
  revert g. induction l as [|p l IH]; intros g; [done|].
  cbn [foldl]. rewrite IH. apply cameraPosition_generateChunk.
Qed.

(** Loading chunks that are all loaded already changes nothing. *)
Lemma generateStep_foldl_loaded (cx cz : Z) (l : list (Z * Z)) (g : Game) :
  (∀ p, p ∈ l → mapHas (cx + p.1, cz + p.2) (chunks g) = true) →
  foldl (generateStep noise2D cx cz) g l = g.
Proof.
  induction l as [|p l IH]; intros Hl; [done|].
  cbn [foldl]. unfold generateStep at 2.
  rewrite generateChunk_skip by apply Hl, list_elem_of_here.
  apply IH. intros q Hq. by apply Hl, list_elem_of_further.
Qed.

Lemma updateChunksWithin_unfold (r : Z) (g : Game) :
  updateChunksWithin noise2D r g =
  let res := foldl (loadStep noise2D (playerChunkOf g).1 (playerChunkOf g).2)
                   (∅, g) (squareOffsets r) in
  foldl (unloadStep res.1) res.2 (chunks res.2).
Proof.
  unfold updateChunksWithin. destruct (playerChunkOf g) as [cx cz].
  rewrite loadNeeded_foldl. cbn [fst snd].
  by destruct (foldl (loadStep noise2D cx cz) (∅, g) (squareOffsets r)).
Qed.

Lemma playerChunkOf_updateChunksWithin (r : Z) (g : Game) :
  playerChunkOf (updateChunksWithin noise2D r g) = playerChunkOf g.
Proof.
  unfold playerChunkOf. rewrite updateChunksWithin_unfold. cbv zeta.
  by rewrite cameraPosition_unloadStep_foldl, loadStep_foldl_snd,
    cameraPosition_generateStep_foldl.
Qed.

(** The loaded set after a run is the square around the player. *)
Lemma updateChunksWithin_loaded (r : Z) (g : Game) (x z : Z) :
  chunksWellFormed (chunks g) →
  mapHas (x, z) (chunks (updateChunksWithin noise2D r g)) = true ↔
  Z.abs (x - (playerChunkOf g).1) ≤ r ∧ Z.abs (z - (playerChunkOf g).2) ≤ r.
Proof.
  intros Hwf. rewrite updateChunksWithin_unfold. cbv zeta.
  destruct (playerChunkOf g) as [cx cz]. cbn [fst snd].
  pose proof (loadStep_foldl noise2D cx cz (squareOffsets r) ∅ g) as Hload.
  destruct (foldl (loadStep noise2D cx cz) (∅, g) (squareOffsets r)) as [needed g1].
  cbn [fst snd] in *. destruct Hload as (L1 & L2 & _ & L4 & _).
  destruct (unloadStep_foldl needed (chunks g1) g1 (L4 Hwf))
    as (_ & U2 & U3 & U4 & _).
  assert (Hneeded : (x, z) ∈ needed ↔
                    Z.abs (x - cx) ≤ r ∧ Z.abs (z - cz) ≤ r).
  { rewrite L1, <- inSquare_iff. split; [|by right].
    by intros [?%not_elem_of_empty|?]. }
  rewrite <- Hneeded, mapHas_true. split.
  - intros Hsome. destruct (decide ((x, z) ∈ needed)) as [|Hout]; [done|].
    exfalso. destruct (mapGet (x, z) (chunks g1)) as [c|] eqn:Hg1.
    + apply mapGet_key_elem_of in Hg1. rewrite (U4 _ Hout Hg1) in Hsome.
      by destruct Hsome.
    + rewrite (U3 _ Hg1) in Hsome. by destruct Hsome.
  - intros Hin. rewrite (U2 _ Hin). apply L2. right.
    by apply L1 in Hin as [?%not_elem_of_empty|?].
Qed.

(** A game whose loaded set is the square around the player is a fixed
    point of the run. *)
Lemma updateChunksWithin_fixpoint (r : Z) (g : Game) :
  (∀ x z, mapHas (x, z) (chunks g) = true ↔
          Z.abs (x - (playerChunkOf g).1) ≤ r ∧
          Z.abs (z - (playerChunkOf g).2) ≤ r) →
  updateChunksWithin noise2D r g = g.
Proof.
  intros Hsq. rewrite updateChunksWithin_unfold. cbv zeta.
  destruct (playerChunkOf g) as [cx cz]. cbn [fst snd] in *.
  pose proof (loadStep_foldl noise2D cx cz (squareOffsets r) ∅ g) as Hload.
  pose proof (loadStep_foldl_snd cx cz (squareOffsets r) ∅ g) as Hsnd.
  destruct (foldl (loadStep noise2D cx cz) (∅, g) (squareOffsets r)) as [needed g1].
  cbn [fst snd] in *. destruct Hload as (L1 & _).
  rewrite generateStep_foldl_loaded in Hsnd.
  2: { intros p Hp. apply Hsq. apply inSquare_iff. by exists p. }
  subst g1. apply unloadStep_foldl_needed.
  intros [[x z] c] He. cbn [fst]. apply L1. right. apply inSquare_iff, Hsq.
  apply mapHas_key_elem_of, list_elem_of_fmap. by exists ((x, z), c).
Qed.

(** X9.  Loading is idempotent.  [generateChunk] on a chunk it has just
    loaded and [removeChunk] on a chunk it has just unloaded change
    nothing; and with an unmoved camera, a second run of [updateChunks]
    right after the first changes nothing (no chunk is generated, meshed,
    unloaded or disposed of again). *)
Theorem X9_updateChunks_idempotent (g : Game) :
  chunksWellFormed (chunks g) →
  (∀ cx cz, generateChunk noise2D cx cz (generateChunk noise2D cx cz g) =
            generateChunk noise2D cx cz g) ∧
  (∀ cx cz, removeChunk cx cz (removeChunk cx cz g) = removeChunk cx cz g) ∧
  updateChunks noise2D (updateChunks noise2D g) = updateChunks noise2D g.
Proof.
  intros Hwf. split; [|split].
  - intros cx cz. apply generateChunk_skip, mapHas_true, generateChunk_loaded.
  - intros cx cz. destruct (mapGet (cx, cz) (chunks g)) as [chunk|] eqn:Hget.
    + rewrite (removeChunk_loaded _ _ _ _ Hget). unfold removeChunk at 1.
      cbn [withRender chunks]. by rewrite mapGet_mapDelete_eq.
    + unfold removeChunk. by rewrite !Hget.
  - unfold updateChunks. generalize RENDER_DISTANCE. intros r.
    apply updateChunksWithin_fixpoint. intros x z.
    rewrite playerChunkOf_updateChunksWithin.
    by apply updateChunksWithin_loaded.
Qed.

Lemma generateStep_foldl_loaded_set (cx cz : Z) (l : list (Z * Z)) (g : Game) :
  let g' := foldl (generateStep noise2D cx cz) g l in
  (∀ k, mapHas k (chunks g') = true ↔
        mapHas k (chunks g) = true ∨ ∃ p, p ∈ l ∧ k = (cx + p.1, cz + p.2)) ∧
  (∀ k c, mapGet k (chunks g) = Some c → mapGet k (chunks g') = Some c).
Proof.
  intros g'. subst g'. rewrite <- (loadStep_foldl_snd cx cz l ∅ g).
  destruct (loadStep_foldl noise2D cx cz l ∅ g) as (_ & L2 & L3 & _).
  split; [|done]. intros k. by rewrite !mapHas_true.
Qed.

(** X10.  [generateInitialChunks] is the load phase of [updateChunks]:
    it loads every chunk of the 9 x 9 square around the camera's chunk
    that is not loaded yet and keeps every entry of the chunk table that
    was there.  Started on the empty table of the constructor, it leaves
    exactly the square loaded, and a run of [updateChunks] from there
    finds nothing to do. *)
Theorem X10_generateInitialChunks (g : Game) :
  let g' := generateInitialChunks noise2D g in
  let cx := (playerChunkOf g).1 in
  let cz := (playerChunkOf g).2 in
  g' = (loadNeeded noise2D RENDER_DISTANCE cx cz g).2 ∧
  (∀ x z, mapHas (x, z) (chunks g') = true ↔
          mapHas (x, z) (chunks g) = true ∨
          Z.abs (x - cx) ≤ RENDER_DISTANCE ∧ Z.abs (z - cz) ≤ RENDER_DISTANCE) ∧
  (∀ k c, mapGet k (chunks g) = Some c → mapGet k (chunks g') = Some c) ∧
  (chunks g = [] → updateChunks noise2D g' = g').
Proof.
  intros g' cx cz.
  split; [apply generateInitialChunks_loadNeeded|].
  subst g'. rewrite generateInitialChunks_foldl. fold cx cz.
  unfold updateChunks. generalize RENDER_DISTANCE. intros r.
  destruct (generateStep_foldl_loaded_set cx cz (squareOffsets r) g) as [G1 G2].
  assert (Hset : ∀ x z,
    mapHas (x, z) (chunks (foldl (generateStep noise2D cx cz) g (squareOffsets r))) = true ↔
    mapHas (x, z) (chunks g) = true ∨ Z.abs (x - cx) ≤ r ∧ Z.abs (z - cz) ≤ r).
  { intros x z. by rewrite G1, inSquare_iff. }
  split; [done|]. split; [done|].
  intros Hempty. apply updateChunksWithin_fixpoint. intros x z.
  unfold playerChunkOf at 1 2. rewrite cameraPosition_generateStep_foldl.
  fold (playerChunkOf g). fold cx cz. rewrite Hset, Hempty.
  split; [by intros [?|?]|by right].
Qed.

Lemma generateChunk_keeps_blocks (cx cz : Z) (g : Game) (x y z : Q) :
  getBlock (worldData (world g)) x y z ≠ AIR →
  getBlock (worldData (world (generateChunk noise2D cx cz g))) x y z ≠ AIR.
Proof.
  intros Hb. destruct (mapHas (cx, cz) (chunks g)) eqn:Hhas.
  - by rewrite generateChunk_skip.
  - rewrite world_generateChunk_fresh by done.
    rewrite (generateChunkData_writes noise2D cx cz (world g)).
    unfold applyCalls. cbn [worldData].
    apply getBlock_applyCalls_keeps; [apply chunkCalls_not_air|done].
Qed.

Lemma generateStep_foldl_keeps_blocks (cx cz : Z) (l : list (Z * Z)) (g : Game)
    (x y z : Q) :
  getBlock (worldData (world g)) x y z ≠ AIR →
  getBlock (worldData (world (foldl (generateStep noise2D cx cz) g l))) x y z ≠ AIR.
Proof.
  revert g. induction l as [|p l IH]; intros g Hb; [done|].
  cbn [foldl]. by apply IH, generateChunk_keeps_blocks.
Qed.

(** X11.  Loading and unloading chunks never removes a block from the
    world: a point that holds a block still holds one (possibly of
    another type) after [generateChunk], [removeChunk],
    [generateInitialChunks] and [updateChunks]; [removeChunk] does not
    change the world at all. *)
Theorem X11_chunk_loading_keeps_blocks (g : Game) (x y z : Q) :
  getBlock (worldData (world g)) x y z ≠ AIR →
  (∀ cx cz,
     getBlock (worldData (world (generateChunk noise2D cx cz g))) x y z ≠ AIR) ∧
  (∀ cx cz, world (removeChunk cx cz g) = world g) ∧
  getBlock (worldData (world (generateInitialChunks noise2D g))) x y z ≠ AIR ∧
  getBlock (worldData (world (updateChunks noise2D g))) x y z ≠ AIR.
Proof.
  intros Hb.
  split; [intros cx cz; by apply generateChunk_keeps_blocks|].
  split; [intros cx cz; apply world_removeChunk|].
  split.
  - rewrite generateInitialChunks_foldl. by apply generateStep_foldl_keeps_blocks.
  - unfold updateChunks. rewrite updateChunksWithin_unfold. cbv zeta.
    rewrite world_unloadStep_foldl, loadStep_foldl_snd.
    by apply generateStep_foldl_keeps_blocks.
Qed.

End ChunksMore.

Lemma X9_updateChunks_idempotent_witness :
  chunksWellFormed (chunks oneBlockGame) ∧
  (∀ cx cz, generateChunk flatNoise cx cz (generateChunk flatNoise cx cz oneBlockGame)
            = generateChunk flatNoise cx cz oneBlockGame) ∧
  (∀ cx cz, removeChunk cx cz (removeChunk cx cz oneBlockGame)
            = removeChunk cx cz oneBlockGame) ∧
  updateChunks flatNoise (updateChunks flatNoise oneBlockGame) =
  updateChunks flatNoise oneBlockGame.
Proof.
  split; [exact oneBlockGame_wellFormed|].
  exact (X9_updateChunks_idempotent flatNoise oneBlockGame oneBlockGame_wellFormed).
Defined.

Lemma X11_chunk_loading_keeps_blocks_witness :
  getBlock (worldData (world oneBlockGame)) 0.5 0.5 0.5 ≠ AIR ∧
  (∀ cx cz,
     getBlock (worldData (world (generateChunk flatNoise cx cz oneBlockGame)))
       0.5 0.5 0.5 ≠ AIR) ∧
  (∀ cx cz, world (removeChunk cx cz oneBlockGame) = world oneBlockGame) ∧
  getBlock (worldData (world (generateInitialChunks flatNoise oneBlockGame)))
    0.5 0.5 0.5 ≠ AIR ∧
  getBlock (worldData (world (updateChunks flatNoise oneBlockGame)))
    0.5 0.5 0.5 ≠ AIR.
Proof.
  assert (H : getBlock (worldData (world oneBlockGame)) 0.5 0.5 0.5 ≠ AIR)
    by (vm_compute; discriminate).
  split; [exact H|].
  exact (X11_chunk_loading_keeps_blocks flatNoise oneBlockGame 0.5 0.5 0.5 H).
Defined.

(** * The chunk table as a list without repeated keys *)

Section MapPermutation.
Context {K V : Type} `{EqDecision K}.
Implicit Types (k : K) (v : V) (m : list (K * V)).

Lemma mapGet_None_keys k m : mapGet k m = None ↔ k ∉ m.*1.
Proof.
  rewrite <- mapHas_false, <- mapHas_key_elem_of.
  by destruct (mapHas k m).
Qed.

Lemma mapDelete_absent k m : k ∉ m.*1 → mapDelete k m = m.
Proof.
  induction m as [|[k' v'] m IH]; [done|]. cbn [fmap list_fmap fst mapDelete].
  intros Hk. apply not_elem_of_cons in Hk as [Hne Hk].
  rewrite decide_False by done. by rewrite IH.
Qed.

Lemma mapDelete_keys_sublist k m : (mapDelete k m).*1 `sublist_of` m.*1.
Proof.
  induction m as [|[k' v'] m IH]; [done|]. cbn [fmap list_fmap fst mapDelete].
  destruct (decide (k' = k)).
  - by apply sublist_cons.
  - by apply sublist_skip.
Qed.

Lemma mapDelete_keys k m : k ∉ (mapDelete k m).*1.
Proof. apply mapGet_None_keys, mapGet_mapDelete_eq. Qed.

Lemma mapGet_Permutation k v m :
  NoDup m.*1 → mapGet k m = Some v → m ≡ₚ (k, v) :: mapDelete k m.
Proof.
  induction m as [|[k' v'] m IH]; [done|]. cbn [fmap list_fmap fst mapGet mapDelete].
  intros [Hk' Hm]%NoDup_cons. destruct (decide (k' = k)) as [->|Hne].
  - intros [= ->]. by rewrite mapDelete_absent.
  - intros Hget. rewrite (IH Hm Hget) at 1. apply Permutation_swap.
Qed.

Lemma mapSet_Permutation k v m :
  NoDup m.*1 → mapSet k v m ≡ₚ mapDelete k m ++ [(k, v)].
Proof.
  induction m as [|[k' v'] m IH]; [done|]. cbn [fmap list_fmap fst mapSet mapDelete].
  intros [Hk' Hm]%NoDup_cons. destruct (decide (k' = k)) as [->|Hne].
  - rewrite mapDelete_absent by done. apply Permutation_cons_append.
  - cbn [app]. by rewrite IH.
Qed.

End MapPermutation.

Lemma filter_all {A : Type} (P : A → Prop) `{∀ x, Decision (P x)} (l : list A) :
  (∀ x, x ∈ l → P x) → filter P l = l.
Proof.
  induction l as [|a l IH]; intros Hl; [done|].
  rewrite filter_cons_True by apply Hl, list_elem_of_here.
  f_equal. apply IH. intros x Hx. by apply Hl, list_elem_of_further.
Qed.

Lemma filter_none {A : Type} (P : A → Prop) `{∀ x, Decision (P x)} (l : list A) :
  (∀ x, x ∈ l → ¬ P x) → filter P l = [].
Proof.
  induction l as [|a l IH]; intros Hl; [done|].
  rewrite filter_cons_False by apply Hl, list_elem_of_here.
  apply IH. intros x Hx. by apply Hl, list_elem_of_further.
Qed.

(** * The render state *)

Lemma push_foldl (ms acc : list Mesh) :
  foldl (λ acc mesh, acc ++ [mesh]) acc ms = acc ++ ms.
Proof.
  revert acc. induction ms as [|m ms IH]; intros acc; simpl.
  - by rewrite app_nil_r.
  - by rewrite IH, <- app_assoc.
Qed.

Lemma getChunkMeshes_chunkMeshes (g : Game) :
  getChunkMeshes g = chunkMeshes (chunks g).
Proof.
  unfold getChunkMeshes, chunkMeshes.
  assert (Hacc : ∀ cs acc,
    foldl (λ acc (e : ChunkKey * Chunk),
             foldl (λ acc mesh, acc ++ [mesh]) acc (meshes e.2)) acc cs =
    acc ++ (cs ≫= (λ e, meshes e.2))).
  { induction cs as [|e cs IH]; intros acc; cbn [foldl].
    - by rewrite app_nil_r.
    - by rewrite IH, push_foldl, bind_cons, app_assoc. }
  apply (Hacc _ []).
Qed.

Lemma renderConsistent_renderOK (g : Game) :
  renderConsistent g ↔ renderOK (chunks g) (scene g) (nextObjectId g).
Proof. unfold renderConsistent, renderOK. by rewrite getChunkMeshes_chunkMeshes. Qed.

Lemma releaseMeshes_filter (ms scene : list Mesh) (d : nat) :
  releaseMeshes ms scene d =
  (filter (λ o, meshId o ∉ meshId <$> ms) scene, (d + length ms)%nat).
Proof.
  unfold releaseMeshes. revert scene d.
  induction ms as [|m ms IH]; intros scene d.
  - simpl. rewrite filter_all; [by rewrite Nat.add_0_r|].
    intros x _. apply not_elem_of_nil.
  - cbn [foldl fst snd]. rewrite IH. f_equal.
    + unfold sceneRemove. rewrite list_filter_filter. apply list_filter_iff.
      intros o. cbn [fmap list_fmap]. rewrite not_elem_of_cons. tauto.
    + cbn [length]. lia.
Qed.

(** Releasing the meshes of one chunk of a consistent render state. *)
Lemma renderOK_release (cs : list (ChunkKey * Chunk)) (sc : list Mesh) (next d : nat)
    (k : ChunkKey) (c : Chunk) :
  renderOK cs sc next → mapGet k cs = Some c →
  renderOK (mapDelete k cs) (releaseMeshes (meshes c) sc d).1 next ∧
  length sc = (length (meshes c) + length (releaseMeshes (meshes c) sc d).1)%nat.
Proof.
  intros (Hkeys & Hids & Hperm & Hnext) Hget.
  rewrite releaseMeshes_filter. cbn [fst].
  set (P := λ o : Mesh, meshId o ∉ meshId <$> meshes c).
  assert (Hsplit : sc ≡ₚ meshes c ++ chunkMeshes (mapDelete k cs)).
  { rewrite Hperm. unfold chunkMeshes.
    by rewrite (mapGet_Permutation k c cs Hkeys Hget) at 1. }
  assert (Hnodup : NoDup (meshId <$> meshes c ++ chunkMeshes (mapDelete k cs))).
  { by rewrite <- Hsplit. }
  rewrite fmap_app in Hnodup. apply NoDup_app in Hnodup as (_ & Hdisj & _).
  assert (Hfilter : filter P sc ≡ₚ chunkMeshes (mapDelete k cs)).
  { rewrite Hsplit, filter_app. rewrite filter_none, filter_all; [done| |].
    - intros o Ho Hin. apply (Hdisj (meshId o)); [done|].
      apply list_elem_of_fmap. by exists o.
    - intros o Ho HP. apply HP. apply list_elem_of_fmap. by exists o. }
  split; [split; [|split; [|split]]|].
  - eapply sublist_NoDup; [exact Hkeys|apply mapDelete_keys_sublist].
  - eapply sublist_NoDup; [exact Hids|]. apply fmap_sublist, sublist_filter.
  - done.
  - intros m [_ Hm]%list_elem_of_filter. by apply Hnext.
  - rewrite (Permutation_length Hsplit), length_app.
    by rewrite (Permutation_length Hfilter).
Qed.

(** Adding the fresh meshes of one chunk to a consistent render state. *)
Lemma renderOK_add (cs cs' : list (ChunkKey * Chunk)) (sc : list Mesh) (next : nat)
    (k : ChunkKey) (cx cz : Z) (new : list Mesh) :
  renderOK cs sc next → k ∉ cs.*1 →
  cs' ≡ₚ cs ++ [(k, mkChunk new cx cz)] →
  meshId <$> new = seq next (length new) →
  renderOK cs' (sceneAddAll new sc) (next + length new).
Proof.
  intros (Hkeys & Hids & Hperm & Hnext) Hk Hcs' Hnew.
  unfold sceneAddAll. split; [|split; [|split]].
  - rewrite Hcs', fmap_app. apply NoDup_app. split; [done|]. split.
    + intros k' Hk' ->%list_elem_of_singleton. done.
    + apply NoDup_singleton.
  - rewrite fmap_app, Hnew. apply NoDup_app. split; [done|]. split.
    + intros i (m & -> & Hm)%list_elem_of_fmap Hi%elem_of_seq.
      specialize (Hnext m Hm). lia.
    + apply NoDup_seq.
  - unfold chunkMeshes. rewrite Hcs', bind_app, bind_cons.
    change ([] ≫= (λ e : ChunkKey * Chunk, meshes e.2)) with (@nil Mesh).
    rewrite app_nil_r. cbn [snd meshes]. by rewrite Hperm.
  - intros m [Hm|Hm]%elem_of_app.
    + specialize (Hnext m Hm). lia.
    + assert (Hin : meshId m ∈ seq next (length new)).
      { rewrite <- Hnew. apply list_elem_of_fmap. by exists m. }
      apply elem_of_seq in Hin. lia.
Qed.

Lemma meshOfEntry_foldl_ids (chunkX chunkZ : Z) (es : list (BlockType * list BlockKey))
    (ms : list Mesh) (id : nat) :
  ∃ new,
    foldl (meshOfEntry chunkX chunkZ) (ms, id) es = (ms ++ new, (id + length new)%nat) ∧
    meshId <$> new = seq id (length new) ∧
    ∀ m, m ∈ new → meshChunkX m = chunkX ∧ meshChunkZ m = chunkZ.
Proof.
  revert ms id. induction es as [|[t b] es IH]; intros ms id.
  - exists []. simpl. rewrite app_nil_r, Nat.add_0_r. split; [done|]. split; [done|].
    by intros m ?%elem_of_nil.
  - cbn [foldl meshOfEntry]. destruct (length b =? 0)%nat.
    + apply IH.
    + destruct (IH (ms ++ [mkMesh id chunkX chunkZ b t]) (S id))
        as (new & Hfold & Hids & Hcoords).
      exists (mkMesh id chunkX chunkZ b t :: new). split; [|split].
      * rewrite Hfold, <- app_assoc. cbn [app length]. f_equal. lia.
      * cbn [fmap list_fmap length seq meshId]. by rewrite <- Hids.
      * intros m [->|Hm]%elem_of_cons; [done|]. by apply Hcoords.
Qed.

Lemma buildChunkMesh_ids (wd : gmap BlockKey BlockType) (chunkX chunkZ : Z)
    (nextId : nat) :
  let r := buildChunkMesh wd chunkX chunkZ nextId in
  r.2 = (nextId + length r.1)%nat ∧
  meshId <$> r.1 = seq nextId (length r.1) ∧
  ∀ m, m ∈ r.1 → meshChunkX m = chunkX ∧ meshChunkZ m = chunkZ.
Proof.
  unfold buildChunkMesh. cbv zeta.
  change (foldl _ ([], nextId) ?es) with (foldl (meshOfEntry chunkX chunkZ) ([], nextId) es).
  destruct (meshOfEntry_foldl_ids chunkX chunkZ
              (objectEntries (collectBlocks wd chunkX chunkZ)) [] nextId)
    as (new & -> & Hids & Hcoords).
  done.
Qed.

Lemma rendersFrom_refl (g : Game) : rendersFrom g g.
Proof. intros Hg. split; [done|]. unfold meshBalance. lia. Qed.

Lemma rendersFrom_trans (g1 g2 g3 : Game) :
  rendersFrom g1 g2 → rendersFrom g2 g3 → rendersFrom g1 g3.
Proof.
  intros H12 H23 H1. destruct (H12 H1) as [H2 B12].
  destruct (H23 H2) as [H3 B23]. split; [done|].
  unfold meshBalance in *. lia.
Qed.

(** An operation that leaves the four render fields alone. *)
Lemma rendersFrom_same (g g' : Game) :
  chunks g' = chunks g → scene g' = scene g →
  nextObjectId g' = nextObjectId g → disposeCalls g' = disposeCalls g →
  rendersFrom g g'.
Proof.
  intros Hc Hs Hn Hd Hg. split.
  - apply renderConsistent_renderOK. rewrite Hc, Hs, Hn.
    by apply renderConsistent_renderOK.
  - unfold meshBalance. rewrite Hs, Hn, Hd. lia.
Qed.

Lemma rendersFrom_foldl {A : Type} (f : Game → A → Game) (l : list A) (g : Game) :
  (∀ acc a, rendersFrom acc (f acc a)) → rendersFrom g (foldl f g l).
Proof.
  intros Hf. revert g. induction l as [|a l IH]; intros g.
  - apply rendersFrom_refl.
  - cbn [foldl]. eapply rendersFrom_trans; [apply Hf|apply IH].
Qed.

Lemma rendersFrom_removeChunk (cx cz : Z) (g : Game) :
  rendersFrom g (removeChunk cx cz g).
Proof.
  destruct (mapGet (cx, cz) (chunks g)) as [chunk|] eqn:Hget.
  2: { unfold removeChunk. rewrite Hget. apply rendersFrom_refl. }
  rewrite (removeChunk_loaded _ _ _ _ Hget). intros Hg%renderConsistent_renderOK.
  destruct (renderOK_release _ _ _ (disposeCalls g) _ _ Hg Hget) as [Hok Hlen].
  split.
  - by apply renderConsistent_renderOK.
  - unfold meshBalance. cbn [withRender nextObjectId disposeCalls scene].
    rewrite releaseMeshes_disposed. lia.
Qed.

(** The two halves of [generateChunk] and [rebuildChunk] on the render
    fields: the meshes [new] of [buildChunkMesh] are stored under the key
    and added to the scene. *)
Lemma rendersFrom_add (g : Game) (cs : list (ChunkKey * Chunk)) (sc : list Mesh)
    (d : nat) (cx cz : Z) (wd : gmap BlockKey BlockType) (g0 : Game) :
  (renderConsistent g →
   renderOK (mapDelete (cx, cz) (chunks g)) sc (nextObjectId g) ∧
   (d + length sc = disposeCalls g + length (scene g))%nat) →
  let r := buildChunkMesh wd cx cz (nextObjectId g) in
  rendersFrom g
    (withRender (mapSet (cx, cz) (mkChunk r.1 cx cz) (chunks g))
       (sceneAddAll r.1 sc) r.2 d g0).
Proof.
  intros Hpre r Hg. destruct (Hpre Hg) as [Hok Hlen].
  destruct (buildChunkMesh_ids wd cx cz (nextObjectId g)) as (Hnext & Hids & _).
  fold r in Hnext, Hids. split.
  - apply renderConsistent_renderOK. cbn [withRender chunks scene nextObjectId].
    rewrite Hnext.
    apply (renderOK_add (mapDelete (cx, cz) (chunks g)) _ sc _ (cx, cz) cx cz);
      [done|apply mapDelete_keys| |done].
    apply mapSet_Permutation. by destruct Hg.
  - unfold meshBalance, sceneAddAll.
    cbn [withRender nextObjectId disposeCalls scene]. rewrite length_app. lia.
Qed.

Lemma rendersFrom_rebuildChunk (cx cz : Z) (g : Game) :
  rendersFrom g (rebuildChunk cx cz g).
Proof.
  unfold rebuildChunk.
  destruct (mapGet (cx, cz) (chunks g)) as [chunk|] eqn:Hget.
  - rewrite (releaseMeshes_filter (meshes chunk) (scene g) (disposeCalls g)).
    pose proof (rendersFrom_add g (chunks g)
      (filter (λ o, meshId o ∉ meshId <$> meshes chunk) (scene g))
      (disposeCalls g + length (meshes chunk)) cx cz (worldData (world g)) g) as Hadd.
    cbv zeta in Hadd.
    destruct (buildChunkMesh (worldData (world g)) cx cz (nextObjectId g))
      as [ms next]. apply Hadd.
    intros Hg%renderConsistent_renderOK.
    destruct (renderOK_release _ _ _ (disposeCalls g) _ _ Hg Hget) as [Hok Hlen].
    rewrite releaseMeshes_filter in Hok, Hlen. cbn [fst] in Hok, Hlen.
    split; [done|lia].
  - pose proof (rendersFrom_add g (chunks g) (scene g) (disposeCalls g) cx cz
                  (worldData (world g)) g) as Hadd.
    cbv zeta in Hadd.
    destruct (buildChunkMesh (worldData (world g)) cx cz (nextObjectId g))
      as [ms next]. apply Hadd.
    intros Hg%renderConsistent_renderOK. split; [|done].
    rewrite mapDelete_absent; [done|]. by apply mapGet_None_keys.
Qed.

Lemma rendersFrom_breakBlock (g : Game) : rendersFrom g (breakBlock g).
Proof.
  unfold breakBlock. destruct (selectedBlock g) as [sel|]; [|apply rendersFrom_refl].
  destruct (chunkOfPos (position sel)) as [cx cz].
  eapply rendersFrom_trans; [|apply rendersFrom_rebuildChunk].
  by apply rendersFrom_same.
Qed.

Lemma rendersFrom_placeBlock (intersects : list Intersection) (g : Game) :
  rendersFrom g (placeBlock intersects g).
Proof.
  unfold placeBlock.
  destruct (selectedBlock g) as [sel|]; [|apply rendersFrom_refl].
  destruct (match getSelectedBlockCount g with
            | Some c => c <=? 0
            | None => false
            end); [apply rendersFrom_refl|].
  destruct intersects as [|hit rest]; [apply rendersFrom_refl|].
  destruct (boxesIntersect _ _ _ _); [apply rendersFrom_refl|].
  destruct (getSelectedBlockType g) as [blockType|]; [|apply rendersFrom_refl].
  destruct (removeFromInventory blockType 1 (inventory g)) as [inv [|]];
    [|apply rendersFrom_refl].
  destruct (chunkOfPos _) as [cx cz].
  eapply rendersFrom_trans; [|apply rendersFrom_rebuildChunk].
  by apply rendersFrom_same.
Qed.

Lemma rendersFrom_onMouseDown (button : Z) (intersects : list Intersection)
    (g : Game) :
  rendersFrom g (onMouseDown button intersects g).
Proof.
  unfold onMouseDown. destruct (negb (isLocked g)); [apply rendersFrom_refl|].
  destruct (button =? 0); [apply rendersFrom_breakBlock|].
  destruct (button =? 2); [apply rendersFrom_placeBlock|apply rendersFrom_refl].
Qed.

Lemma rendersFrom_updateSelection (intersects : list RayHit) (g : Game) :
  rendersFrom g (updateSelection intersects g).
Proof.
  apply rendersFrom_same; unfold updateSelection;
    destruct (negb (isLocked g)); try done;
    destruct intersects as [|[[i|] mesh] rest]; try done;
    cbn [instanceId object];
    destruct (blocks mesh !! i : option BlockKey) as [[[x y] z]|]; done.
Qed.

Section RenderState.

Variable noise2D : Q → Q → Q.
Variable normalize : Vec3 → Vec3.

Lemma rendersFrom_generateChunk (cx cz : Z) (g : Game) :
  rendersFrom g (generateChunk noise2D cx cz g).
Proof.
  unfold generateChunk. destruct (mapHas (cx, cz) (chunks g)) eqn:Hhas;
    [apply rendersFrom_refl|].
  set (w := generateChunkData noise2D cx cz (world g)).
  pose proof (rendersFrom_add g (chunks g) (scene g) (disposeCalls g) cx cz
                (worldData w) (withWorld w g)) as Hadd.
  cbv zeta in Hadd.
  destruct (buildChunkMesh (worldData w) cx cz (nextObjectId g)) as [ms next].
  apply Hadd. intros Hg%renderConsistent_renderOK. split; [|done].
  rewrite mapDelete_absent; [done|].
  by apply mapGet_None_keys, mapHas_false.
Qed.

Lemma rendersFrom_generateInitialChunks (g : Game) :
  rendersFrom g (generateInitialChunks noise2D g).
Proof.
  rewrite generateInitialChunks_foldl. apply rendersFrom_foldl.
  intros acc p. apply rendersFrom_generateChunk.
Qed.

Lemma rendersFrom_updateChunks (g : Game) :
  rendersFrom g (updateChunks noise2D g).
Proof.
  unfold updateChunks. rewrite updateChunksWithin_unfold. cbv zeta.
  rewrite loadStep_foldl_snd.
  set (g1 := foldl (generateStep noise2D (playerChunkOf g).1 (playerChunkOf g).2) g
               (squareOffsets RENDER_DISTANCE)).
  apply (rendersFrom_trans g g1).
  - apply rendersFrom_foldl. intros acc p. apply rendersFrom_generateChunk.
  - apply rendersFrom_foldl. intros acc e. unfold unloadStep.
    destruct (mapGet e.1 (chunks acc)) as [chunk|]; [|apply rendersFrom_refl].
    destruct (negb _); [apply rendersFrom_removeChunk|apply rendersFrom_refl].
Qed.

Lemma rendersFrom_updatePlayer (delta : Q) (worldDirection : Vec3) (g : Game) :
  rendersFrom g (updatePlayer normalize delta worldDirection g).
Proof.
  apply rendersFrom_same; unfold updatePlayer;
    destruct (negb (isLocked g)); try done;
    destruct (resolveHorizontal normalize delta worldDirection g) as [camX camZ];
    destruct (negb (checkCollision _ _ _ _));
    repeat match goal with
           | |- context [if ?b then _ else _] => destruct b
           end; done.
Qed.

Lemma rendersFrom_animate (time prevTime : Q) (worldDirection : Vec3)
    (intersects : list RayHit) (g : Game) :
  rendersFrom g (animate noise2D normalize time prevTime worldDirection intersects g).
Proof.
  unfold animate. cbv zeta.
  eapply rendersFrom_trans; [apply rendersFrom_updatePlayer|].
  eapply rendersFrom_trans; [apply rendersFrom_updateChunks|].
  apply rendersFrom_updateSelection.
Qed.

(** X12.  The scene and the chunk table stay in step.  If the keys of
    the chunk table are pairwise different, the scene holds exactly the
    meshes of the loaded chunks ([getChunkMeshes]), each once, no two of
    them share an id and every id is below the next one to be given, then
    the same holds after [generateChunk], [rebuildChunk], [removeChunk],
    [generateInitialChunks], [updateChunks], [breakBlock], [placeBlock],
    a mouse button and a whole frame: no mesh of an unloaded or rebuilt chunk stays in
    the scene, and no loaded chunk misses one of its meshes there. *)
Theorem X12_scene_matches_chunks (g : Game) :
  renderConsistent g →
  (∀ cx cz, renderConsistent (generateChunk noise2D cx cz g)) ∧
  (∀ cx cz, renderConsistent (rebuildChunk cx cz g)) ∧
  (∀ cx cz, renderConsistent (removeChunk cx cz g)) ∧
  renderConsistent (generateInitialChunks noise2D g) ∧
  renderConsistent (updateChunks noise2D g) ∧
  renderConsistent (breakBlock g) ∧
  (∀ intersects, renderConsistent (placeBlock intersects g)) ∧
  (∀ button intersects, renderConsistent (onMouseDown button intersects g)) ∧
  (∀ time prevTime worldDirection intersects,
     renderConsistent
       (animate noise2D normalize time prevTime worldDirection intersects g)).
Proof.
  intros Hg.
  split; [intros cx cz; by apply (rendersFrom_generateChunk cx cz g)|].
  split; [intros cx cz; by apply (rendersFrom_rebuildChunk cx cz g)|].
  split; [intros cx cz; by apply (rendersFrom_removeChunk cx cz g)|].
  split; [by apply (rendersFrom_generateInitialChunks g)|].
  split; [by apply (rendersFrom_updateChunks g)|].
  split; [by apply (rendersFrom_breakBlock g)|].
  split; [intros hits; by apply (rendersFrom_placeBlock hits g)|].
  split; [intros button hits; by apply (rendersFrom_onMouseDown button hits g)|].
  intros time prevTime worldDirection hits.
  by apply (rendersFrom_animate time prevTime worldDirection hits g).
Qed.

Lemma meshesAccounted_step (g g' : Game) :
  rendersFrom g g' → renderConsistent g → meshesAccounted g → meshesAccounted g'.
Proof.
  intros Hstep Hg Hacc. destruct (Hstep Hg) as [_ Hbal].
  unfold meshesAccounted, meshBalance in *. lia.
Qed.

(** X13.  No mesh is lost or disposed of twice.  In a consistent render
    state where the number of meshes built so far ([nextObjectId]) is the
    number of [geometry.dispose()] calls plus the number of meshes in the
    scene (as in the state of the constructor, where all three are 0),
    the same equation holds after [generateChunk], [rebuildChunk],
    [removeChunk], [generateInitialChunks], [updateChunks], [breakBlock],
    [placeBlock], a mouse button and a whole frame: every mesh that
    leaves the scene is disposed of exactly once, and only then. *)
Theorem X13_meshes_accounted (g : Game) :
  renderConsistent g → meshesAccounted g →
  (∀ cx cz, meshesAccounted (generateChunk noise2D cx cz g)) ∧
  (∀ cx cz, meshesAccounted (rebuildChunk cx cz g)) ∧
  (∀ cx cz, meshesAccounted (removeChunk cx cz g)) ∧
  meshesAccounted (generateInitialChunks noise2D g) ∧
  meshesAccounted (updateChunks noise2D g) ∧
  meshesAccounted (breakBlock g) ∧
  (∀ intersects, meshesAccounted (placeBlock intersects g)) ∧
  (∀ button intersects, meshesAccounted (onMouseDown button intersects g)) ∧
  (∀ time prevTime worldDirection intersects,
     meshesAccounted
       (animate noise2D normalize time prevTime worldDirection intersects g)).
Proof.
  intros Hg Hacc.
  pose proof (λ g' Hstep, meshesAccounted_step g g' Hstep Hg Hacc) as Hstep.
  split; [intros cx cz; apply Hstep, rendersFrom_generateChunk|].
  split; [intros cx cz; apply Hstep, rendersFrom_rebuildChunk|].
  split; [intros cx cz; apply Hstep, rendersFrom_removeChunk|].
  split; [apply Hstep, rendersFrom_generateInitialChunks|].
  split; [apply Hstep, rendersFrom_updateChunks|].
  split; [apply Hstep, rendersFrom_breakBlock|].
  split; [intros hits; apply Hstep, rendersFrom_placeBlock|].
  split; [intros button hits; apply Hstep, rendersFrom_onMouseDown|].
  intros time prevTime worldDirection hits. apply Hstep, rendersFrom_animate.
Qed.

End RenderState.

Lemma oneBlockGame_renderConsistent : renderConsistent oneBlockGame.
Proof.
  split; [|split; [|split]].
  - apply NoDup_singleton.
  - apply NoDup_singleton.
  - reflexivity.
  - intros m ->%list_elem_of_singleton. simpl. lia.
Qed.

Lemma oneBlockGame_accounted : meshesAccounted oneBlockGame.
Proof. reflexivity. Qed.

(** The state of the constructor is consistent and accounted for. *)
Lemma newGame_renderConsistent : renderConsistent newGame ∧ meshesAccounted newGame.
Proof.
  split; [|reflexivity]. split; [|split; [|split]].
  - apply NoDup_nil_2.
  - apply NoDup_nil_2.
  - reflexivity.
  - by intros m ?%elem_of_nil.
Qed.

(** * Further properties of the mesher *)

Lemma objectEntries_keys_sublist {A : Type} (o : gmap BlockType A) :
  (objectEntries o).*1 `sublist_of` [AIR; DIRT; GRASS; STONE; WOOD; LEAVES].
Proof.
  unfold objectEntries.
  generalize [AIR; DIRT; GRASS; STONE; WOOD; LEAVES]. intros ts.
  induction ts as [|t ts IH]; [done|].
  cbn [omap list_omap]. destruct (o !! t) as [v|]; cbn [fmap option_fmap option_map].
  - cbn [fmap list_fmap fst]. by apply sublist_skip.
  - by apply sublist_cons.
Qed.

Lemma shownAs_AIR_none (wd : gmap BlockKey BlockType) (l : list BlockKey) :
  filter (shownAs wd AIR) l = [].
Proof. apply filter_none. by intros c _ (_ & Hair & _). Qed.

Section MesherMore.

Variable wd : gmap BlockKey BlockType.
Variables chunkX chunkZ : Z.

Lemma batch_blocks (nextId : nat) (m : Mesh) :
  m ∈ (buildChunkMesh wd chunkX chunkZ nextId).1 →
  blocks m ≠ [] ∧
  blocks m = filter (shownAs wd (meshBlockType m)) (chunkCells chunkX chunkZ).
Proof.
  intros Hm. apply (batch_entry wd chunkX chunkZ nextId). by exists m.
Qed.

Lemma batch_types_sublist (nextId : nat) :
  meshBlockType <$> (buildChunkMesh wd chunkX chunkZ nextId).1
    `sublist_of` [DIRT; GRASS; STONE; WOOD; LEAVES].
Proof.
  assert (Hall : meshBlockType <$> (buildChunkMesh wd chunkX chunkZ nextId).1
                   `sublist_of` [AIR; DIRT; GRASS; STONE; WOOD; LEAVES]).
  { replace (meshBlockType <$> (buildChunkMesh wd chunkX chunkZ nextId).1)
      with ((batchEntry <$> (buildChunkMesh wd chunkX chunkZ nextId).1).*1)
      by (by rewrite <- list_fmap_compose).
    rewrite buildChunkMesh_entries.
    etrans; [|apply (objectEntries_keys_sublist (collectBlocks wd chunkX chunkZ))].
    apply fmap_sublist, sublist_filter. }
  apply sublist_cons_r in Hall as [Hall|(l' & Hl' & _)]; [done|].
  exfalso.
  assert (Hin : AIR ∈ meshBlockType <$> (buildChunkMesh wd chunkX chunkZ nextId).1)
    by (rewrite Hl'; apply list_elem_of_here).
  apply list_elem_of_fmap in Hin as (m & Hty & Hm).
  destruct (batch_blocks nextId m Hm) as [Hne Hb].
  rewrite <- Hty, shownAs_AIR_none in Hb. done.
Qed.

(** X14.  The batches of a chunk: [buildChunkMesh] returns at most one
    mesh per block type, in the order Dirt, Grass, Stone, Wood, Leaves and
    never one for Air; no mesh is empty; the meshes take the ids
    [nextId], [nextId + 1], ... and the counter returned is the next free
    id; each mesh is stamped with the chunk coordinates and lists, in the
    order of the scan, the cells of the chunk that hold its block type and
    have an exposed face. *)
Theorem X14_batches_structure (nextId : nat) :
  let r := buildChunkMesh wd chunkX chunkZ nextId in
  r.2 = (nextId + length r.1)%nat ∧
  meshId <$> r.1 = seq nextId (length r.1) ∧
  meshBlockType <$> r.1 `sublist_of` [DIRT; GRASS; STONE; WOOD; LEAVES] ∧
  (length r.1 ≤ 5)%nat ∧
  (∀ m, m ∈ r.1 →
     meshChunkX m = chunkX ∧ meshChunkZ m = chunkZ ∧
     blocks m ≠ [] ∧
     blocks m = filter (shownAs wd (meshBlockType m)) (chunkCells chunkX chunkZ)).
Proof.
  intros r.
  destruct (buildChunkMesh_ids wd chunkX chunkZ nextId) as (Hnext & Hids & Hcoords).
  fold r in Hnext, Hids, Hcoords.
  pose proof (batch_types_sublist nextId) as Hsub. fold r in Hsub.
  split; [done|]. split; [done|]. split; [done|]. split.
  - apply sublist_length in Hsub. by rewrite length_fmap in Hsub.
  - intros m Hm. destruct (Hcoords m Hm) as [Hx Hz].
    destruct (batch_blocks nextId m Hm) as [Hne Hb]. done.
Qed.

(** X15.  What the mesher never draws: a cell outside the 16 x 16
    footprint of the chunk or outside the layers 0 to 63 is in no batch
    of the chunk, whatever it holds.  So a block at layer 64 or above (or
    below layer 0) is in no batch of any chunk. *)
Theorem X15_mesher_range (nextId : nat) (x y z : Z) :
  ¬ (chunkX * CHUNK_SIZE ≤ x < chunkX * CHUNK_SIZE + CHUNK_SIZE ∧
     chunkZ * CHUNK_SIZE ≤ z < chunkZ * CHUNK_SIZE + CHUNK_SIZE ∧
     0 ≤ y < CHUNK_HEIGHT) →
  ∀ m, m ∈ (buildChunkMesh wd chunkX chunkZ nextId).1 → (x, y, z) ∉ blocks m.
Proof.
  intros Hout m Hm Hin. destruct (batch_blocks nextId m Hm) as [_ Hb].
  rewrite Hb in Hin. apply list_elem_of_filter in Hin as [_ Hin].
  by apply Hout, elem_of_chunkCells.
Qed.

End MesherMore.

Lemma X15_mesher_range_witness :
  ¬ (0 * CHUNK_SIZE ≤ 0 < 0 * CHUNK_SIZE + CHUNK_SIZE ∧
     0 * CHUNK_SIZE ≤ 0 < 0 * CHUNK_SIZE + CHUNK_SIZE ∧
     0 ≤ 64 < CHUNK_HEIGHT) ∧
  (∀ m, m ∈ (buildChunkMesh {[ (0, 64, 0) := STONE ]} 0 0 0).1 →
        (0, 64, 0) ∉ blocks m).
Proof.
  assert (H : ¬ (0 * CHUNK_SIZE ≤ 0 < 0 * CHUNK_SIZE + CHUNK_SIZE ∧
                 0 * CHUNK_SIZE ≤ 0 < 0 * CHUNK_SIZE + CHUNK_SIZE ∧
                 0 ≤ 64 < CHUNK_HEIGHT))
    by (unfold CHUNK_HEIGHT; lia).
  split; [exact H|].
  exact (X15_mesher_range {[ (0, 64, 0) := STONE ]} 0 0 0 0 64 0 H).
Defined.

Lemma X12_scene_matches_chunks_witness :
  renderConsistent oneBlockGame ∧
  (∀ cx cz, renderConsistent (generateChunk flatNoise cx cz oneBlockGame)) ∧
  (∀ cx cz, renderConsistent (rebuildChunk cx cz oneBlockGame)) ∧
  (∀ cx cz, renderConsistent (removeChunk cx cz oneBlockGame)) ∧
  renderConsistent (generateInitialChunks flatNoise oneBlockGame) ∧
  renderConsistent (updateChunks flatNoise oneBlockGame) ∧
  renderConsistent (breakBlock oneBlockGame) ∧
  (∀ intersects, renderConsistent (placeBlock intersects oneBlockGame)) ∧
  (∀ button intersects,
     renderConsistent (onMouseDown button intersects oneBlockGame)) ∧
  (∀ time prevTime worldDirection intersects,
     renderConsistent
       (animate flatNoise keepVector time prevTime worldDirection intersects
          oneBlockGame)).
Proof.
  split; [exact oneBlockGame_renderConsistent|].
  exact (X12_scene_matches_chunks flatNoise keepVector oneBlockGame
           oneBlockGame_renderConsistent).
Defined.

Lemma X13_meshes_accounted_witness :
  renderConsistent oneBlockGame ∧ meshesAccounted oneBlockGame ∧
  (∀ cx cz, meshesAccounted (generateChunk flatNoise cx cz oneBlockGame)) ∧
  (∀ cx cz, meshesAccounted (rebuildChunk cx cz oneBlockGame)) ∧
  (∀ cx cz, meshesAccounted (removeChunk cx cz oneBlockGame)) ∧
  meshesAccounted (generateInitialChunks flatNoise oneBlockGame) ∧
  meshesAccounted (updateChunks flatNoise oneBlockGame) ∧
  meshesAccounted (breakBlock oneBlockGame) ∧
  (∀ intersects, meshesAccounted (placeBlock intersects oneBlockGame)) ∧
  (∀ button intersects,
     meshesAccounted (onMouseDown button intersects oneBlockGame)) ∧
  (∀ time prevTime worldDirection intersects,
     meshesAccounted
       (animate flatNoise keepVector time prevTime worldDirection intersects
          oneBlockGame)).
Proof.
  split; [exact oneBlockGame_renderConsistent|].
  split; [exact oneBlockGame_accounted|].
  exact (X13_meshes_accounted flatNoise keepVector oneBlockGame
           oneBlockGame_renderConsistent oneBlockGame_accounted).
Defined.

(** * Further properties of the physics step *)




Section PhysicsMore.

Variable normalize : Vec3 → Vec3.



(** X19.  Jumping needs a landing.  [updatePlayer] sets [canJump] only
    when it lands: if [canJump] is true after a step, it was true before,
    or the pointer is locked, the velocity tested at line 679 is negative
    and the candidate vertical position collides.  The Space key uses
    [canJump] up: it sets the vertical velocity to [jumpVelocity] only
    when [canJump] is true and clears it, so a second press without a
    landing in between changes nothing. *)
Theorem X19_jump_needs_landing (delta : Q) (worldDirection : Vec3) (g : Game) :
  let g' := updatePlayer normalize delta worldDirection g in
  let camX := (resolveHorizontal normalize delta worldDirection g).1 in
  let camZ := (resolveHorizontal normalize delta worldDirection g).2 in
  (canJump g' = true →
   canJump g = true ∨
   (isLocked g = true ∧ (velocityAfterGravity delta g < 0)%Q ∧
    checkCollision (worldData (world g)) camX (candidateY delta g) camZ = true)) ∧
  canJump (onSpaceDown g) = false ∧
  (canJump g = true →
   vy (velocity (onSpaceDown g)) = jumpVelocity ∧
   vx (velocity (onSpaceDown g)) = vx (velocity g) ∧
   vz (velocity (onSpaceDown g)) = vz (velocity g) ∧
   cameraPosition (onSpaceDown g) = cameraPosition g) ∧
  (canJump g = false → onSpaceDown g = g) ∧
  onSpaceDown (onSpaceDown g) = onSpaceDown g.
Proof.
  intros g' camX camZ. split; [|split; [|split; [|split]]].
  - subst g' camX camZ. unfold updatePlayer.
    destruct (isLocked g); cbn [negb]; [|by left].
    destruct (resolveHorizontal normalize delta worldDirection g) as [camX camZ].
    cbn [fst snd].
    destruct (checkCollision _ camX _ camZ) eqn:Hy; cbn [negb].
    + destruct (Qltb (velocityAfterGravity delta g) 0) eqn:Hfall.
      * intros _. right. by apply Qltb_lt in Hfall.
      * destruct (Qltb _ (-50)); cbn [canJump withPlayer]; by left.
    + destruct (Qltb _ (-50)); cbn [canJump withPlayer]; by left.
  - unfold onSpaceDown. by destruct (canJump g) eqn:E.
  - intros Hj. unfold onSpaceDown. by rewrite Hj.
  - intros Hj. unfold onSpaceDown. by rewrite Hj.
  - unfold onSpaceDown. by destruct (canJump g) eqn:E; cbn [canJump withPlayer];
      [|rewrite E].
Qed.

Lemma moveVector_cancel (worldDirection : Vec3) (g : Game) :
  moveForward g = moveBackward g → moveLeft g = moveRight g →
  (vx (moveVector normalize worldDirection g) == 0 ∧
   vy (moveVector normalize worldDirection g) == 0 ∧
   vz (moveVector normalize worldDirection g) == 0)%Q.
Proof.
  intros Hfb Hlr. unfold moveVector. cbv zeta. rewrite Hfb, Hlr.
  set (forward := normalize _). set (right := normalize _).
  destruct (isRunning g), (moveBackward g), (moveRight g);
    unfold addScaledVector, runSpeed, walkSpeed; cbn [vx vy vz];
    repeat split; ring.
Qed.

(** X20.  Opposite keys cancel: when forward and backward are both held
    or both released, and so are left and right, the movement vector is
    zero whatever the camera looks at, and the horizontal part of the
    step leaves the camera's x and z where they were. *)
Theorem X20_opposite_keys_cancel (delta : Q) (worldDirection : Vec3) (g : Game) :
  moveForward g = moveBackward g → moveLeft g = moveRight g →
  let moveVec := moveVector normalize worldDirection g in
  (vx moveVec == 0 ∧ vy moveVec == 0 ∧ vz moveVec == 0)%Q ∧
  ((resolveHorizontal normalize delta worldDirection g).1 == vx (cameraPosition g))%Q ∧
  ((resolveHorizontal normalize delta worldDirection g).2 == vz (cameraPosition g))%Q.
Proof.
  intros Hfb Hlr moveVec.
  destruct (moveVector_cancel worldDirection g Hfb Hlr) as (Hx & Hy & Hz).
  split; [done|]. unfold resolveHorizontal. cbv zeta. cbn [fst snd].
  split.
  - destruct (negb _); [|reflexivity]. rewrite Hx. ring.
  - destruct (negb (checkCollision _ _ _ (vz (cameraPosition g) + _)%Q));
      [|reflexivity]. rewrite Hz. ring.
Qed.

End PhysicsMore.


(** * Input events *)

Lemma selectedSlot_onMouseWheel (deltaY : Q) (g : Game) :
  isLocked g = true →
  selectedSlot (onMouseWheel deltaY g) =
  Z.to_nat (if Qltb 0 deltaY
            then Z.rem (Z.of_nat (selectedSlot g) + 1) 5
            else Z.rem (Z.of_nat (selectedSlot g) - 1 + 5) 5) ∧
  isLocked (onMouseWheel deltaY g) = true.
Proof. intros Hlock. unfold onMouseWheel. by rewrite Hlock. Qed.

(** X21.  The mouse wheel walks around the five hotbar slots.  With the
    pointer locked, one wheel event always leaves a slot from 0 to 4
    selected, so a block type is selected; from a slot from 0 to 4, a
    step down (positive [deltaY]) followed by a step up (any other
    [deltaY], also 0) or the other way round comes back to the slot, and so
    do five steps down.  Without the lock the wheel does nothing. *)
Theorem X21_wheel_cycles (g : Game) :
  (isLocked g = false → ∀ deltaY, onMouseWheel deltaY g = g) ∧
  (isLocked g = true → ∀ deltaY,
     (selectedSlot (onMouseWheel deltaY g) < 5)%nat ∧
     is_Some (getSelectedBlockType (onMouseWheel deltaY g))) ∧
  (isLocked g = true → (selectedSlot g < 5)%nat →
   ∀ down up, (0 < down)%Q → ¬ (0 < up)%Q →
     selectedSlot (onMouseWheel up (onMouseWheel down g)) = selectedSlot g ∧
     selectedSlot (onMouseWheel down (onMouseWheel up g)) = selectedSlot g ∧
     selectedSlot (onMouseWheel down (onMouseWheel down (onMouseWheel down
       (onMouseWheel down (onMouseWheel down g))))) = selectedSlot g).
Proof.
  split; [|split].
  - intros Hlock deltaY. unfold onMouseWheel. by rewrite Hlock.
  - intros Hlock deltaY.
    destruct (selectedSlot_onMouseWheel deltaY g Hlock) as [Hslot _].
    assert (Hlt : (selectedSlot (onMouseWheel deltaY g) < 5)%nat).
    { rewrite Hslot. destruct (Qltb 0 deltaY).
      - pose proof (Z.rem_bound_pos (Z.of_nat (selectedSlot g) + 1) 5). lia.
      - pose proof (Z.rem_bound_pos (Z.of_nat (selectedSlot g) - 1 + 5) 5). lia. }
    split; [done|]. unfold getSelectedBlockType. by apply lookup_lt_is_Some.
  - intros Hlock Hslot down up Hdown%Qltb_lt Hup.
    assert (Hup' : Qltb 0 up = false).
    { apply not_true_is_false. by intros ?%Qltb_lt. }
    assert (Hstep : ∀ d g0, isLocked g0 = true →
              selectedSlot (onMouseWheel d g0) =
              Z.to_nat (if Qltb 0 d
                        then Z.rem (Z.of_nat (selectedSlot g0) + 1) 5
                        else Z.rem (Z.of_nat (selectedSlot g0) - 1 + 5) 5) ∧
              isLocked (onMouseWheel d g0) = true)
      by (intros d g0; apply selectedSlot_onMouseWheel).
    destruct (Hstep down g Hlock) as [D1 L1].
    destruct (Hstep up g Hlock) as [U1 LU1].
    destruct (Hstep up _ L1) as [DU _].
    destruct (Hstep down _ LU1) as [UD _].
    destruct (Hstep down _ L1) as [D2 L2].
    destruct (Hstep down _ L2) as [D3 L3].
    destruct (Hstep down _ L3) as [D4 L4].
    destruct (Hstep down _ L4) as [D5 _].
    rewrite Hdown in D1, UD, D2, D3, D4, D5. rewrite Hup' in U1, DU.
    rewrite DU, UD, D5, D4, D3, D2, D1, U1.
    destruct (selectedSlot g) as [|[|[|[|[|n]]]]]; [done..|lia].
Qed.

Lemma onKeyDown_fields (code : KeyCode) (g : Game) :
  world (onKeyDown code g) = world g ∧
  chunks (onKeyDown code g) = chunks g ∧
  scene (onKeyDown code g) = scene g ∧
  inventory (onKeyDown code g) = inventory g ∧
  selectedBlock (onKeyDown code g) = selectedBlock g ∧
  cameraPosition (onKeyDown code g) = cameraPosition g.
Proof.
  destruct code; try done. cbn [onKeyDown]. unfold onSpaceDown.
  by destruct (canJump g).
Qed.

(** X22.  The keyboard.  A repeated key-down event (a key held down)
    changes nothing beyond the first, and neither does a repeated key-up;
    releasing a movement key or Shift after pressing it gives the state
    that releasing alone gives; the digit keys 1 to 5 select Dirt, Grass,
    Stone, Wood and Leaves; an unknown key does nothing; and no key event
    touches the world, the chunk table, the scene, the inventory, the
    selected block or the camera position. *)
Theorem X22_key_events (code : KeyCode) (g : Game) :
  onKeyDown code (onKeyDown code g) = onKeyDown code g ∧
  onKeyUp code (onKeyUp code g) = onKeyUp code g ∧
  (code ∈ [KeyW; KeyS; KeyA; KeyD; ShiftLeft] →
   onKeyUp code (onKeyDown code g) = onKeyUp code g) ∧
  (getSelectedBlockType (onKeyDown Digit1 g),
   getSelectedBlockType (onKeyDown Digit2 g),
   getSelectedBlockType (onKeyDown Digit3 g),
   getSelectedBlockType (onKeyDown Digit4 g),
   getSelectedBlockType (onKeyDown Digit5 g))
  = (Some DIRT, Some GRASS, Some STONE, Some WOOD, Some LEAVES) ∧
  onKeyDown OtherKey g = g ∧ onKeyUp OtherKey g = g ∧
  (world (onKeyDown code g) = world g ∧
   chunks (onKeyDown code g) = chunks g ∧
   scene (onKeyDown code g) = scene g ∧
   inventory (onKeyDown code g) = inventory g ∧
   selectedBlock (onKeyDown code g) = selectedBlock g ∧
   cameraPosition (onKeyDown code g) = cameraPosition g) ∧
  (world (onKeyUp code g) = world g ∧
   chunks (onKeyUp code g) = chunks g ∧
   scene (onKeyUp code g) = scene g ∧
   inventory (onKeyUp code g) = inventory g ∧
   selectedBlock (onKeyUp code g) = selectedBlock g ∧
   cameraPosition (onKeyUp code g) = cameraPosition g ∧
   velocity (onKeyUp code g) = velocity g ∧
   selectedSlot (onKeyUp code g) = selectedSlot g).
Proof.
  split; [|split; [|split; [|split; [|split; [|split; [|split]]]]]].
  - destruct code; try done. cbn [onKeyDown]. unfold onSpaceDown.
    destruct (canJump g) eqn:E; cbn [canJump withPlayer]; [done|by rewrite E].
  - by destruct code.
  - rewrite !elem_of_cons, elem_of_nil.
    by intros [->|[->|[->|[->|[->|[]]]]]].
  - done.
  - done.
  - done.
  - apply onKeyDown_fields.
  - by destruct code.
Qed.

(** * Selecting, breaking and placing *)

Lemma slotToBlockType_not_air (slot : nat) (t : BlockType) :
  slotToBlockType !! slot = Some t → t ≠ AIR.
Proof.
  destruct slot as [|[|[|[|[|n]]]]]; cbn; intros [= <-]; done.
Qed.

(** X23.  The block aimed at is a real block.  With the pointer locked,
    when the first raycast hit is instance [i] of a mesh that
    [buildChunkMesh] builds from the current world and the mesh lists a
    cell at index [i], [updateSelection] selects that cell with the block
    type of the mesh; the cell holds a block of that type in the world,
    not Air, with a face exposed.  When the hit has no instance index or
    one past the end of the list, the selection is cleared. *)
Theorem X23_selection_is_a_block (g : Game) (chunkX chunkZ : Z) (nextId : nat)
    (mesh : Mesh) (i : nat) (x y z : Z) (rest : list RayHit) :
  isLocked g = true →
  mesh ∈ (buildChunkMesh (worldData (world g)) chunkX chunkZ nextId).1 →
  blocks mesh !! i = Some (x, y, z) →
  let g' := updateSelection (mkRayHit (Some i) mesh :: rest) g in
  selectedBlock g' =
    Some (mkSelectedBlock (mkVec3 (inject_Z x) (inject_Z y) (inject_Z z))
            (meshBlockType mesh)) ∧
  world g' = world g ∧
  getBlock (worldData (world g)) (inject_Z x) (inject_Z y) (inject_Z z)
    = meshBlockType mesh ∧
  meshBlockType mesh ≠ AIR ∧
  hasAirNeighbour (worldData (world g)) x y z ∧
  selectedBlock (updateSelection (mkRayHit None mesh :: rest) g) = None ∧
  selectedBlock
    (updateSelection (mkRayHit (Some (length (blocks mesh))) mesh :: rest) g)
    = None.
Proof.
  intros Hlock Hmesh Hi g'. subst g'. unfold updateSelection. rewrite Hlock.
  cbn [negb instanceId object]. rewrite Hi.
  destruct (batch_blocks _ chunkX chunkZ nextId mesh Hmesh) as [_ Hb].
  assert (Hin : (x, y, z) ∈ blocks mesh) by (by eapply list_elem_of_lookup_2).
  rewrite Hb in Hin. apply list_elem_of_filter in Hin as [(Hty & Hair & Hexp) _].
  cbn [fst snd] in Hty, Hexp. apply hasExposedFace_true in Hexp.
  assert (Hpast : blocks mesh !! length (blocks mesh) = None)
    by (by apply lookup_ge_None).
  rewrite Hpast. done.
Qed.

Lemma chunkOfPos_rebuild_lookup (cx cz : Z) (g : Game) :
  mapGet (cx, cz) (chunks (rebuildChunk cx cz g)) =
  Some (mkChunk (buildChunkMesh (worldData (world g)) cx cz (nextObjectId g)).1
          cx cz).
Proof.
  unfold rebuildChunk.
  destruct (match mapGet (cx, cz) (chunks g) with
            | Some chunk => releaseMeshes (meshes chunk) (scene g) (disposeCalls g)
            | None => (scene g, disposeCalls g)
            end) as [scene1 disposed].
  destruct (buildChunkMesh (worldData (world g)) cx cz (nextObjectId g))
    as [ms next].
  cbn [withRender chunks fst]. apply mapGet_mapSet_eq.
Qed.

Lemma selectedBlock_rebuildChunk (cx cz : Z) (g : Game) :
  selectedBlock (rebuildChunk cx cz g) = selectedBlock g.
Proof.
  unfold rebuildChunk.
  destruct (match mapGet (cx, cz) (chunks g) with
            | Some chunk => releaseMeshes (meshes chunk) (scene g) (disposeCalls g)
            | None => (scene g, disposeCalls g)
            end) as [scene1 disposed].
  by destruct (buildChunkMesh (worldData (world g)) cx cz (nextObjectId g)).
Qed.

Lemma breakBlock_selected (g : Game) (sel : SelectedBlock) :
  selectedBlock g = Some sel →
  breakBlock g =
  rebuildChunk (chunkOfPos (position sel)).1 (chunkOfPos (position sel)).2
    (withInventory (addToInventory (type sel) 1 (inventory g))
       (withWorld (setBlock (vx (position sel)) (vy (position sel))
                     (vz (position sel)) AIR (world g)) g)).
Proof.
  intros Hsel. unfold breakBlock. rewrite Hsel.
  by destruct (chunkOfPos (position sel)).
Qed.

(** X24.  Breaking the selected block: the cell of the selected position
    reads Air afterwards and no other entry of the world changes; the
    count of the selected type goes up by one and no other count changes;
    the chunk of the position is loaded afterwards with the batches that
    [buildChunkMesh] builds from the new world, none of which lists the
    cell.  The selection itself stays as it was, and nothing checks that
    the cell still holds the block: a second [breakBlock] before the
    selection is updated adds a second block to the inventory and leaves
    the world mapping as after the first. *)
Theorem X24_breakBlock_effect (g : Game) (sel : SelectedBlock) :
  selectedBlock g = Some sel →
  let pos := position sel in
  let cell := getBlockKey (vx pos) (vy pos) (vz pos) in
  let g' := breakBlock g in
  getBlock (worldData (world g')) (vx pos) (vy pos) (vz pos) = AIR ∧
  (∀ k, k ≠ cell → worldData (world g') !! k = worldData (world g) !! k) ∧
  inventory g' (type sel) = (λ c, c + 1) <$> inventory g (type sel) ∧
  (∀ t, t ≠ type sel → inventory g' t = inventory g t) ∧
  (∃ batches,
     mapGet (chunkOfPos pos) (chunks g') =
       Some (mkChunk batches (chunkOfPos pos).1 (chunkOfPos pos).2) ∧
     batches = (buildChunkMesh (worldData (world g'))
                  (chunkOfPos pos).1 (chunkOfPos pos).2 (nextObjectId g)).1 ∧
     ∀ m, m ∈ batches → cell ∉ blocks m) ∧
  selectedBlock g' = Some sel ∧
  worldData (world (breakBlock g')) = worldData (world g') ∧
  inventory (breakBlock g') (type sel) = (λ c, c + 2) <$> inventory g (type sel).
Proof.
  intros Hsel pos cell g'.
  assert (Hg' : g' =
    rebuildChunk (chunkOfPos pos).1 (chunkOfPos pos).2
      (withInventory (addToInventory (type sel) 1 (inventory g))
         (withWorld (setBlock (vx pos) (vy pos) (vz pos) AIR (world g)) g)))
    by (by apply breakBlock_selected).
  assert (Hworld : world g' = setBlock (vx pos) (vy pos) (vz pos) AIR (world g))
    by (by rewrite Hg', world_rebuildChunk).
  assert (Hinv : inventory g' = addToInventory (type sel) 1 (inventory g))
    by (by rewrite Hg', inventory_rebuildChunk).
  assert (Hsel' : selectedBlock g' = Some sel)
    by (by rewrite Hg', selectedBlock_rebuildChunk).
  assert (Hair : getBlock (worldData (world g')) (vx pos) (vy pos) (vz pos) = AIR).
  { rewrite Hworld. unfold getBlock.
    rewrite worldData_setBlock_applyCall, lookup_applyCall. cbn [fst snd].
    by rewrite !decide_True. }
  split; [done|]. split; [|split; [|split; [|split; [|split; [done|split]]]]].
  - intros k Hk. rewrite Hworld, worldData_setBlock_applyCall, lookup_applyCall.
    cbn [fst snd]. by rewrite decide_False.
  - rewrite Hinv. unfold addToInventory. apply inventorySet_eq.
  - intros t Ht. rewrite Hinv. unfold addToInventory. by apply inventorySet_ne.
  - eexists. split; [|split; [reflexivity|]].
    + rewrite Hworld. rewrite Hg' at 1. clear Hg'.
      destruct (chunkOfPos pos) as [cx cz]. cbn [fst snd].
      by rewrite chunkOfPos_rebuild_lookup.
    + intros m Hm Hin.
      destruct (batch_blocks _ _ _ _ m Hm) as [_ Hb].
      rewrite Hb in Hin. apply list_elem_of_filter in Hin as [(Hty & Hne & _) _].
      apply Hne. rewrite <- Hty. unfold cell, getBlockKey. cbn [fst snd].
      rewrite <- Hair. unfold getBlock, getBlockKey. by rewrite !Qfloor_Z.
  - rewrite (breakBlock_selected g' sel Hsel'), world_rebuildChunk.
    cbn [world withInventory withWorld]. fold pos.
    rewrite Hworld. by apply setBlock_overwrites.
  - rewrite (breakBlock_selected g' sel Hsel'), inventory_rebuildChunk.
    cbn [inventory withInventory withWorld]. rewrite Hinv.
    unfold addToInventory. rewrite !inventorySet_eq.
    destruct (inventory g (type sel)) as [c|]; cbn; [|done]. f_equal. lia.
Qed.

(** X25.  Placing costs exactly one block.  [placeBlock] either changes
    nothing, or all of this holds: a block is selected, the raycast hit
    something, the selected slot names a block type (never Air) of which
    the inventory holds at least one, and the box tested at lines 350-357
    does not meet the player's volume; then exactly one [setBlock] call
    is made, at the cell of the selected position plus the face normal,
    with that type; the cell reads that type afterwards; the count of
    the type drops by one and no other count changes. *)
Theorem X25_placeBlock_pays (intersects : list Intersection) (g : Game) :
  let g' := placeBlock intersects g in
  g' = g ∨
  ∃ sel hit rest blockType c,
    selectedBlock g = Some sel ∧ intersects = hit :: rest ∧
    getSelectedBlockType g = Some blockType ∧ blockType ≠ AIR ∧
    inventory g blockType = Some c ∧ 1 ≤ c ∧
    let pos := vecAdd (position sel) (faceNormal hit) in
    boxesIntersect (subScalar pos 0.5) (addScalar pos 0.5)
      (playerMinAt (cameraPosition g)) (playerMaxAt (cameraPosition g)) = false ∧
    newCalls (world g) (world g') =
      [(getBlockKey (vx pos) (vy pos) (vz pos), blockType)] ∧
    getBlock (worldData (world g')) (vx pos) (vy pos) (vz pos) = blockType ∧
    inventory g' blockType = Some (c - 1) ∧
    (∀ t, t ≠ blockType → inventory g' t = inventory g t).
Proof.
  intros g'. subst g'. unfold placeBlock.
  destruct (selectedBlock g) as [sel|] eqn:Hsel; [|by left].
  unfold getSelectedBlockCount.
  destruct (getSelectedBlockType g) as [blockType|] eqn:Hty; cbn [mbind option_bind].
  2: { destruct intersects as [|hit rest]; [by left|].
       destruct (boxesIntersect _ _ _ _); by left. }
  destruct (inventory g blockType) as [c|] eqn:Hinv.
  2: { destruct intersects as [|hit rest]; [by left|].
       destruct (boxesIntersect _ _ _ _); [by left|].
       unfold removeFromInventory. rewrite Hinv. by left. }
  destruct (c <=? 0) eqn:Hc; [by left|]. apply Z.leb_gt in Hc.
  destruct intersects as [|hit rest]; [by left|].
  destruct (boxesIntersect _ _ _ _) eqn:Hbox; [by left|].
  unfold removeFromInventory. rewrite Hinv.
  assert ((1 <=? c) = true) as -> by (apply Z.leb_le; lia).
  right. exists sel, hit, rest, blockType, c.
  split; [done|]. split; [done|]. split; [done|].
  split; [by eapply slotToBlockType_not_air|]. split; [done|]. split; [lia|].
  cbv zeta. split; [done|].
  destruct (chunkOfPos (vecAdd (position sel) (faceNormal hit))) as [cx cz].
  rewrite world_rebuildChunk, inventory_rebuildChunk.
  cbn [world inventory withWorld withInventory].
  split; [|split; [|split]].
  - unfold newCalls, setBlock. cbn [setBlockCalls].
    by rewrite drop_app_length, getBlockKey_floor.
  - unfold getBlock. rewrite worldData_setBlock_applyCall, lookup_applyCall.
    cbn [fst snd]. rewrite decide_True by done.
    assert (blockType ≠ AIR) by (by eapply slotToBlockType_not_air).
    rewrite decide_False by done. by destruct blockType.
  - apply inventorySet_eq.
  - intros t Ht. by apply inventorySet_ne.
Qed.


(** * A whole frame *)

Lemma NoDup_squareOffsets (r : Z) : NoDup (squareOffsets r).
Proof.
  unfold squareOffsets. apply NoDup_bind; [| |apply NoDup_seqZ].
  - intros x1 x2 p _ _ H1 H2.
    apply list_elem_of_fmap in H1 as (z1 & -> & _).
    by apply list_elem_of_fmap in H2 as (z2 & [= ->] & _).
  - intros x _. apply NoDup_fmap_2_strong; [|apply NoDup_seqZ].
    by intros z1 z2 _ _ [= ->].
Qed.

Lemma NoDup_keys_mapSet (k : ChunkKey) (c : Chunk) (m : list (ChunkKey * Chunk)) :
  NoDup m.*1 → NoDup (mapSet k c m).*1.
Proof.
  intros Hm. rewrite (mapSet_Permutation k c m Hm), fmap_app.
  apply NoDup_app. split; [|split].
  - eapply sublist_NoDup; [exact Hm|apply mapDelete_keys_sublist].
  - intros k' Hk' Heq%list_elem_of_singleton. subst k'.
    by apply (mapDelete_keys k m).
  - apply NoDup_singleton.
Qed.

Lemma NoDup_keys_removeChunk (cx cz : Z) (g : Game) :
  NoDup (chunks g).*1 → NoDup (chunks (removeChunk cx cz g)).*1.
Proof.
  intros Hg. unfold removeChunk.
  destruct (mapGet (cx, cz) (chunks g)) as [chunk|]; [|done].
  destruct (releaseMeshes (meshes chunk) (scene g) (disposeCalls g)).
  cbn [withRender chunks].
  eapply sublist_NoDup; [exact Hg|apply mapDelete_keys_sublist].
Qed.

Lemma NoDup_keys_unloadStep_foldl (needed : gset ChunkKey)
    (l : list (ChunkKey * Chunk)) (g : Game) :
  NoDup (chunks g).*1 → NoDup (chunks (foldl (unloadStep needed) g l)).*1.
Proof.
  revert g. induction l as [|e l IH]; intros g Hg; [done|].
  cbn [foldl]. apply IH. unfold unloadStep.
  destruct (mapGet e.1 (chunks g)) as [chunk|]; [|done].
  destruct (negb _); [by apply NoDup_keys_removeChunk|done].
Qed.

Lemma isLocked_removeChunk (cx cz : Z) (g : Game) :
  isLocked (removeChunk cx cz g) = isLocked g.
Proof.
  unfold removeChunk. destruct (mapGet (cx, cz) (chunks g)) as [chunk|]; [|done].
  by destruct (releaseMeshes (meshes chunk) (scene g) (disposeCalls g)).
Qed.

Lemma isLocked_unloadStep_foldl (needed : gset ChunkKey)
    (l : list (ChunkKey * Chunk)) (g : Game) :
  isLocked (foldl (unloadStep needed) g l) = isLocked g.
Proof.
  revert g. induction l as [|e l IH]; intros g; [done|].
  cbn [foldl]. rewrite IH. unfold unloadStep.
  destruct (mapGet e.1 (chunks g)) as [chunk|]; [|done].
  destruct (negb _); [apply isLocked_removeChunk|done].
Qed.

Lemma chunks_updateSelection (intersects : list RayHit) (g : Game) :
  chunks (updateSelection intersects g) = chunks g ∧
  cameraPosition (updateSelection intersects g) = cameraPosition g.
Proof.
  unfold updateSelection. destruct (negb (isLocked g)); [done|].
  destruct intersects as [|[[i|] mesh] rest]; try done.
  cbn [instanceId object].
  by destruct (blocks mesh !! i : option BlockKey) as [[[x y] z]|].
Qed.

Section Frame.

Variable noise2D : Q → Q → Q.
Variable normalize : Vec3 → Vec3.

Lemma NoDup_keys_generateChunk (cx cz : Z) (g : Game) :
  NoDup (chunks g).*1 → NoDup (chunks (generateChunk noise2D cx cz g)).*1.
Proof.
  intros Hg. destruct (chunks_generateChunk noise2D cx cz g) as (c & _ & _ & ->).
  destruct (mapHas (cx, cz) (chunks g)); [done|]. by apply NoDup_keys_mapSet.
Qed.

Lemma NoDup_keys_generateStep_foldl (cx cz : Z) (l : list (Z * Z)) (g : Game) :
  NoDup (chunks g).*1 →
  NoDup (chunks (foldl (generateStep noise2D cx cz) g l)).*1.
Proof.
  revert g. induction l as [|p l IH]; intros g Hg; [done|].
  cbn [foldl]. by apply IH, NoDup_keys_generateChunk.
Qed.

Lemma NoDup_keys_updateChunksWithin (r : Z) (g : Game) :
  NoDup (chunks g).*1 → NoDup (chunks (updateChunksWithin noise2D r g)).*1.
Proof.
  intros Hg. rewrite updateChunksWithin_unfold. cbv zeta.
  rewrite loadStep_foldl_snd. by apply NoDup_keys_unloadStep_foldl,
    NoDup_keys_generateStep_foldl.
Qed.

Lemma isLocked_generateStep_foldl (cx cz : Z) (l : list (Z * Z)) (g : Game) :
  isLocked (foldl (generateStep noise2D cx cz) g l) = isLocked g.
Proof.
  revert g. induction l as [|p l IH]; intros g; [done|]. cbn [foldl].
  rewrite IH. unfold generateStep, generateChunk.
  destruct (mapHas _ _); [done|]. by destruct (buildChunkMesh _ _ _ _).
Qed.

Lemma isLocked_updateChunks (g : Game) :
  isLocked (updateChunks noise2D g) = isLocked g.
Proof.
  unfold updateChunks. rewrite updateChunksWithin_unfold. cbv zeta.
  by rewrite isLocked_unloadStep_foldl, loadStep_foldl_snd,
    isLocked_generateStep_foldl.
Qed.

Lemma chunks_updatePlayer (delta : Q) (worldDirection : Vec3) (g : Game) :
  chunks (updatePlayer normalize delta worldDirection g) = chunks g.
Proof.
  unfold updatePlayer. destruct (negb (isLocked g)); [done|].
  destruct (resolveHorizontal normalize delta worldDirection g) as [camX camZ].
  destruct (negb (checkCollision _ _ _ _));
    repeat match goal with
           | |- context [if ?b then _ else _] => destruct b
           end; done.
Qed.

(** X27.  After every frame the loaded chunks are the 9 x 9 square
    around the camera.  From a chunk table whose entries sit under their
    own coordinates and whose keys are pairwise different, one frame
    ([updatePlayer], then [updateChunks], then [updateSelection]) ends
    with exactly the chunks loaded whose coordinates are within
    [RENDER_DISTANCE] of the chunk the camera is in at the end of the
    frame: 81 entries; and the table is again of that kind. *)
Theorem X27_frame_loads_square (time prevTime : Q) (worldDirection : Vec3)
    (intersects : list RayHit) (g : Game) :
  chunksWellFormed (chunks g) → NoDup (chunks g).*1 →
  let g' := animate noise2D normalize time prevTime worldDirection intersects g in
  (∀ x z, mapHas (x, z) (chunks g') = true ↔
          Z.abs (x - (playerChunkOf g').1) ≤ RENDER_DISTANCE ∧
          Z.abs (z - (playerChunkOf g').2) ≤ RENDER_DISTANCE) ∧
  length (chunks g') = 81%nat ∧
  chunksWellFormed (chunks g') ∧ NoDup (chunks g').*1.
Proof.
  intros Hwf Hkeys g'. subst g'. unfold animate. cbv zeta.
  set (g1 := updatePlayer normalize (frameDelta time prevTime) worldDirection g).
  assert (Hwf1 : chunksWellFormed (chunks g1))
    by (subst g1; by rewrite chunks_updatePlayer).
  assert (Hkeys1 : NoDup (chunks g1).*1)
    by (subst g1; by rewrite chunks_updatePlayer).
  clearbody g1. unfold updateChunks.
  destruct (chunks_updateSelection intersects
              (updateChunksWithin noise2D RENDER_DISTANCE g1)) as [Hc Hp].
  unfold playerChunkOf at 1 2. rewrite Hc, Hp.
  fold (playerChunkOf (updateChunksWithin noise2D RENDER_DISTANCE g1)).
  rewrite playerChunkOf_updateChunksWithin.
  assert (Hlen : length (squareOffsets RENDER_DISTANCE) = 81%nat) by reflexivity.
  revert Hlen. generalize RENDER_DISTANCE. intros r Hlen.
  pose proof (updateChunksWithin_loaded noise2D r g1) as Hsq.
  pose proof (NoDup_keys_updateChunksWithin r g1 Hkeys1) as Hkeys2.
  split; [intros x z; by apply Hsq|]. split; [|split; [|done]].
  - rewrite <- Hlen, <- (length_fmap fst (chunks _)).
    rewrite <- (length_fmap (λ p, ((playerChunkOf g1).1 + p.1,
                                      (playerChunkOf g1).2 + p.2))
                  (squareOffsets r)).
    apply Permutation_length, NoDup_Permutation; [done| |].
    + apply NoDup_fmap_2_strong; [|apply NoDup_squareOffsets].
      intros [x1 z1] [x2 z2] _ _ [= Hx Hz]. cbn [fst snd] in *. f_equal; lia.
    + intros [x z]. rewrite <- mapHas_key_elem_of, (Hsq x z Hwf1), <- inSquare_iff.
      rewrite list_elem_of_fmap. split.
      * intros (p & Hp' & Heq). by exists p.
      * intros (p & Heq & Hp'). by exists p.
  - by apply updateChunksWithin_wellFormed.
Qed.

(** X28.  Without the pointer lock the game is paused: [updatePlayer],
    [updateSelection], a wheel event and a mouse button change nothing
    (the selected block stays as it was), and a frame does only what
    [updateChunks] does. *)
Theorem X28_unlocked_is_paused (g : Game) :
  isLocked g = false →
  (∀ delta worldDirection, updatePlayer normalize delta worldDirection g = g) ∧
  (∀ intersects, updateSelection intersects g = g) ∧
  (∀ deltaY, onMouseWheel deltaY g = g) ∧
  (∀ button intersects, onMouseDown button intersects g = g) ∧
  (∀ time prevTime worldDirection intersects,
     animate noise2D normalize time prevTime worldDirection intersects g =
     updateChunks noise2D g).
Proof.
  intros Hlock.
  assert (Hplayer : ∀ delta worldDirection,
            updatePlayer normalize delta worldDirection g = g)
    by (intros; unfold updatePlayer; by rewrite Hlock).
  split; [done|].
  split; [intros; unfold updateSelection; by rewrite Hlock|].
  split; [intros; unfold onMouseWheel; by rewrite Hlock|].
  split; [intros; unfold onMouseDown; by rewrite Hlock|].
  intros time prevTime worldDirection intersects. unfold animate. cbv zeta.
  rewrite Hplayer. unfold updateSelection.
  assert (Hl : isLocked (updateChunks noise2D g) = false); [|by rewrite Hl].
  rewrite <- Hlock. apply isLocked_updateChunks.
Qed.

End Frame.

(** * The box test of [placeBlock] *)

Lemma Qlarger_spec (a b : Q) :
  (a <= Qlarger a b ∧ b <= Qlarger a b ∧
   ∀ c, a <= c → b <= c → Qlarger a b <= c)%Q.
Proof.
  unfold Qlarger. destruct (Qle_bool a b) eqn:E.
  - apply Qle_bool_iff in E. split; [done|]. split; [apply Qle_refl|done].
  - split; [apply Qle_refl|]. split; [|done].
    apply Qlt_le_weak, Qnot_le_lt. intros Hle%Qle_bool_iff. congruence.
Qed.

(** X29.  [boxesIntersect] is the overlap test of closed boxes: it does
    not depend on the order of the two boxes; it is true whenever some
    point lies in both boxes (also when they only share a face, an edge
    or a corner); and for two boxes that are not empty, it is true only
    if some point lies in both. *)
Theorem X29_boxesIntersect_overlap (min1 max1 min2 max2 : Vec3) :
  boxesIntersect min1 max1 min2 max2 = boxesIntersect min2 max2 min1 max1 ∧
  ((∃ p, inBox min1 max1 p ∧ inBox min2 max2 p) →
   boxesIntersect min1 max1 min2 max2 = true) ∧
  (inBox min1 max1 min1 → inBox min2 max2 min2 →
   boxesIntersect min1 max1 min2 max2 = true →
   ∃ p, inBox min1 max1 p ∧ inBox min2 max2 p).
Proof.
  split; [|split].
  - unfold boxesIntersect.
    by rewrite (andb_comm (Qle_bool (vx min1) _)),
      (andb_comm (Qle_bool (vy min1) _)), (andb_comm (Qle_bool (vz min1) _)).
  - intros (p & H1 & H2). unfold inBox in H1, H2. unfold boxesIntersect.
    rewrite !andb_true_iff, !Qle_bool_iff.
    destruct H1 as (? & ? & ? & ? & ? & ?), H2 as (? & ? & ? & ? & ? & ?).
    repeat split; eapply Qle_trans; eauto.
  - intros B1 B2. unfold boxesIntersect.
    rewrite !andb_true_iff, !Qle_bool_iff.
    intros [[[X1 X2] [Y1 Y2]] [Z1 Z2]].
    unfold inBox in B1, B2.
    destruct B1 as (_ & BX1 & _ & BY1 & _ & BZ1),
             B2 as (_ & BX2 & _ & BY2 & _ & BZ2).
    exists (mkVec3 (Qlarger (vx min1) (vx min2)) (Qlarger (vy min1) (vy min2))
                   (Qlarger (vz min1) (vz min2))).
    unfold inBox. cbn [vx vy vz].
    destruct (Qlarger_spec (vx min1) (vx min2)) as (? & ? & LX),
             (Qlarger_spec (vy min1) (vy min2)) as (? & ? & LY),
             (Qlarger_spec (vz min1) (vz min2)) as (? & ? & LZ).
    repeat split; try done; (by apply LX) || (by apply LY) || (by apply LZ).
Qed.

(** * Concrete instances *)


Lemma X20_opposite_keys_cancel_witness :
  moveForward newGame = moveBackward newGame ∧
  moveLeft newGame = moveRight newGame ∧
  (let moveVec := moveVector keepVector (mkVec3 1 0 0) newGame in
   (vx moveVec == 0 ∧ vy moveVec == 0 ∧ vz moveVec == 0)%Q ∧
   ((resolveHorizontal keepVector 0.1 (mkVec3 1 0 0) newGame).1
    == vx (cameraPosition newGame))%Q ∧
   ((resolveHorizontal keepVector 0.1 (mkVec3 1 0 0) newGame).2
    == vz (cameraPosition newGame))%Q).
Proof.
  split; [reflexivity|]. split; [reflexivity|].
  exact (X20_opposite_keys_cancel keepVector 0.1 (mkVec3 1 0 0) newGame
           eq_refl eq_refl).
Defined.

Lemma stoneMesh_built :
  stoneMesh ∈ (buildChunkMesh (worldData (world oneBlockGame)) 0 0 0).1.
Proof. vm_compute. apply list_elem_of_here. Qed.

Lemma X23_selection_is_a_block_witness :
  isLocked oneBlockGame = true ∧
  stoneMesh ∈ (buildChunkMesh (worldData (world oneBlockGame)) 0 0 0).1 ∧
  blocks stoneMesh !! 0%nat = Some (0, 0, 0) ∧
  (let g' := updateSelection [mkRayHit (Some 0%nat) stoneMesh] oneBlockGame in
   selectedBlock g' =
     Some (mkSelectedBlock (mkVec3 (inject_Z 0) (inject_Z 0) (inject_Z 0))
             (meshBlockType stoneMesh)) ∧
   world g' = world oneBlockGame ∧
   getBlock (worldData (world oneBlockGame)) (inject_Z 0) (inject_Z 0) (inject_Z 0)
     = meshBlockType stoneMesh ∧
   meshBlockType stoneMesh ≠ AIR ∧
   hasAirNeighbour (worldData (world oneBlockGame)) 0 0 0 ∧
   selectedBlock (updateSelection [mkRayHit None stoneMesh] oneBlockGame) = None ∧
   selectedBlock
     (updateSelection [mkRayHit (Some (length (blocks stoneMesh))) stoneMesh]
        oneBlockGame) = None).
Proof.
  split; [reflexivity|]. split; [exact stoneMesh_built|]. split; [reflexivity|].
  exact (X23_selection_is_a_block oneBlockGame 0 0 0 stoneMesh 0 0 0 0 []
           eq_refl stoneMesh_built eq_refl).
Defined.

Lemma X24_breakBlock_effect_witness :
  selectedBlock aimedGame = Some (mkSelectedBlock (mkVec3 0 0 0) STONE) ∧
  (let sel := mkSelectedBlock (mkVec3 0 0 0) STONE in
   let pos := position sel in
   let cell := getBlockKey (vx pos) (vy pos) (vz pos) in
   let g' := breakBlock aimedGame in
   getBlock (worldData (world g')) (vx pos) (vy pos) (vz pos) = AIR ∧
   (∀ k, k ≠ cell →
         worldData (world g') !! k = worldData (world aimedGame) !! k) ∧
   inventory g' (type sel) = (λ c, c + 1) <$> inventory aimedGame (type sel) ∧
   (∀ t, t ≠ type sel → inventory g' t = inventory aimedGame t) ∧
   (∃ batches,
      mapGet (chunkOfPos pos) (chunks g') =
        Some (mkChunk batches (chunkOfPos pos).1 (chunkOfPos pos).2) ∧
      batches = (buildChunkMesh (worldData (world g'))
                   (chunkOfPos pos).1 (chunkOfPos pos).2
                   (nextObjectId aimedGame)).1 ∧
      ∀ m, m ∈ batches → cell ∉ blocks m) ∧
   selectedBlock g' = Some sel ∧
   worldData (world (breakBlock g')) = worldData (world g') ∧
   inventory (breakBlock g') (type sel)
   = (λ c, c + 2) <$> inventory aimedGame (type sel)).
Proof.
  split; [reflexivity|].
  exact (X24_breakBlock_effect aimedGame (mkSelectedBlock (mkVec3 0 0 0) STONE)
           eq_refl).
Defined.


Lemma oneBlockGame_keys : NoDup (chunks oneBlockGame).*1.
Proof. apply NoDup_singleton. Qed.

Lemma X27_frame_loads_square_witness :
  chunksWellFormed (chunks oneBlockGame) ∧ NoDup (chunks oneBlockGame).*1 ∧
  (let g' := animate flatNoise keepVector 16 0 (mkVec3 1 0 0) [] oneBlockGame in
   (∀ x z, mapHas (x, z) (chunks g') = true ↔
           Z.abs (x - (playerChunkOf g').1) ≤ RENDER_DISTANCE ∧
           Z.abs (z - (playerChunkOf g').2) ≤ RENDER_DISTANCE) ∧
   length (chunks g') = 81%nat ∧
   chunksWellFormed (chunks g') ∧ NoDup (chunks g').*1).
Proof.
  split; [exact oneBlockGame_wellFormed|]. split; [exact oneBlockGame_keys|].
  exact (X27_frame_loads_square flatNoise keepVector 16 0 (mkVec3 1 0 0) []
           oneBlockGame oneBlockGame_wellFormed oneBlockGame_keys).
Defined.

Lemma X28_unlocked_is_paused_witness :
  isLocked pausedGame = false ∧
  (∀ delta worldDirection,
     updatePlayer keepVector delta worldDirection pausedGame = pausedGame) ∧
  (∀ intersects, updateSelection intersects pausedGame = pausedGame) ∧
  (∀ deltaY, onMouseWheel deltaY pausedGame = pausedGame) ∧
  (∀ button intersects, onMouseDown button intersects pausedGame = pausedGame) ∧
  (∀ time prevTime worldDirection intersects,
     animate flatNoise keepVector time prevTime worldDirection intersects pausedGame
     = updateChunks flatNoise pausedGame).
Proof.
  split; [reflexivity|].
  exact (X28_unlocked_is_paused flatNoise keepVector pausedGame eq_refl).
Defined.

(** * The input handlers and the selection on concrete inputs *)

Example wheel_wraps_around :
  (selectedSlot (onMouseWheel (-100) newGame),
   selectedSlot (onMouseWheel 100 (withSelectedSlot 4 newGame)),
   selectedSlot (onMouseWheel 0 newGame),
   getSelectedBlockType (onMouseWheel (-100) newGame))
  = (4%nat, 0%nat, 4%nat, Some LEAVES).
Proof. reflexivity. Qed.

Example collision_skips_the_middle_layer :
  let wd := worldData (world headHitGame) in
  (getBlock wd 0.5 1.5 0.5, checkCollision wd 0.5 2.25 0.5) = (STONE, false).
Proof. reflexivity. Qed.

Example select_then_break :
  let g := updateSelection [mkRayHit (Some 0%nat) stoneMesh] oneBlockGame in
  let g' := breakBlock g in
  selectedBlock g = Some (mkSelectedBlock (mkVec3 0 0 0) STONE) ∧
  inventory g' STONE = Some 1 ∧
  worldData (world g') !! (0, 0, 0) = None ∧
  meshes <$> mapGet (0, 0) (chunks g') = Some [] ∧
  scene g' = [] ∧ disposeCalls g' = 1%nat.
Proof. vm_compute. repeat split; reflexivity. Qed.

Example jump_then_space_again :
  let grounded := withPlayer (mkVec3 0 20 0) (mkVec3 0 0 0) true newGame in
  let g := onKeyDown Space grounded in
  (canJump g, Qeq_bool (vy (velocity g)) 10, Qeq_bool (vy (velocity (onKeyDown Space g))) 10)
  = (false, true, true).
Proof. reflexivity. Qed.

Example frameDelta_is_clamped :
  (Qeq_bool (frameDelta 1016 1000) 0.016, Qeq_bool (frameDelta 5000 1000) 0.1)
  = (true, true).
Proof. reflexivity. Qed.
